(** * Progression state of the StarCraft 2 client (worlds/sc2/client.py)

    A shallow embedding of the location codec, the walk over the mission
    order that decides what is available, the item accumulator and the
    Kerrigan level, with the properties the specification states about
    them.  Python integers are unbounded, so they are [Z]; dictionaries are
    [gmap]s, sets are [gset]s, lists are [list]s; a Python exception
    (KeyError, IndexError, ValueError) is [None] in the option monad. *)

From Stdlib Require Import ZArith Lia.
From stdpp Require Import gmap strings list fin_maps sorting.

Local Open Scope Z_scope.
#[local] Set Warnings "-clear-no-such-hyp".

(* ===================================================================== *)
(** * Definitions *)
(* ===================================================================== *)

(** ** Location ids *)

(** [VICTORY_MODULO: int = 100] *)
Definition VICTORY_MODULO : Z := 100.

(** The three constants that client.py imports from [locations] and
    [mission_tables]; their values are not part of client.py, so the codec
    takes them as a parameter. *)
Record LocationConstants := {
  SC2WOL_LOC_ID_OFFSET : Z;
  SC2HOTS_LOC_ID_OFFSET : Z;
  ALL_IN_id : Z   (* SC2Mission.ALL_IN.id *)
}.

Section LocationCodec.
Variable K : LocationConstants.

(** [get_location_offset(mission_id)] *)
Definition get_location_offset (mission_id : Z) : Z :=
  if mission_id <=? ALL_IN_id K then SC2WOL_LOC_ID_OFFSET K
  else SC2HOTS_LOC_ID_OFFSET K - ALL_IN_id K * VICTORY_MODULO.

(** [get_location_id(mission_id, objective_id)] *)
Definition get_location_id (mission_id objective_id : Z) : Z :=
  get_location_offset mission_id + mission_id * VICTORY_MODULO + objective_id.

(** The body of the loop of [build_location_to_mission_mapping]: the
    offset is chosen by the id, then [divmod(loc - offset, VICTORY_MODULO)].
    Python's [divmod] rounds to the floor, as [Z.div] and [Z.modulo] do
    for a positive divisor. *)
Definition location_offset_of_id (loc : Z) : Z :=
  if loc <? SC2HOTS_LOC_ID_OFFSET K then SC2WOL_LOC_ID_OFFSET K
  else SC2HOTS_LOC_ID_OFFSET K - ALL_IN_id K * VICTORY_MODULO.

Definition location_to_mission_objective (loc : Z) : Z * Z :=
  let offset := location_offset_of_id loc in
  ((loc - offset) `div` VICTORY_MODULO, (loc - offset) `mod` VICTORY_MODULO).

End LocationCodec.

(** Values for concrete runs: the offsets of the two expansions as the
    game data has them, and 29, which client.py uses as the default final
    mission id, for All-In. *)
Definition sample_constants : LocationConstants :=
  {| SC2WOL_LOC_ID_OFFSET := 1000;
     SC2HOTS_LOC_ID_OFFSET := 20000000;
     ALL_IN_id := 29 |}.

(** ** Kerrigan level *)

Inductive SC2Race := ANY | TERRAN | ZERG | PROTOSS.

Global Instance SC2Race_eq_dec : EqDecision SC2Race.
Proof. solve_decision. Defined.

(** The accumulators of [calculate_items]: one list of words per race. *)
Record Accumulators := {
  acc_any : list Z;
  acc_terran : list Z;
  acc_zerg : list Z;
  acc_protoss : list Z
}.

Definition acc_get (a : Accumulators) (r : SC2Race) : list Z :=
  match r with
  | ANY => acc_any a
  | TERRAN => acc_terran a
  | ZERG => acc_zerg a
  | PROTOSS => acc_protoss a
  end.

Definition acc_set (a : Accumulators) (r : SC2Race) (l : list Z) : Accumulators :=
  match r with
  | ANY => {| acc_any := l; acc_terran := acc_terran a; acc_zerg := acc_zerg a; acc_protoss := acc_protoss a |}
  | TERRAN => {| acc_any := acc_any a; acc_terran := l; acc_zerg := acc_zerg a; acc_protoss := acc_protoss a |}
  | ZERG => {| acc_any := acc_any a; acc_terran := acc_terran a; acc_zerg := l; acc_protoss := acc_protoss a |}
  | PROTOSS => {| acc_any := acc_any a; acc_terran := acc_terran a; acc_zerg := acc_zerg a; acc_protoss := l |}
  end.

(** The position that a Python list of length [len] reads at index [i]: a
    negative index counts from the end, anything outside is an IndexError. *)
Definition py_index (len : nat) (i : Z) : option nat :=
  if 0 <=? i then (if i <? Z.of_nat len then Some (Z.to_nat i) else None)
  else if - Z.of_nat len <=? i then Some (Z.to_nat (Z.of_nat len + i)) else None.

(** [accumulators[race][word]] *)
Definition acc_word (a : Accumulators) (r : SC2Race) (word : Z) : option Z :=
  pos ← py_index (length (acc_get a r)) word;
  acc_get a r !! pos.

(** [accumulators[race][word] = f(accumulators[race][word])], the shape of
    the augmented assignments [|=] and [+=]. *)
Definition acc_update (a : Accumulators) (r : SC2Race) (word : Z) (f : Z → Z)
    : option Accumulators :=
  pos ← py_index (length (acc_get a r)) word;
  old ← acc_get a r !! pos;
  Some (acc_set a r (<[pos := f old]> (acc_get a r))).

Definition acc_add (a : Accumulators) (r : SC2Race) (word : Z) (v : Z) : option Accumulators :=
  acc_update a r word (λ old, old + v).

(** [x << n] and [x >> n]: a negative shift count is a ValueError. *)
Definition py_shl (x n : Z) : option Z := if n <? 0 then None else Some (Z.shiftl x n).
Definition py_shr (x n : Z) : option Z := if n <? 0 then None else Some (Z.shiftr x n).

(** The options of the session that the level depends on. *)
Record KerriganOptions := {
  kerrigan_levels_per_mission_completed : Z;
  kerrigan_levels_per_mission_completed_cap : Z;
  kerrigan_total_level_cap : Z
}.

(** [get_kerrigan_level(ctx, items, missions_beaten)];
    [level_word] is [ZergItemType.Level.flag_word]. *)
Definition get_kerrigan_level (level_word : Z) (ctx : KerriganOptions)
    (items : Accumulators) (missions_beaten : Z) : option Z :=
  item_value ← acc_word items ZERG level_word;
  let mission_value := missions_beaten * kerrigan_levels_per_mission_completed ctx in
  let mission_value :=
    if bool_decide (kerrigan_levels_per_mission_completed_cap ctx ≠ -1)
    then Z.min mission_value (kerrigan_levels_per_mission_completed_cap ctx)
    else mission_value in
  let total_value := item_value + mission_value in
  let total_value :=
    if bool_decide (kerrigan_total_level_cap ctx ≠ -1)
    then Z.min total_value (kerrigan_total_level_cap ctx)
    else total_value in
  Some total_value.

(** [ArchipelagoBot.missions_beaten_count]: the checked locations whose
    id is a multiple of [VICTORY_MODULO]. *)
Definition missions_beaten_count (checked_locations : gset Z) : Z :=
  Z.of_nat (length (filter (λ location, location `mod` VICTORY_MODULO = 0)
                           (elements checked_locations))).

(** The blended level as the specification words it: the optional cap is
    applied to the sum of the item value and the mission value. *)
Definition cap_with (cap v : Z) : Z := if bool_decide (cap ≠ -1) then Z.min v cap else v.

Definition spec_blended_level (ctx : KerriganOptions) (item_value missions_beaten : Z) : Z :=
  cap_with (kerrigan_total_level_cap ctx)
    (cap_with (kerrigan_levels_per_mission_completed_cap ctx)
       (item_value + missions_beaten * kerrigan_levels_per_mission_completed ctx)).

(** ** The mission order and what is available in it *)

(** [NetUtils.NetworkItem(item, location, player, flags)], a named tuple. *)
Record NetworkItem := {
  item : Z;
  location : Z;
  player : Z;
  flags : Z
}.

Section MissionOrder.
(** Entry rules are objects of [mission_order.entry_rules]; the walk only
    holds them and calls their [is_accessible]. *)
Context {Rule : Type}.

(** The fields of the slot data that client.py reads. An empty slot has
    [mission_id = -1]. *)
Record MissionSlotData := {
  mission_id : Z;
  mission_entry_rule : Rule
}.

Record LayoutSlotData := {
  layout_entry_rule : Rule;
  missions : list (list MissionSlotData)
}.

Record CampaignSlotData := {
  campaign_entry_rule : Rule;
  layouts : list LayoutSlotData
}.

(** [MissionEntryRules(mission_rule, layout_rule, campaign_rule)] *)
Record MissionEntryRules := {
  mission_rule : Rule;
  layout_rule : Rule;
  campaign_rule : Rule
}.

(** The fields of [SC2Context] that the modelled functions read. *)
Record SC2Context := {
  custom_mission_order : list CampaignSlotData;
  mission_id_to_entry_rules : gmap Z MissionEntryRules;
  mission_id_to_location_ids : gmap Z (list Z);
  checked_locations : gset Z;
  items_received : list NetworkItem;
  slot_data_version : Z;
  minerals_per_item : Z;
  vespene_per_item : Z;
  starting_supply_per_item : Z;
  generic_upgrade_missions : Z;
  kerrigan_options : KerriganOptions
}.

(** What [calc_available_nodes] builds, with the set [accessible_rules]
    that it creates once and hands to every evaluation. *)
Record AvailableNodes := {
  available_missions : list Z;
  available_layouts : gmap nat (list nat);
  available_campaigns : list nat;
  accessible_rules : gset Z
}.

Definition enumerate {A} (l : list A) : list (nat * A) := imap pair l.

Variable K : LocationConstants.

(** [SC2Context.is_mission_completed] *)
Definition is_mission_completed (ctx : SC2Context) (mission : Z) : bool :=
  bool_decide (get_location_id K mission 0 ∈ checked_locations ctx).

(** [{mission_id for mission_id in ctx.mission_id_to_entry_rules
      if ctx.is_mission_completed(mission_id)}] *)
Definition beaten_missions_of (ctx : SC2Context) : gset Z :=
  filter (λ mission, is_mission_completed ctx mission = true)
         (dom (mission_id_to_entry_rules ctx)).

(** [received_items.setdefault(item, 0); received_items[item] += 1] *)
Definition count_item (received : gmap Z Z) (network_item : NetworkItem) : gmap Z Z :=
  <[item network_item := default 0 (received !! item network_item) + 1]> received.

Definition received_items_of (ctx : SC2Context) : gmap Z Z :=
  foldl count_item ∅ (items_received ctx).

(** [rule.is_accessible(beaten_missions, received_items,
    mission_id_to_entry_rules, accessible_rules, seen_rules)]. The method
    lives in [mission_order.entry_rules]; the walk works for any of them.
    The first three arguments are read, [accessible_rules] is the one set
    shared by all calls, so the evaluation returns its next value. *)
Variable is_accessible :
  Rule → gset Z → gmap Z Z → gmap Z MissionEntryRules → gset Z → list Z → bool * gset Z.

Section Walk.
Variable ctx : SC2Context.
Let beaten_missions := beaten_missions_of ctx.
Let received_items := received_items_of ctx.

Definition evaluate (rule : Rule) (cache : gset Z) : bool * gset Z :=
  is_accessible rule beaten_missions received_items
                (mission_id_to_entry_rules ctx) cache [].

(** The innermost loop body: [for mission in column]. *)
Definition visit_mission (st : AvailableNodes) (mission : MissionSlotData) : AvailableNodes :=
  if bool_decide (mission_id mission = -1) then st
  else
    let r := evaluate (mission_entry_rule mission) (accessible_rules st) in
    {| available_missions :=
         if r.1 then available_missions st ++ [mission_id mission]
         else available_missions st;
       available_layouts := available_layouts st;
       available_campaigns := available_campaigns st;
       accessible_rules := r.2 |}.

Definition visit_column (st : AvailableNodes) (column : list MissionSlotData) : AvailableNodes :=
  foldl visit_mission st column.

(** [for layout_idx, layout in enumerate(campaign.layouts)]. The key
    [campaign_idx] was assigned at the top of the same campaign
    iteration, so [available_layouts[campaign_idx].append] finds it. *)
Definition visit_layout (campaign_idx : nat) (st : AvailableNodes)
    (entry : nat * LayoutSlotData) : AvailableNodes :=
  let r := evaluate (layout_entry_rule entry.2) (accessible_rules st) in
  if r.1 then
    foldl visit_column
      {| available_missions := available_missions st;
         available_layouts :=
           alter (λ l, l ++ [entry.1]) campaign_idx (available_layouts st);
         available_campaigns := available_campaigns st;
         accessible_rules := r.2 |}
      (missions entry.2)
  else
    {| available_missions := available_missions st;
       available_layouts := available_layouts st;
       available_campaigns := available_campaigns st;
       accessible_rules := r.2 |}.

(** [for campaign_idx, campaign in enumerate(ctx.custom_mission_order)] *)
Definition visit_campaign (st : AvailableNodes)
    (entry : nat * CampaignSlotData) : AvailableNodes :=
  let layouts0 := <[entry.1 := []]> (available_layouts st) in
  let r := evaluate (campaign_entry_rule entry.2) (accessible_rules st) in
  if r.1 then
    foldl (visit_layout entry.1)
      {| available_missions := available_missions st;
         available_layouts := layouts0;
         available_campaigns := available_campaigns st ++ [entry.1];
         accessible_rules := r.2 |}
      (enumerate (layouts entry.2))
  else
    {| available_missions := available_missions st;
       available_layouts := layouts0;
       available_campaigns := available_campaigns st;
       accessible_rules := r.2 |}.

(** [calc_available_nodes(ctx)] *)
Definition calc_available_nodes : AvailableNodes :=
  foldl visit_campaign
    {| available_missions := [];
       available_layouts := ∅;
       available_campaigns := [];
       accessible_rules := ∅ |}
    (enumerate (custom_mission_order ctx)).

(** [is_mission_available(ctx, mission_id_to_check)] *)
Definition is_mission_available (mission_id_to_check : Z) : bool :=
  bool_decide (mission_id_to_check ∈ available_missions calc_available_nodes).

(** [SC2Context.locations_for_mission_id]: a KeyError when the mission
    has no entry. *)
Definition locations_for_mission_id (mission : Z) : option (list Z) :=
  objectives ← mission_id_to_location_ids ctx !! mission;
  Some (map (get_location_id K mission) objectives).

(** The loop body of [calc_unfinished_nodes]. *)
Definition mark_unfinished (unfinished_missions : gset Z) (mission : Z) : option (gset Z) :=
  locations ← locations_for_mission_id mission;
  let objectives : gset Z := list_to_set locations in
  if bool_decide (objectives ≠ ∅) then
    let objectives_completed := checked_locations ctx ∩ objectives in
    if bool_decide (size objectives_completed < size objectives)%nat
    then Some ({[mission]} ∪ unfinished_missions)
    else Some unfinished_missions
  else Some unfinished_missions.

Fixpoint mark_all_unfinished (unfinished_missions : gset Z) (available : list Z)
    : option (gset Z) :=
  match available with
  | [] => Some unfinished_missions
  | mission :: rest =>
      unfinished_missions' ← mark_unfinished unfinished_missions mission;
      mark_all_unfinished unfinished_missions' rest
  end.

(** [calc_unfinished_nodes(ctx)] *)
Definition calc_unfinished_nodes : option (AvailableNodes * gset Z) :=
  let available := calc_available_nodes in
  unfinished_missions ← mark_all_unfinished ∅ (available_missions available);
  Some (available, unfinished_missions).

(** A rule counts as accessible when its evaluation against the
    snapshot of [ctx], started with an empty in-progress list, answers
    [True] (for some content of the shared set [accessible_rules]). *)
Definition accessible_now (rule : Rule) : Prop :=
  ∃ cache, (evaluate rule cache).1 = true.

(** The slot [mission] sits in layout [layout_idx] of campaign
    [campaign_idx]. *)
Definition slot_at (campaign_idx layout_idx : nat) (campaign : CampaignSlotData)
    (layout : LayoutSlotData) (mission : MissionSlotData) : Prop :=
  custom_mission_order ctx !! campaign_idx = Some campaign
  ∧ layouts campaign !! layout_idx = Some layout
  ∧ ∃ column, column ∈ missions layout ∧ mission ∈ column.

(** Why a mission id is in [available_missions]: a slot that holds it
    whose three levels are open in [st]. *)
Definition justified (st : AvailableNodes) (m : Z) : Prop :=
  ∃ campaign_idx layout_idx campaign layout mission,
    slot_at campaign_idx layout_idx campaign layout mission
    ∧ mission_id mission = m ∧ m ≠ -1
    ∧ accessible_now (mission_entry_rule mission)
    ∧ accessible_now (layout_entry_rule layout)
    ∧ accessible_now (campaign_entry_rule campaign)
    ∧ campaign_idx ∈ available_campaigns st
    ∧ ∃ open_layouts, available_layouts st !! campaign_idx = Some open_layouts
                      ∧ layout_idx ∈ open_layouts.

(** What holds of the walk after the first [n] campaigns. *)
Definition walk_invariant (n : nat) (st : AvailableNodes) : Prop :=
  (∀ k, is_Some (available_layouts st !! k) ↔ (k < n)%nat)
  ∧ (∀ k open_layouts layout_idx,
       available_layouts st !! k = Some open_layouts →
       layout_idx ∈ open_layouts →
       k ∈ available_campaigns st
       ∧ ∃ campaign layout,
           custom_mission_order ctx !! k = Some campaign
           ∧ layouts campaign !! layout_idx = Some layout
           ∧ accessible_now (layout_entry_rule layout))
  ∧ (∀ k, k ∈ available_campaigns st →
       ∃ campaign, custom_mission_order ctx !! k = Some campaign
                   ∧ accessible_now (campaign_entry_rule campaign))
  ∧ (∀ m, m ∈ available_missions st → justified st m).
End Walk.
End MissionOrder.

Arguments MissionSlotData : clear implicits.
Arguments LayoutSlotData : clear implicits.
Arguments CampaignSlotData : clear implicits.
Arguments MissionEntryRules : clear implicits.
Arguments SC2Context : clear implicits.

(** ** Entry rules *)

(** The rule objects and their [is_accessible] live in
    [mission_order.entry_rules], which client.py only imports. What follows
    is modelled on sections 3, 4.2 and 9 of the specification. *)

(** Modelled from the spec: the targets of a CountRule are missions or
    items, fixed when the rule is built ([entry_rules] is missing). *)
Inductive TargetKind := MissionTargets | ItemTargets.

(** Modelled from the spec: the two kinds of rule node of the missing
    [entry_rules]. The nodes sit in an arena, a [gmap nat RuleData], and a
    SubRule refers to its children by their position in it, so a rule can be
    reached from itself. A SubRule carries its rule id, a CountRule its
    targets, its amount and its display label. *)
Inductive RuleData :=
| SubRule (rule_id : Z) (sub_rules : list nat) (amount : Z)
| CountRule (kind : TargetKind) (targets : list Z) (amount : Z) (label : string).

(** The rule id of a node that has one. *)
Definition sub_rule_id (node : RuleData) : option Z :=
  match node with
  | SubRule rule_id _ _ => Some rule_id
  | CountRule _ _ _ _ => None
  end.

(** How an evaluation ends: with a value, or, in the model only, because
    the recursion budget ran out or a reference points outside the arena
    (the specification rejects such a graph when the hierarchy is built). *)
Inductive outcome (A : Type) :=
| Returned (a : A)
| OutOfFuel
| Dangling.
Arguments Returned {A} a.
Arguments OutOfFuel {A}.
Arguments Dangling {A}.

Section EntryRules.
Variable rules : gmap nat RuleData.
Variable completed_missions : gset Z.
Variable received_counts : gmap Z Z.

(** Modelled from the spec: the CountRule case of the missing
    [is_accessible]. Over missions it counts its targets among the completed
    missions; over items it sums their received counts. *)
Definition count_rule_met (kind : TargetKind) (targets : list Z) (amount : Z) : bool :=
  match kind with
  | MissionTargets =>
      bool_decide (amount ≤ Z.of_nat (length (filter (λ t, t ∈ completed_missions) targets)))
  | ItemTargets =>
      bool_decide (amount ≤ foldr Z.add 0 (map (λ t, default 0 (received_counts !! t)) targets))
  end.

(** Modelled from the spec: the SubRule loop of the missing
    [is_accessible]. The children are evaluated in order until [amount] of
    them are accessible. The in-progress ids are threaded through, as each
    child leaves them behind. *)
Fixpoint eval_children (ev : nat → list Z → outcome (bool * list Z))
    (amount : Z) (children : list nat) (satisfied : Z) (in_progress : list Z)
    : outcome (bool * list Z) :=
  if amount <=? satisfied then Returned (true, in_progress)
  else
    match children with
    | [] => Returned (false, in_progress)
    | child :: rest =>
        match ev child in_progress with
        | Returned (ok, in_progress') =>
            eval_children ev amount rest
              (if ok then satisfied + 1 else satisfied) in_progress'
        | OutOfFuel => OutOfFuel
        | Dangling => Dangling
        end
    end.

(** Modelled from the spec: the cleanup of the missing [is_accessible],
    which removes the id from the in-progress ids on exit. *)
Definition leave (rule_id : Z) (in_progress : list Z) : list Z :=
  filter (λ id, id ≠ rule_id) in_progress.

(** Modelled from the spec: the missing [is_accessible] with its cycle
    handling. A SubRule whose id is in progress is not accessible; otherwise
    its id is in progress while its children are evaluated and is removed on
    exit. The recursion follows the graph, not a term, so it is bounded by
    [fuel]; [eval_rule_terminates] shows which budget is always enough. *)
Fixpoint eval_rule (fuel : nat) (rule : nat) (in_progress : list Z)
    : outcome (bool * list Z) :=
  match fuel with
  | O => OutOfFuel
  | S fuel' =>
      match rules !! rule with
      | None => Dangling
      | Some (CountRule kind targets amount _) =>
          Returned (count_rule_met kind targets amount, in_progress)
      | Some (SubRule rule_id sub_rules amount) =>
          if bool_decide (rule_id ∈ in_progress) then Returned (false, in_progress)
          else
            match eval_children (eval_rule fuel') amount sub_rules 0
                                (rule_id :: in_progress) with
            | Returned (ok, in_progress') => Returned (ok, leave rule_id in_progress')
            | OutOfFuel => OutOfFuel
            | Dangling => Dangling
            end
      end
  end.

(** The ids of the SubRules of the arena. *)
Definition rule_ids : gset Z := map_img (omap sub_rule_id rules).

(** A budget that is always enough: one step per id that can be in
    progress, and one more. *)
Definition enough_fuel : nat := S (size rule_ids).

(** Every child reference points into the arena. *)
Definition closed_rules : Prop :=
  map_Forall (λ _ node,
    match node with
    | SubRule _ sub_rules _ => Forall (λ child, is_Some (rules !! child)) sub_rules
    | CountRule _ _ _ _ => True
    end) rules.

#[global] Instance closed_rules_dec : Decision closed_rules.
Proof.
  unfold closed_rules. apply map_Forall_dec.
  intros i [rule_id sub_rules amount | kind targets amount label]; apply _.
Defined.
End EntryRules.

(** Modelled from the spec: the missing [is_accessible] in the shape in
    which [calc_available_nodes] calls it. The specification has no
    [accessible_rules] set and no use of [mission_id_to_entry_rules], so
    both pass through untouched. On a closed arena the evaluation returns
    (see [eval_rule_terminates]); the other outcomes count as not
    accessible. *)
Definition spec_is_accessible (rules : gmap nat RuleData) (rule : nat)
    (beaten_missions : gset Z) (received_items : gmap Z Z)
    (entry_rules : gmap Z (MissionEntryRules nat))
    (accessible_rules : gset Z) (seen_rules : list Z) : bool * gset Z :=
  match eval_rule rules beaten_missions received_items (enough_fuel rules) rule seen_rules with
  | Returned (ok, _) => (ok, accessible_rules)
  | OutOfFuel | Dangling => (false, accessible_rules)
  end.

(** ** Item accumulation *)

(** The constants of [item.item_names] that the accumulation names. *)
Record ItemNames := {
  PHOTON_CANNON : string;
  OBSERVER : string;
  WARP_HARMONIZATION : string;
  PROGRESSIVE_PROTOSS_GROUND_WEAPON : string;
  PROGRESSIVE_PROTOSS_GROUND_ARMOR : string;
  PROGRESSIVE_PROTOSS_SHIELDS : string;
  PROGRESSIVE_PROTOSS_AIR_WEAPON : string;
  PROGRESSIVE_PROTOSS_AIR_ARMOR : string;
  PROGRESSIVE_PROTOSS_WEAPON_ARMOR_UPGRADE : string;
  PROGRESSIVE_PROTOSS_GROUND_UPGRADE : string;
  PROGRESSIVE_PROTOSS_AIR_UPGRADE : string;
  PROGRESSIVE_REGENERATIVE_BIO_STEEL : string;
  PROGRESSIVE_ORBITAL_COMMAND : string;
  STARTING_MINERALS : string;
  STARTING_VESPENE : string;
  STARTING_SUPPLY : string;
  COMMAND_CENTER_SCANNER_SWEEP : string;
  COMMAND_CENTER_MULE : string;
  COMMAND_CENTER_EXTRA_SUPPLIES : string;
  PLANETARY_FORTRESS_ORBITAL_MODULE : string
}.

(** The fields of [ItemData] that the accumulation reads; [flag_word] is
    [item_data.type.flag_word]. *)
Record ItemData := {
  code : Z;
  flag_word : Z;
  number : Z;
  race : SC2Race;
  quantity : Z
}.

(** The tables of [item.item_tables] and [options]. [race_to_item_type] has
    an entry for each of the four races (client.py indexes the accumulators
    by all four): [word_count] is the number of its item types with a
    non-negative flag word, [upgrade_word] is
    [race_to_item_type[race]["Upgrade"].flag_word] where that type exists.
    [global_upgrades] is [upgrade_included_names[option_bundle_all]]. *)
Record ItemTables := {
  full_item_list : gmap string ItemData;
  lookup_id_to_name : gmap Z string;
  word_count : SC2Race → nat;
  upgrade_word : SC2Race → option Z;
  upgrade_bundles : gmap string (list string);
  global_upgrades : list string;
  WEAPON_ARMOR_UPGRADE_MAX_LEVEL : Z
}.

(** [CompatItemHolder(name, quantity = 1)] *)
Record CompatItemHolder := {
  compat_name : string;
  compat_quantity : Z
}.

(** [API2_TO_API3_COMPAT_ITEMS], in the order of the source text. *)
Definition API2_TO_API3_COMPAT_ITEMS (N : ItemNames) : list CompatItemHolder :=
  [ {| compat_name := PHOTON_CANNON N; compat_quantity := 1 |};
    {| compat_name := OBSERVER N; compat_quantity := 1 |};
    {| compat_name := WARP_HARMONIZATION N; compat_quantity := 1 |};
    {| compat_name := PROGRESSIVE_PROTOSS_GROUND_WEAPON N; compat_quantity := 3 |};
    {| compat_name := PROGRESSIVE_PROTOSS_GROUND_ARMOR N; compat_quantity := 3 |};
    {| compat_name := PROGRESSIVE_PROTOSS_SHIELDS N; compat_quantity := 3 |};
    {| compat_name := PROGRESSIVE_PROTOSS_AIR_WEAPON N; compat_quantity := 3 |};
    {| compat_name := PROGRESSIVE_PROTOSS_AIR_ARMOR N; compat_quantity := 3 |};
    {| compat_name := PROGRESSIVE_PROTOSS_WEAPON_ARMOR_UPGRADE N; compat_quantity := 3 |} ].

(** A Python value as far as the membership test of the Orbital Command
    handling needs it: an [int] or a [NetworkItem]. Values of different
    types are not equal. *)
Inductive PyValue :=
| PyInt (z : Z)
| PyNetworkItem (n : NetworkItem).

Definition network_item_eqb (a b : NetworkItem) : bool :=
  (item a =? item b) && (location a =? location b)
  && (player a =? player b) && (flags a =? flags b).

Definition py_eq (x y : PyValue) : bool :=
  match x, y with
  | PyInt a, PyInt b => a =? b
  | PyNetworkItem a, PyNetworkItem b => network_item_eqb a b
  | _, _ => false
  end.

(** [x in l] *)
Definition py_in (x : PyValue) (l : list PyValue) : bool := existsb (py_eq x) l.

(** The local variables that the loop of [calculate_items] carries. *)
Record FoldState := {
  accumulators : Accumulators;
  orbital_command_count : Z;
  shields_from_ground_upgrade : Z;
  shields_from_air_upgrade : Z
}.

Section ItemAccumulation.
Variable N : ItemNames.
Variable T : ItemTables.

(** [API2_TO_API3_COMPAT_ITEMS] and [API3_TO_API4_COMPAT_ITEMS] are sets:
    these are their elements in the order in which they are iterated.
    The second is computed from item types that client.py does not hold. *)
Variable api2_to_api3 : list CompatItemHolder.
Variable api3_to_api4 : list CompatItemHolder.

(** [compat_item_to_network_items(compat_item)] *)
Definition compat_item_to_network_items (compat_item : CompatItemHolder)
    : option (list NetworkItem) :=
  data ← full_item_list T !! compat_name compat_item;
  Some (replicate (Z.to_nat (compat_quantity compat_item))
          {| item := code data; location := 0; player := 0; flags := 0 |}).

(** [for compat_item in ...: items.extend(compat_item_to_network_items(compat_item))] *)
Fixpoint extend_with_compat (items : list NetworkItem) (compat : list CompatItemHolder)
    : option (list NetworkItem) :=
  match compat with
  | [] => Some items
  | compat_item :: rest =>
      more ← compat_item_to_network_items compat_item;
      extend_with_compat (items ++ more) rest
  end.

(** The list [items] of [calculate_items] when its loop starts. *)
Definition items_with_compat (version : Z) (items_received : list NetworkItem)
    : option (list NetworkItem) :=
  let items := items_received in
  items ← (if version <? 3 then extend_with_compat items api2_to_api3 else Some items);
  if version <? 4 then extend_with_compat items api3_to_api4 else Some items.

(** The events that the compatibility lists stand for. *)
Definition expand_compat (compat : list CompatItemHolder) : option (list NetworkItem) :=
  (λ parts, List.concat parts) <$> mapM compat_item_to_network_items compat.





(** [get_bundle_upgrade_member_numbers(bundled_item)] *)
Definition get_bundle_upgrade_member_numbers (bundled_item : string) : option (list Z) :=
  upgrade_elements ← upgrade_bundles T !! bundled_item;
  let upgrade_elements :=
    if bool_decide (bundled_item = PROGRESSIVE_PROTOSS_GROUND_UPGRADE N
                    ∨ bundled_item = PROGRESSIVE_PROTOSS_AIR_UPGRADE N)
    then filter (λ item_name, item_name ≠ PROGRESSIVE_PROTOSS_SHIELDS N) upgrade_elements
    else upgrade_elements in
  mapM (λ item_name, number <$> full_item_list T !! item_name) upgrade_elements.

(** [for n in numbers: accumulators[race][word] += value << n] *)
Fixpoint add_shifted (a : Accumulators) (r : SC2Race) (word value : Z) (numbers : list Z)
    : option Accumulators :=
  match numbers with
  | [] => Some a
  | n :: rest =>
      v ← py_shl value n;
      a' ← acc_add a r word v;
      add_shifted a' r word value rest
  end.

Definition with_accumulators (st : FoldState) (a : Accumulators) : FoldState :=
  {| accumulators := a;
     orbital_command_count := orbital_command_count st;
     shields_from_ground_upgrade := shields_from_ground_upgrade st;
     shields_from_air_upgrade := shields_from_air_upgrade st |}.

Section Fold.
Variable version : Z.
Variables minerals vespene supply : Z.

(** The branch [elif item_data.quantity > 1]. *)
Definition fold_progressive (st : FoldState) (name : string) (item_data : ItemData)
    : option FoldState :=
  let flaggroup := flag_word item_data in
  st ← (if 0 <=? number item_data then
          bit ← py_shl 1 (number item_data);
          a ← acc_add (accumulators st) (race item_data) flaggroup bit;
          Some (with_accumulators st a)
        else
          let ground :=
            if bool_decide (name = PROGRESSIVE_PROTOSS_GROUND_UPGRADE N)
            then shields_from_ground_upgrade st + 1 else shields_from_ground_upgrade st in
          let air :=
            if bool_decide (name = PROGRESSIVE_PROTOSS_AIR_UPGRADE N)
            then shields_from_air_upgrade st + 1 else shields_from_air_upgrade st in
          numbers ← get_bundle_upgrade_member_numbers name;
          a ← add_shifted (accumulators st) (race item_data) flaggroup 1 numbers;
          Some {| accumulators := a;
                  orbital_command_count := orbital_command_count st;
                  shields_from_ground_upgrade := ground;
                  shields_from_air_upgrade := air |});
  if (version <? 3) && bool_decide (name = PROGRESSIVE_REGENERATIVE_BIO_STEEL N) then
    word ← acc_word (accumulators st) (race item_data) flaggroup;
    shifted ← py_shr word (number item_data);
    let current_level := shifted `mod` 4 in
    if current_level =? 2 then
      bit ← py_shl 1 (number item_data);
      a ← acc_add (accumulators st) (race item_data) flaggroup bit;
      Some (with_accumulators st a)
    else Some st
  else Some st.

(** The last branch, [# sum]. *)
Definition fold_sum (st : FoldState) (name : string) (item_data : ItemData)
    : option FoldState :=
  if bool_decide (name = PROGRESSIVE_ORBITAL_COMMAND N) then
    Some {| accumulators := accumulators st;
            orbital_command_count := orbital_command_count st + 1;
            shields_from_ground_upgrade := shields_from_ground_upgrade st;
            shields_from_air_upgrade := shields_from_air_upgrade st |}
  else
    let value :=
      if bool_decide (name = STARTING_MINERALS N) then minerals
      else if bool_decide (name = STARTING_VESPENE N) then vespene
      else if bool_decide (name = STARTING_SUPPLY N) then supply
      else number item_data in
    a ← acc_add (accumulators st) (race item_data) (flag_word item_data) value;
    Some (with_accumulators st a).

(** The body of [for network_item in items]. *)
Definition fold_item (st : FoldState) (network_item : NetworkItem) : option FoldState :=
  name ← lookup_id_to_name T !! item network_item;
  item_data ← full_item_list T !! name;
  if flag_word item_data <? 0 then Some st
  else if quantity item_data =? 1 then
    bit ← py_shl 1 (number item_data);
    a ← acc_update (accumulators st) (race item_data) (flag_word item_data)
                   (λ old, Z.lor old bit);
    Some (with_accumulators st a)
  else if 1 <? quantity item_data then fold_progressive st name item_data
  else fold_sum st name item_data.

Fixpoint fold_items (st : FoldState) (items : list NetworkItem) : option FoldState :=
  match items with
  | [] => Some st
  | network_item :: rest =>
      st' ← fold_item st network_item;
      fold_items st' rest
  end.
End Fold.

(** The accumulators before the loop: [word_count race] zeros per race. *)
Definition initial_state : FoldState :=
  {| accumulators :=
       {| acc_any := replicate (word_count T ANY) 0;
          acc_terran := replicate (word_count T TERRAN) 0;
          acc_zerg := replicate (word_count T ZERG) 0;
          acc_protoss := replicate (word_count T PROTOSS) 0 |};
     orbital_command_count := 0;
     shields_from_ground_upgrade := 0;
     shields_from_air_upgrade := 0 |}.

(** [for _ in range(0, n): accumulators[race][word] += v] *)
Fixpoint add_times (n : nat) (a : Accumulators) (r : SC2Race) (word v : Z)
    : option Accumulators :=
  match n with
  | O => Some a
  | S n' => a' ← acc_add a r word v; add_times n' a' r word v
  end.

(** [# Fix Shields from generic upgrades by unit class] *)
Definition fix_shields (st : FoldState) : option Accumulators :=
  if (0 <? shields_from_ground_upgrade st) || (0 <? shields_from_air_upgrade st) then
    let shield_upgrade_level :=
      Z.max (shields_from_ground_upgrade st) (shields_from_air_upgrade st) in
    shield_upgrade_item ← full_item_list T !! PROGRESSIVE_PROTOSS_SHIELDS N;
    bit ← py_shl 1 (number shield_upgrade_item);
    add_times (Z.to_nat shield_upgrade_level) (accumulators st)
              (race shield_upgrade_item) (flag_word shield_upgrade_item) bit
  else Some (accumulators st).

(** [sum(item_id in replacement_item_ids for item_id in items) > 0]: the
    loop variable runs over [items], whose elements are [NetworkItem]s,
    and each is looked up in a list of item codes. *)
Definition replacements_present (items : list NetworkItem) (replacement_item_ids : list Z)
    : bool :=
  0 <? Z.of_nat (length (filter
         (λ item_id, py_in (PyNetworkItem item_id) (PyInt <$> replacement_item_ids) = true)
         items)).

Definition orbital_command_warning : string :=
  "Both old Orbital Command and its replacements are present in the world. Skipping compatibility handling.".

(** [# Deprecated Orbital Command handling]; the second component is what
    was logged at warning level. *)
Definition handle_orbital_command (count : Z) (items : list NetworkItem) (a : Accumulators)
    : option (Accumulators * list string) :=
  if 0 <? count then
    let orbital_command_replacement_items :=
      [ COMMAND_CENTER_SCANNER_SWEEP N; COMMAND_CENTER_MULE N;
        COMMAND_CENTER_EXTRA_SUPPLIES N; PLANETARY_FORTRESS_ORBITAL_MODULE N ] in
    replacement_item_ids ←
      mapM (λ item_name, code <$> full_item_list T !! item_name)
           orbital_command_replacement_items;
    if replacements_present items replacement_item_ids then
      Some (a, [orbital_command_warning])
    else
      scanner_sweep_data ← full_item_list T !! COMMAND_CENTER_SCANNER_SWEEP N;
      mule_data ← full_item_list T !! COMMAND_CENTER_MULE N;
      bit ← py_shl 1 (number scanner_sweep_data);
      a ← acc_add a (race scanner_sweep_data) (flag_word scanner_sweep_data) bit;
      bit ← py_shl 1 (number mule_data);
      a ← acc_add a (race mule_data) (flag_word mule_data) bit;
      if 2 <=? count then
        planetary_orbital_module_data ← full_item_list T !! PLANETARY_FORTRESS_ORBITAL_MODULE N;
        bit ← py_shl 1 (number planetary_orbital_module_data);
        a ← acc_add a (race planetary_orbital_module_data)
                    (flag_word planetary_orbital_module_data) bit;
        Some (a, [])
      else Some (a, [])
  else Some (a, []).

(** [for global_upgrade in global_upgrades: ...] of the last block. *)
Fixpoint add_global_upgrades (a : Accumulators) (upgrade_count : Z) (upgrades : list string)
    : option Accumulators :=
  match upgrades with
  | [] => Some a
  | global_upgrade :: rest =>
      data ← full_item_list T !! global_upgrade;
      upgrade_flaggroup ← upgrade_word T (race data);
      numbers ← get_bundle_upgrade_member_numbers global_upgrade;
      a' ← add_shifted a (race data) upgrade_flaggroup upgrade_count numbers;
      add_global_upgrades a' upgrade_count rest
  end.

Section Calculate.
Context {Rule : Type}.
Variable K : LocationConstants.

(** [int((ctx.generic_upgrade_missions / 100) * total_missions)] is
    computed in binary floating point, which the development leaves
    outside: it is a parameter. *)
Variable mission_share : Z → Z → Z.

(** [# Upgrades from completed missions] *)
Definition add_mission_upgrades (ctx : SC2Context Rule) (a : Accumulators)
    : option Accumulators :=
  if 0 <? generic_upgrade_missions ctx then
    let total_missions :=
      foldr Z.add 0
        (campaign ← custom_mission_order ctx; layout ← layouts campaign;
         column ← missions layout; [Z.of_nat (length column)]) in
    let num_missions := mission_share (generic_upgrade_missions ctx) total_missions in
    let completed :=
      Z.of_nat (length (filter (λ mission, is_mission_completed K ctx mission = true)
                               (elements (dom (mission_id_to_location_ids ctx))))) in
    let upgrade_count :=
      if 0 <? num_missions
      then Z.min (completed `div` num_missions) (WEAPON_ARMOR_UPGRADE_MAX_LEVEL T)
      else WEAPON_ARMOR_UPGRADE_MAX_LEVEL T in
    add_global_upgrades a upgrade_count (global_upgrades T)
  else Some a.

(** [calculate_items(ctx)]: the accumulators and the warnings logged. *)
Definition calculate_items (ctx : SC2Context Rule) : option (Accumulators * list string) :=
  items ← items_with_compat (slot_data_version ctx) (items_received ctx);
  st ← fold_items (slot_data_version ctx) (minerals_per_item ctx) (vespene_per_item ctx)
                  (starting_supply_per_item ctx) initial_state items;
  a ← fix_shields st;
  '(a, warnings) ← handle_orbital_command (orbital_command_count st) items a;
  a ← add_mission_upgrades ctx a;
  Some (a, warnings).
End Calculate.
End ItemAccumulation.

(** ** Sample data *)

(** A rule A whose only child is a SubRule B whose only child is A. *)
Definition rules_A_B : gmap nat RuleData :=
  {[ 0%nat := SubRule 100 [1%nat] 1; 1%nat := SubRule 101 [0%nat] 1 ]}.

(** One campaign and one layout that are always open (a SubRule that asks
    for none of its zero children) and one column with the missions 10 and
    11, where mission 11 asks for mission 10 to be completed. *)
Definition sample_rules : gmap nat RuleData :=
  {[ 0%nat := SubRule 0 [] 0;
     1%nat := SubRule 1 [] 0;
     2%nat := SubRule 2 [] 0;
     3%nat := SubRule 3 [4%nat] 1;
     4%nat := CountRule MissionTargets [10] 1 "Beat mission 10" ]}.

Definition sample_order : list (CampaignSlotData nat) :=
  [ {| campaign_entry_rule := 0%nat;
       layouts :=
         [ {| layout_entry_rule := 1%nat;
              missions := [ [ {| mission_id := 10; mission_entry_rule := 2%nat |};
                              {| mission_id := 11; mission_entry_rule := 3%nat |} ] ] |} ] |} ].

Definition sample_ctx (checked : gset Z) : SC2Context nat :=
  {| custom_mission_order := sample_order;
     mission_id_to_entry_rules :=
       {[ 10 := {| mission_rule := 2%nat; layout_rule := 1%nat; campaign_rule := 0%nat |};
          11 := {| mission_rule := 3%nat; layout_rule := 1%nat; campaign_rule := 0%nat |} ]};
     mission_id_to_location_ids := {[ 10 := [0; 1]; 11 := [0] ]};
     checked_locations := checked;
     items_received := [];
     slot_data_version := 4;
     minerals_per_item := 15;
     vespene_per_item := 15;
     starting_supply_per_item := 2;
     generic_upgrade_missions := 0;
     kerrigan_options :=
       {| kerrigan_levels_per_mission_completed := 0;
          kerrigan_levels_per_mission_completed_cap := -1;
          kerrigan_total_level_cap := -1 |} |}.

(** The walk of the sample with the evaluator of the specification. *)
Definition sample_nodes (checked : gset Z) : AvailableNodes :=
  calc_available_nodes sample_constants (spec_is_accessible sample_rules) (sample_ctx checked).

(** Item names and a small item table for concrete runs: the deprecated
    Orbital Command and its replacements on the Terran side, the Protoss
    upgrades with four bits per level counter, and the three Protoss items
    of the older defaults. *)
Definition sample_names : ItemNames :=
  {| PHOTON_CANNON := "Photon Cannon";
     OBSERVER := "Observer";
     WARP_HARMONIZATION := "Warp Harmonization";
     PROGRESSIVE_PROTOSS_GROUND_WEAPON := "Progressive Protoss Ground Weapon";
     PROGRESSIVE_PROTOSS_GROUND_ARMOR := "Progressive Protoss Ground Armor";
     PROGRESSIVE_PROTOSS_SHIELDS := "Progressive Protoss Shields";
     PROGRESSIVE_PROTOSS_AIR_WEAPON := "Progressive Protoss Air Weapon";
     PROGRESSIVE_PROTOSS_AIR_ARMOR := "Progressive Protoss Air Armor";
     PROGRESSIVE_PROTOSS_WEAPON_ARMOR_UPGRADE := "Progressive Protoss Weapon/Armor Upgrade";
     PROGRESSIVE_PROTOSS_GROUND_UPGRADE := "Progressive Protoss Ground Upgrade";
     PROGRESSIVE_PROTOSS_AIR_UPGRADE := "Progressive Protoss Air Upgrade";
     PROGRESSIVE_REGENERATIVE_BIO_STEEL := "Progressive Regenerative Bio-Steel";
     PROGRESSIVE_ORBITAL_COMMAND := "Progressive Orbital Command";
     STARTING_MINERALS := "Additional Starting Minerals";
     STARTING_VESPENE := "Additional Starting Vespene";
     STARTING_SUPPLY := "Additional Starting Supply";
     COMMAND_CENTER_SCANNER_SWEEP := "Scanner Sweep";
     COMMAND_CENTER_MULE := "MULE";
     COMMAND_CENTER_EXTRA_SUPPLIES := "Extra Supplies";
     PLANETARY_FORTRESS_ORBITAL_MODULE := "Planetary Fortress Orbital Module" |}.

Definition sample_item (c w n : Z) (r : SC2Race) (q : Z) : ItemData :=
  {| code := c; flag_word := w; number := n; race := r; quantity := q |}.

Definition sample_items : list (string * ItemData) :=
  [ ("Progressive Orbital Command", sample_item 1 0 0 TERRAN 0);
    ("Scanner Sweep", sample_item 2 1 0 TERRAN 1);
    ("MULE", sample_item 3 1 1 TERRAN 1);
    ("Extra Supplies", sample_item 4 1 2 TERRAN 1);
    ("Planetary Fortress Orbital Module", sample_item 5 1 3 TERRAN 1);
    ("Progressive Protoss Ground Weapon", sample_item 10 0 0 PROTOSS 5);
    ("Progressive Protoss Ground Armor", sample_item 11 0 4 PROTOSS 5);
    ("Progressive Protoss Shields", sample_item 12 0 8 PROTOSS 5);
    ("Progressive Protoss Air Weapon", sample_item 13 0 12 PROTOSS 5);
    ("Progressive Protoss Air Armor", sample_item 14 0 16 PROTOSS 5);
    ("Progressive Protoss Ground Upgrade", sample_item 15 0 (-1) PROTOSS 5);
    ("Progressive Protoss Air Upgrade", sample_item 16 0 (-1) PROTOSS 5);
    ("Progressive Protoss Weapon/Armor Upgrade", sample_item 17 0 (-1) PROTOSS 5);
    ("Photon Cannon", sample_item 20 1 0 PROTOSS 1);
    ("Observer", sample_item 21 1 1 PROTOSS 1);
    ("Warp Harmonization", sample_item 22 1 2 PROTOSS 1) ].

Definition sample_tables : ItemTables :=
  {| full_item_list := list_to_map sample_items;
     lookup_id_to_name := list_to_map (map (λ entry, (code entry.2, entry.1)) sample_items);
     word_count := λ r, match r with ANY => 3%nat | ZERG => 1%nat | _ => 2%nat end;
     upgrade_word := λ r, match r with ANY => None | _ => Some 0 end;
     upgrade_bundles :=
       {[ "Progressive Protoss Ground Upgrade" :=
            [ "Progressive Protoss Ground Weapon"; "Progressive Protoss Ground Armor";
              "Progressive Protoss Shields" ];
          "Progressive Protoss Air Upgrade" :=
            [ "Progressive Protoss Air Weapon"; "Progressive Protoss Air Armor";
              "Progressive Protoss Shields" ];
          "Progressive Protoss Weapon/Armor Upgrade" :=
            [ "Progressive Protoss Ground Weapon"; "Progressive Protoss Ground Armor";
              "Progressive Protoss Shields"; "Progressive Protoss Air Weapon";
              "Progressive Protoss Air Armor" ] ]};
     global_upgrades := [ "Progressive Protoss Weapon/Armor Upgrade" ];
     WEAPON_ARMOR_UPGRADE_MAX_LEVEL := 5 |}.

Definition received (c : Z) : NetworkItem :=
  {| item := c; location := 0; player := 1; flags := 0 |}.

(** The sample session with the given schema version and received items. *)
Definition sample_session (version : Z) (items : list NetworkItem) : SC2Context nat :=
  {| custom_mission_order := sample_order;
     mission_id_to_entry_rules := mission_id_to_entry_rules (sample_ctx ∅);
     mission_id_to_location_ids := mission_id_to_location_ids (sample_ctx ∅);
     checked_locations := ∅;
     items_received := items;
     slot_data_version := version;
     minerals_per_item := 15;
     vespene_per_item := 15;
     starting_supply_per_item := 2;
     generic_upgrade_missions := 0;
     kerrigan_options := kerrigan_options (sample_ctx ∅) |}.

Definition sample_calculate_items (version : Z) (items : list NetworkItem)
    : option (Accumulators * list string) :=
  calculate_items sample_names sample_tables (API2_TO_API3_COMPAT_ITEMS sample_names) []
    sample_constants (λ percent total, (percent * total) `div` 100)
    (sample_session version items).

(** ** More of the location bookkeeping *)

(** The one field of an [SC2Mission] that the bookkeeping reads, [mission.id]. *)
Record SC2Mission := {
  SC2Mission_id : Z
}.

Section LocationBookkeeping.
Context {Rule : Type}.
Variable K : LocationConstants.

(** The mission ids of all slots, in the order of the comprehension
    [for campaign in ... for layout in ... for column in ... for mission in
    column]; empty slots contribute their [-1]. *)
Definition order_mission_ids (order : list (CampaignSlotData Rule)) : list Z :=
  campaign ← order; layout ← layouts campaign; column ← missions layout;
  mission ← column; [mission_id mission].

(** [{mission.mission_id: set() for ...}] *)
Definition empty_location_mapping (order : list (CampaignSlotData Rule)) : gmap Z (gset Z) :=
  gset_to_gmap ∅ (list_to_set (order_mission_ids order)).

(** The body of [for loc in self.server_locations]: a KeyError when the
    decoded mission is not a key. *)
Definition add_server_location (mapping : gmap Z (gset Z)) (loc : Z)
    : option (gmap Z (gset Z)) :=
  let decoded := location_to_mission_objective K loc in
  objectives ← mapping !! decoded.1;
  Some (<[decoded.1 := {[decoded.2]} ∪ objectives]> mapping).

Fixpoint add_server_locations (mapping : gmap Z (gset Z)) (locs : list Z)
    : option (gmap Z (gset Z)) :=
  match locs with
  | [] => Some mapping
  | loc :: rest =>
      mapping' ← add_server_location mapping loc;
      add_server_locations mapping' rest
  end.

(** [build_location_to_mission_mapping]: the value it stores in
    [self.mission_id_to_location_ids]. [server_locations] is a set; each
    set of objectives is turned into a list by [sorted]. *)
Definition build_location_to_mission_mapping (order : list (CampaignSlotData Rule))
    (server_locations : gset Z) : option (gmap Z (list Z)) :=
  match add_server_locations (empty_location_mapping order) (elements server_locations) with
  | Some mapping =>
      Some ((λ objectives : gset Z, merge_sort Z.le (elements objectives)) <$> mapping)
  | None => None
  end.

(** [SC2Context.locations_for_mission] *)
Definition locations_for_mission (ctx : SC2Context Rule) (mission : SC2Mission)
    : option (list Z) :=
  let mission_id := SC2Mission_id mission in
  objectives ← mission_id_to_location_ids ctx !! mission_id;
  Some (map (get_location_id K mission_id) objectives).

(** [SC2Context.uncollected_locations_in_mission]; [missing_locations] is
    [ctx.missing_locations]. *)
Definition uncollected_locations_in_mission (ctx : SC2Context Rule)
    (missing_locations : gset Z) (mission : SC2Mission) : option (list Z) :=
  locations ← locations_for_mission ctx mission;
  Some (filter (λ location_id, location_id ∈ missing_locations) locations).

(** [ArchipelagoBot.get_uncollected_objectives]; [lookup_id_to_mission] is
    the table of [mission_tables], the other arguments are the fields
    [missing_locations], [final_mission_ids] and [finished_game] of the
    context and [self.mission_id]. *)
Definition get_uncollected_objectives (lookup_id_to_mission : gmap Z SC2Mission)
    (ctx : SC2Context Rule) (missing_locations : gset Z) (final_mission_ids : list Z)
    (finished_game : bool) (mission_id : Z) : option (list Z) :=
  mission ← lookup_id_to_mission !! mission_id;
  locations ← uncollected_locations_in_mission ctx missing_locations mission;
  let result := map (λ location, location `mod` VICTORY_MODULO) locations in
  if bool_decide (mission_id ∈ final_mission_ids) && negb finished_game
     && bool_decide (0 ∉ result)
  then Some (result ++ [0])
  else Some result.
End LocationBookkeeping.

(** ** The available nodes, written as comprehensions *)

(** The answer of the evaluation of a rule against the snapshot of [ctx],
    started with an empty set [accessible_rules]. *)
Definition open_rule {Rule : Type} (K : LocationConstants)
    (is_accessible : Rule → gset Z → gmap Z Z → gmap Z (MissionEntryRules Rule)
                     → gset Z → list Z → bool * gset Z)
    (ctx : SC2Context Rule) (rule : Rule) : bool :=
  (evaluate K is_accessible ctx rule ∅).1.

Section AvailableNodesSpec.
Context {Rule : Type}.

(** Whether a rule is open, as a plain predicate. *)
Variable opened : Rule → bool.

(** The ids of the slots of a column that hold a mission whose rule is
    open. *)
Definition open_missions_of_column (column : list (MissionSlotData Rule)) : list Z :=
  mission ← column;
  if bool_decide (mission_id mission ≠ -1) && opened (mission_entry_rule mission)
  then [mission_id mission] else [].

(** The indices of the open layouts among (index, layout) entries. *)
Definition open_layout_indices (entries : list (nat * LayoutSlotData Rule)) : list nat :=
  entry ← entries; if opened (layout_entry_rule entry.2) then [entry.1] else [].

(** The open missions of the open layouts. *)
Definition open_missions_of_layouts (entries : list (nat * LayoutSlotData Rule)) : list Z :=
  entry ← entries;
  if opened (layout_entry_rule entry.2)
  then column ← missions entry.2; open_missions_of_column column
  else [].

(** The indices of the open campaigns among (index, campaign) entries. *)
Definition open_campaign_indices (entries : list (nat * CampaignSlotData Rule)) : list nat :=
  entry ← entries; if opened (campaign_entry_rule entry.2) then [entry.1] else [].

(** The open missions of the open layouts of the open campaigns. *)
Definition open_missions_of_campaigns (entries : list (nat * CampaignSlotData Rule)) : list Z :=
  entry ← entries;
  if opened (campaign_entry_rule entry.2)
  then open_missions_of_layouts (enumerate (layouts entry.2))
  else [].

(** The list of open layouts that a campaign gets. *)
Definition open_layouts_of_campaign (campaign : CampaignSlotData Rule) : list nat :=
  if opened (campaign_entry_rule campaign)
  then open_layout_indices (enumerate (layouts campaign))
  else [].
End AvailableNodesSpec.

(** ** Notions for the item accumulation *)

(** Two accumulators with the same number of words for every race. *)
Definition same_shape (a a' : Accumulators) : Prop :=
  ∀ r, length (acc_get a' r) = length (acc_get a r).

(** An item id that both tables know. *)
Definition item_known (T : ItemTables) (network_item : NetworkItem) : Prop :=
  ∃ name item_data,
    lookup_id_to_name T !! item network_item = Some name
    ∧ full_item_list T !! name = Some item_data.

(** A received item of the kind that exists exactly once: the loop sets
    the bit [n] of word [w] of race [r] for it. *)
Definition is_flag (T : ItemTables) (network_item : NetworkItem) : Prop :=
  ∃ name item_data,
    lookup_id_to_name T !! item network_item = Some name
    ∧ full_item_list T !! name = Some item_data
    ∧ 0 ≤ flag_word item_data ∧ quantity item_data = 1.

(** The sample tables with the regenerative bio-steel added: a Terran
    counter of two bits at bit 4 of word 0, sent up to three times. *)
Definition bio_steel_tables : ItemTables :=
  {| full_item_list :=
       <["Progressive Regenerative Bio-Steel" := sample_item 30 0 4 TERRAN 3]>
         (full_item_list sample_tables);
     lookup_id_to_name :=
       <[30 := "Progressive Regenerative Bio-Steel"]> (lookup_id_to_name sample_tables);
     word_count := word_count sample_tables;
     upgrade_word := upgrade_word sample_tables;
     upgrade_bundles := upgrade_bundles sample_tables;
     global_upgrades := global_upgrades sample_tables;
     WEAPON_ARMOR_UPGRADE_MAX_LEVEL := WEAPON_ARMOR_UPGRADE_MAX_LEVEL sample_tables |}.

(** The fold state in which the Terran word 0 holds [word] and nothing
    else was received. *)
Definition bio_steel_state (word : Z) : FoldState :=
  with_accumulators (initial_state bio_steel_tables)
    {| acc_any := [0; 0; 0]; acc_terran := [word; 0]; acc_zerg := [0];
       acc_protoss := [0; 0] |}.

(** ** The Spear of Adun options *)

(** The values of a choice between not present, LotV Protoss missions,
    all Protoss missions and everywhere ([SpearOfAdunPresence] and
    [SpearOfAdunAutonomouslyCastAbilityPresence] of the options module). *)
Record PresenceChoice := {
  option_not_present : Z;
  option_lotv_protoss : Z;
  option_protoss : Z;
  option_everywhere : Z
}.

(** The option constants that [caclulate_soa_options] compares with. *)
Record SoAOptionValues := {
  SpearOfAdunPresence : PresenceChoice;
  SpearOfAdunPresentInNoBuild_option_true : Z;
  SpearOfAdunAutonomouslyCastAbilityPresence : PresenceChoice;
  SpearOfAdunAutonomouslyCastPresentInNoBuild_option_true : Z
}.

(** The fields of the context that [caclulate_soa_options] reads. *)
Record SoAOptions := {
  spear_of_adun_presence : Z;
  spear_of_adun_present_in_no_build : Z;
  spear_of_adun_autonomously_cast_ability_presence : Z;
  spear_of_adun_autonomously_cast_present_in_no_build : Z;
  soa_slot_data_version : Z
}.

(** The [if]/[elif] chain that turns a choice into a number from 0 to 3;
    a value that is none of the four leaves the initial 0. *)
Definition presence_value (choice : PresenceChoice) (value : Z) : Z :=
  if bool_decide (value = option_not_present choice) then 0
  else if bool_decide (value = option_lotv_protoss choice) then 1
  else if bool_decide (value = option_protoss choice) then 2
  else if bool_decide (value = option_everywhere choice) then 3
  else 0.

(** [soa_autocasts_presence_value] as it is when it is written into the
    result. *)
Definition soa_autocasts_presence_value (O : SoAOptionValues) (ctx : SoAOptions) : Z :=
  let soa_autocasts_presence_value :=
    presence_value (SpearOfAdunAutonomouslyCastAbilityPresence O)
      (spear_of_adun_autonomously_cast_ability_presence ctx) in
  if (soa_slot_data_version ctx <? 4) && (soa_autocasts_presence_value <? 2) then 2
  else soa_autocasts_presence_value.

(** [caclulate_soa_options(ctx)] (the name is the source's). *)
Definition caclulate_soa_options (O : SoAOptionValues) (ctx : SoAOptions) : Z :=
  let result := 0 in
  let soa_presence_value :=
    presence_value (SpearOfAdunPresence O) (spear_of_adun_presence ctx) in
  let result := Z.lor result (Z.shiftl soa_presence_value 0) in
  let result :=
    if bool_decide (spear_of_adun_present_in_no_build ctx
                    = SpearOfAdunPresentInNoBuild_option_true O)
    then Z.lor result (Z.shiftl 1 2) else result in
  let result := Z.lor result (Z.shiftl (soa_autocasts_presence_value O ctx) 3) in
  let result :=
    if bool_decide (spear_of_adun_autonomously_cast_present_in_no_build ctx
                    = SpearOfAdunAutonomouslyCastPresentInNoBuild_option_true O)
    then Z.lor result (Z.shiftl 1 5) else result in
  result.

(** ** The words of the accumulators after an assignment *)



(** The sample session with upgrades from completed missions: no item
    is received, [percent] is [generic_upgrade_missions]. The share of the
    two missions is computed in exact arithmetic, which agrees with the
    floating point expression of the source on these small numbers
    ([int((50 / 100) * 2) = 1]). *)
Definition sample_upgrade_session (percent : Z) (checked : gset Z) : SC2Context nat :=
  {| custom_mission_order := sample_order;
     mission_id_to_entry_rules := mission_id_to_entry_rules (sample_ctx ∅);
     mission_id_to_location_ids := mission_id_to_location_ids (sample_ctx ∅);
     checked_locations := checked;
     items_received := [];
     slot_data_version := 4;
     minerals_per_item := 15;
     vespene_per_item := 15;
     starting_supply_per_item := 2;
     generic_upgrade_missions := percent;
     kerrigan_options := kerrigan_options (sample_ctx ∅) |}.

Definition sample_mission_upgrades (percent : Z) (checked : gset Z)
    : option (Accumulators * list string) :=
  calculate_items sample_names sample_tables (API2_TO_API3_COMPAT_ITEMS sample_names) []
    sample_constants (λ percent total, (percent * total) `div` 100)
    (sample_upgrade_session percent checked).

(** ** Which exception the loop of [calculate_items] raises *)

(** The embedding above writes every exception as [None]. Here the start
    of [calculate_items], up to the end of its loop, is written once more
    with the exception named: a missing dictionary key, a list index out
    of range, a negative shift count. *)
Inductive PyError := KeyError | IndexError | ValueError.

Global Instance PyError_eq_dec : EqDecision PyError.
Proof. solve_decision. Defined.

(** An operation whose only exception is [e]. *)
Definition or_raise {A} (e : PyError) (x : option A) : PyError + A :=
  match x with
  | Some v => inr v
  | None => inl e
  end.

Definition and_then {A B} (x : PyError + A) (f : A → PyError + B) : PyError + B :=
  match x with
  | inl e => inl e
  | inr v => f v
  end.

Notation "x ⇐ e1 ; e2" := (and_then e1 (λ x, e2))
  (at level 20, e1 at level 100, e2 at level 200, right associativity,
   format "x  ⇐  e1 ;  '/' e2").

(** Forgetting which exception it was. *)
Definition erase {A} (x : PyError + A) : option A :=
  match x with
  | inl _ => None
  | inr v => Some v
  end.

(** [accumulators[race][word] op= rhs]: Python loads the old word first
    (an IndexError), then evaluates the right-hand side (which may raise
    on its own), then stores the result at the index that it has just
    read. *)
Definition aug_assign (a : Accumulators) (r : SC2Race) (word : Z) (rhs : PyError + Z)
    (op : Z → Z → Z) : PyError + Accumulators :=
  _ ⇐ or_raise IndexError (acc_word a r word);
  v ⇐ rhs;
  or_raise IndexError (acc_update a r word (λ old, op old v)).

Section LoopErrors.
Variable N : ItemNames.
Variable T : ItemTables.
Variables api2_to_api3 api3_to_api4 : list CompatItemHolder.
Variable version : Z.
Variables minerals vespene supply : Z.

(** [for n in numbers: accumulators[race][word] += value << n] *)
Fixpoint add_shifted_exn (a : Accumulators) (r : SC2Race) (word value : Z)
    (numbers : list Z) : PyError + Accumulators :=
  match numbers with
  | [] => inr a
  | n :: rest =>
      a' ⇐ aug_assign a r word (or_raise ValueError (py_shl value n)) Z.add;
      add_shifted_exn a' r word value rest
  end.

(** The branch [elif item_data.quantity > 1]; the lookups of
    [get_bundle_upgrade_member_numbers] are its only exceptions. *)
Definition fold_progressive_exn (st : FoldState) (name : string) (item_data : ItemData)
    : PyError + FoldState :=
  let flaggroup := flag_word item_data in
  st ⇐ (if 0 <=? number item_data then
          a ⇐ aug_assign (accumulators st) (race item_data) flaggroup
                (or_raise ValueError (py_shl 1 (number item_data))) Z.add;
          inr (with_accumulators st a)
        else
          let ground :=
            if bool_decide (name = PROGRESSIVE_PROTOSS_GROUND_UPGRADE N)
            then shields_from_ground_upgrade st + 1 else shields_from_ground_upgrade st in
          let air :=
            if bool_decide (name = PROGRESSIVE_PROTOSS_AIR_UPGRADE N)
            then shields_from_air_upgrade st + 1 else shields_from_air_upgrade st in
          numbers ⇐ or_raise KeyError (get_bundle_upgrade_member_numbers N T name);
          a ⇐ add_shifted_exn (accumulators st) (race item_data) flaggroup 1 numbers;
          inr {| accumulators := a;
                 orbital_command_count := orbital_command_count st;
                 shields_from_ground_upgrade := ground;
                 shields_from_air_upgrade := air |});
  if (version <? 3) && bool_decide (name = PROGRESSIVE_REGENERATIVE_BIO_STEEL N) then
    word ⇐ or_raise IndexError (acc_word (accumulators st) (race item_data) flaggroup);
    shifted ⇐ or_raise ValueError (py_shr word (number item_data));
    let current_level := shifted `mod` 4 in
    if current_level =? 2 then
      a ⇐ aug_assign (accumulators st) (race item_data) flaggroup
            (or_raise ValueError (py_shl 1 (number item_data))) Z.add;
      inr (with_accumulators st a)
    else inr st
  else inr st.

(** The last branch, [# sum]. *)
Definition fold_sum_exn (st : FoldState) (name : string) (item_data : ItemData)
    : PyError + FoldState :=
  if bool_decide (name = PROGRESSIVE_ORBITAL_COMMAND N) then
    inr {| accumulators := accumulators st;
           orbital_command_count := orbital_command_count st + 1;
           shields_from_ground_upgrade := shields_from_ground_upgrade st;
           shields_from_air_upgrade := shields_from_air_upgrade st |}
  else
    let value :=
      if bool_decide (name = STARTING_MINERALS N) then minerals
      else if bool_decide (name = STARTING_VESPENE N) then vespene
      else if bool_decide (name = STARTING_SUPPLY N) then supply
      else number item_data in
    a ⇐ aug_assign (accumulators st) (race item_data) (flag_word item_data) (inr value) Z.add;
    inr (with_accumulators st a).

(** The body of [for network_item in items]. *)
Definition fold_item_exn (st : FoldState) (network_item : NetworkItem)
    : PyError + FoldState :=
  name ⇐ or_raise KeyError (lookup_id_to_name T !! item network_item);
  item_data ⇐ or_raise KeyError (full_item_list T !! name);
  if flag_word item_data <? 0 then inr st
  else if quantity item_data =? 1 then
    a ⇐ aug_assign (accumulators st) (race item_data) (flag_word item_data)
          (or_raise ValueError (py_shl 1 (number item_data))) Z.lor;
    inr (with_accumulators st a)
  else if 1 <? quantity item_data then fold_progressive_exn st name item_data
  else fold_sum_exn st name item_data.

Fixpoint fold_items_exn (st : FoldState) (items : list NetworkItem) : PyError + FoldState :=
  match items with
  | [] => inr st
  | network_item :: rest =>
      st' ⇐ fold_item_exn st network_item;
      fold_items_exn st' rest
  end.

(** [calculate_items] from its first line to the end of its loop. Before
    the loop only [compat_item_to_network_items] can raise, by a lookup in
    the item list. *)
Definition calculate_items_loop_exn (items_received : list NetworkItem)
    : PyError + FoldState :=
  items ⇐ or_raise KeyError
            (items_with_compat T api2_to_api3 api3_to_api4 version items_received);
  fold_items_exn (initial_state T) items.
End LoopErrors.

(** The sample tables with an item that exists once and has a negative
    bit number, so that its shift raises a ValueError. *)
Definition negative_number_tables : ItemTables :=
  {| full_item_list :=
       <["Broken Flag" := sample_item 40 1 (-1) TERRAN 1]> (full_item_list sample_tables);
     lookup_id_to_name := <[40 := "Broken Flag"]> (lookup_id_to_name sample_tables);
     word_count := word_count sample_tables;
     upgrade_word := upgrade_word sample_tables;
     upgrade_bundles := upgrade_bundles sample_tables;
     global_upgrades := global_upgrades sample_tables;
     WEAPON_ARMOR_UPGRADE_MAX_LEVEL := WEAPON_ARMOR_UPGRADE_MAX_LEVEL sample_tables |}.

(** ** The calls of [is_accessible] that the walk makes *)

Section WalkCalls.
Context {Rule : Type}.
Variable K : LocationConstants.
Variable is_accessible :
  Rule → gset Z → gmap Z Z → gmap Z (MissionEntryRules Rule) → gset Z → list Z → bool * gset Z.
Variable ctx : SC2Context Rule.

(** Where [calc_available_nodes] calls [is_accessible]: on the rule of
    the campaign at [campaign_idx], on the rule of the layout at
    [layout_idx] of it, or on the rule of a slot of that layout. *)
Inductive CallSite :=
  | CampaignCall (campaign_idx : nat)
  | LayoutCall (campaign_idx layout_idx : nat)
  | MissionCall (campaign_idx layout_idx : nat) (mission : MissionSlotData Rule).

(** One call: where it was made, on which rule, the set
    [accessible_rules] as it was passed, the answer, and the set as the
    call left it. *)
Record Call := {
  call_site : CallSite;
  call_rule : Rule;
  call_passed : gset Z;
  call_answer : bool;
  call_left : gset Z
}.

(** The call at [site]: [rule.is_accessible(beaten_missions,
    received_items, ctx.mission_id_to_entry_rules, accessible_rules, [])]. *)
Definition call (site : CallSite) (rule : Rule) (passed : gset Z) : Call :=
  let r := evaluate K is_accessible ctx rule passed in
  {| call_site := site;
     call_rule := rule;
     call_passed := passed;
     call_answer := r.1;
     call_left := r.2 |}.

(** The walk of [calc_available_nodes] once more, with the list of the
    calls that it has made so far beside its variables: every line that
    calls [is_accessible] appends its call, and nothing else differs. *)
Definition visit_mission_logged (campaign_idx layout_idx : nat)
    (st : AvailableNodes * list Call) (mission : MissionSlotData Rule)
    : AvailableNodes * list Call :=
  if bool_decide (mission_id mission = -1) then st
  else
    let r := evaluate K is_accessible ctx (mission_entry_rule mission)
                      (accessible_rules st.1) in
    ({| available_missions :=
          if r.1 then available_missions st.1 ++ [mission_id mission]
          else available_missions st.1;
        available_layouts := available_layouts st.1;
        available_campaigns := available_campaigns st.1;
        accessible_rules := r.2 |},
     st.2 ++ [call (MissionCall campaign_idx layout_idx mission)
                   (mission_entry_rule mission) (accessible_rules st.1)]).

Definition visit_column_logged (campaign_idx layout_idx : nat)
    (st : AvailableNodes * list Call) (column : list (MissionSlotData Rule))
    : AvailableNodes * list Call :=
  foldl (visit_mission_logged campaign_idx layout_idx) st column.

Definition visit_layout_logged (campaign_idx : nat) (st : AvailableNodes * list Call)
    (entry : nat * LayoutSlotData Rule) : AvailableNodes * list Call :=
  let r := evaluate K is_accessible ctx (layout_entry_rule entry.2)
                    (accessible_rules st.1) in
  let calls :=
    st.2 ++ [call (LayoutCall campaign_idx entry.1) (layout_entry_rule entry.2)
                  (accessible_rules st.1)] in
  if r.1 then
    foldl (visit_column_logged campaign_idx entry.1)
      ({| available_missions := available_missions st.1;
          available_layouts :=
            alter (λ l, l ++ [entry.1]) campaign_idx (available_layouts st.1);
          available_campaigns := available_campaigns st.1;
          accessible_rules := r.2 |}, calls)
      (missions entry.2)
  else
    ({| available_missions := available_missions st.1;
        available_layouts := available_layouts st.1;
        available_campaigns := available_campaigns st.1;
        accessible_rules := r.2 |}, calls).

Definition visit_campaign_logged (st : AvailableNodes * list Call)
    (entry : nat * CampaignSlotData Rule) : AvailableNodes * list Call :=
  let layouts0 := <[entry.1 := []]> (available_layouts st.1) in
  let r := evaluate K is_accessible ctx (campaign_entry_rule entry.2)
                    (accessible_rules st.1) in
  let calls :=
    st.2 ++ [call (CampaignCall entry.1) (campaign_entry_rule entry.2)
                  (accessible_rules st.1)] in
  if r.1 then
    foldl (visit_layout_logged entry.1)
      ({| available_missions := available_missions st.1;
          available_layouts := layouts0;
          available_campaigns := available_campaigns st.1 ++ [entry.1];
          accessible_rules := r.2 |}, calls)
      (enumerate (layouts entry.2))
  else
    ({| available_missions := available_missions st.1;
        available_layouts := layouts0;
        available_campaigns := available_campaigns st.1;
        accessible_rules := r.2 |}, calls).

Definition calc_available_nodes_logged : AvailableNodes * list Call :=
  foldl visit_campaign_logged
    ({| available_missions := [];
        available_layouts := ∅;
        available_campaigns := [];
        accessible_rules := ∅ |}, [])
    (enumerate (custom_mission_order ctx)).

(** The calls of the walk, in the order in which it makes them. *)
Definition walk_calls : list Call := calc_available_nodes_logged.2.

(** What the calls say. The set [accessible_rules] is created empty and
    is the same object in every call: a call is passed what the call
    before it has left. *)
Definition passed_in_turn (calls : list Call) : Prop :=
  ∀ i c, calls !! i = Some c →
    call_passed c = match i with
                    | O => ∅
                    | S i' => default ∅ (call_left <$> calls !! i')
                    end.

Definition last_left (calls : list Call) : gset Z :=
  default ∅ (call_left <$> last calls).

(** What a call that answered [True] adds to the three results. *)
Definition mission_of_call (c : Call) : option Z :=
  match call_site c with
  | MissionCall _ _ mission => if call_answer c then Some (mission_id mission) else None
  | _ => None
  end.

Definition campaign_of_call (c : Call) : option nat :=
  match call_site c with
  | CampaignCall campaign_idx => if call_answer c then Some campaign_idx else None
  | _ => None
  end.

Definition layout_of_call (campaign_idx : nat) (c : Call) : option nat :=
  match call_site c with
  | LayoutCall campaign_idx' layout_idx =>
      if bool_decide (campaign_idx' = campaign_idx) && call_answer c
      then Some layout_idx else None
  | _ => None
  end.

(** A call is on the rule of the place where it is made, and a call
    below the level of the campaigns is made only when the call one level
    up has answered [True]. *)
Definition call_in_place (calls : list Call) (c : Call) : Prop :=
  match call_site c with
  | CampaignCall campaign_idx =>
      ∃ campaign,
        custom_mission_order ctx !! campaign_idx = Some campaign
        ∧ call_rule c = campaign_entry_rule campaign
  | LayoutCall campaign_idx layout_idx =>
      ∃ campaign layout,
        custom_mission_order ctx !! campaign_idx = Some campaign
        ∧ layouts campaign !! layout_idx = Some layout
        ∧ call_rule c = layout_entry_rule layout
        ∧ ∃ c', c' ∈ calls ∧ call_site c' = CampaignCall campaign_idx
                ∧ call_answer c' = true
  | MissionCall campaign_idx layout_idx mission =>
      ∃ campaign layout,
        slot_at ctx campaign_idx layout_idx campaign layout mission
        ∧ mission_id mission ≠ -1
        ∧ call_rule c = mission_entry_rule mission
        ∧ ∃ c', c' ∈ calls ∧ call_site c' = LayoutCall campaign_idx layout_idx
                ∧ call_answer c' = true
  end.

Definition is_mission_call (site : CallSite) : bool :=
  match site with
  | MissionCall _ _ _ => true
  | _ => false
  end.

(** The rule of a campaign and the rule of a layout are each called at
    most once. *)
Definition called_once (calls : list Call) : Prop :=
  ∀ i i' c c',
    calls !! i = Some c → calls !! i' = Some c' →
    call_site c = call_site c' → is_mission_call (call_site c) = false → i = i'.

(** How far the walk has come: the sites before layout [next] of
    campaign [campaign_idx] ([next = 0]: before the campaign itself). *)
Definition site_before (campaign_idx next : nat) (site : CallSite) : Prop :=
  match site with
  | CampaignCall k => (k < campaign_idx)%nat ∨ (k = campaign_idx ∧ 0 < next)%nat
  | LayoutCall k j | MissionCall k j _ =>
      (k < campaign_idx)%nat ∨ (k = campaign_idx ∧ S j < next)%nat
  end.

(** What holds of the walk and its calls at that point, [keys] being the
    number of campaigns entered. *)
Record walk_log_invariant (campaign_idx next keys : nat)
    (st : AvailableNodes) (calls : list Call) : Prop := {
  inv_evaluated : ∀ c, c ∈ calls → c = call (call_site c) (call_rule c) (call_passed c);
  inv_passed : passed_in_turn calls;
  inv_left : accessible_rules st = last_left calls;
  inv_missions : available_missions st = omap mission_of_call calls;
  inv_campaigns : available_campaigns st = omap campaign_of_call calls;
  inv_keys : ∀ k, is_Some (available_layouts st !! k) ↔ (k < keys)%nat;
  inv_layouts : ∀ k open_layouts,
    available_layouts st !! k = Some open_layouts →
    open_layouts = omap (layout_of_call k) calls;
  inv_in_place : ∀ c, c ∈ calls → call_in_place calls c;
  inv_once : called_once calls;
  inv_before : ∀ c, c ∈ calls → site_before campaign_idx next (call_site c)
}.
End WalkCalls.

Arguments CallSite : clear implicits.
Arguments Call : clear implicits.

(** Why a mission id is in [available_missions], by the calls: a slot
    that holds it, and the three calls on the rules of the slot, of its
    layout and of its campaign, each of which answered [True]. *)
Definition justified_by_calls {Rule : Type} (ctx : SC2Context Rule) (nodes : AvailableNodes)
    (calls : list (Call Rule)) (m : Z) : Prop :=
  ∃ campaign_idx layout_idx campaign layout mission c_mission c_layout c_campaign,
    slot_at ctx campaign_idx layout_idx campaign layout mission
    ∧ mission_id mission = m ∧ m ≠ -1
    ∧ (c_mission ∈ calls
       ∧ call_site c_mission = MissionCall campaign_idx layout_idx mission
       ∧ call_rule c_mission = mission_entry_rule mission
       ∧ call_answer c_mission = true)
    ∧ (c_layout ∈ calls
       ∧ call_site c_layout = LayoutCall campaign_idx layout_idx
       ∧ call_rule c_layout = layout_entry_rule layout
       ∧ call_answer c_layout = true)
    ∧ (c_campaign ∈ calls
       ∧ call_site c_campaign = CampaignCall campaign_idx
       ∧ call_rule c_campaign = campaign_entry_rule campaign
       ∧ call_answer c_campaign = true)
    ∧ campaign_idx ∈ available_campaigns nodes
    ∧ ∃ open_layouts, available_layouts nodes !! campaign_idx = Some open_layouts
                      ∧ layout_idx ∈ open_layouts.

(** The sample order with a layout that asks for mission 10 to be
    completed, in a session in which nothing is checked. *)
Definition closed_layout_order : list (CampaignSlotData nat) :=
  [ {| campaign_entry_rule := 0%nat;
       layouts :=
         [ {| layout_entry_rule := 3%nat;
              missions := [ [ {| mission_id := 10; mission_entry_rule := 2%nat |};
                              {| mission_id := 11; mission_entry_rule := 3%nat |} ] ] |} ] |} ].

Definition closed_layout_ctx : SC2Context nat :=
  {| custom_mission_order := closed_layout_order;
     mission_id_to_entry_rules := mission_id_to_entry_rules (sample_ctx ∅);
     mission_id_to_location_ids := mission_id_to_location_ids (sample_ctx ∅);
     checked_locations := ∅;
     items_received := [];
     slot_data_version := 4;
     minerals_per_item := 15;
     vespene_per_item := 15;
     starting_supply_per_item := 2;
     generic_upgrade_missions := 0;
     kerrigan_options := kerrigan_options (sample_ctx ∅) |}.

(** An evaluator that answers like the one of the specification and
    adds the rule that it is called on to the shared set, so that the set
    tells which rules were evaluated. *)
Definition recording_is_accessible (rules : gmap nat RuleData) (rule : nat)
    (beaten_missions : gset Z) (received_items : gmap Z Z)
    (entry_rules : gmap Z (MissionEntryRules nat))
    (accessible_rules : gset Z) (seen_rules : list Z) : bool * gset Z :=
  ((spec_is_accessible rules rule beaten_missions received_items entry_rules
      accessible_rules seen_rules).1,
   {[ Z.of_nat rule ]} ∪ accessible_rules).

(* ===================================================================== *)
(** * Properties *)
(* ===================================================================== *)

(** ** Location codec *)

Section LocationCodecFacts.
Variable K : LocationConstants.

(** The early ids stay below the later expansion's offset, as they do for
    [sample_constants] (1000 + 29 * 100 + 99 < 20000000). *)
Hypothesis early_ids_below_hots :
  SC2WOL_LOC_ID_OFFSET K + ALL_IN_id K * 100 + 99 < SC2HOTS_LOC_ID_OFFSET K.

Lemma offset_regimes_agree (m o : Z) :
  0 ≤ o ≤ 99 →
  location_offset_of_id K (get_location_id K m o) = get_location_offset K m.
Proof using early_ids_below_hots.
  intros Ho. unfold location_offset_of_id, get_location_id, get_location_offset, VICTORY_MODULO.
  destruct (Z.leb_spec m (ALL_IN_id K));
    destruct (Z.ltb_spec (SC2WOL_LOC_ID_OFFSET K + m * 100 + o) (SC2HOTS_LOC_ID_OFFSET K));
    destruct (Z.ltb_spec (SC2HOTS_LOC_ID_OFFSET K - ALL_IN_id K * 100 + m * 100 + o)
                         (SC2HOTS_LOC_ID_OFFSET K)); lia.
Qed.

Lemma decode_encode (m o : Z) :
  0 ≤ o ≤ 99 →
  location_to_mission_objective K (get_location_id K m o) = (m, o).
Proof using early_ids_below_hots.
  intros Ho. unfold location_to_mission_objective.
  rewrite offset_regimes_agree by done.
  unfold get_location_id, VICTORY_MODULO.
  replace (get_location_offset K m + m * 100 + o - get_location_offset K m)
    with (o + m * 100) by lia.
  rewrite Z.div_add, Z.mod_add by lia.
  rewrite Z.div_small, Z.mod_small by lia. f_equal; lia.
Qed.

(** C1. The codec is a bijection over the valid pairs: decoding an
    encoded pair gives the pair back, whichever offset regime the mission
    is in; every id that the encoder produces is encoded again from its
    decoding; and for an early mission 5, [encode(5,0) = O + 500] and
    [decode(O + 507) = (5,7)]. *)
Theorem C1_codec_round_trip :
  (∀ m o, 0 ≤ o ≤ 99 → location_to_mission_objective K (get_location_id K m o) = (m, o))
  ∧ (∀ id, (∃ m o, 0 ≤ o ≤ 99 ∧ id = get_location_id K m o) →
       get_location_id K (location_to_mission_objective K id).1
                         (location_to_mission_objective K id).2 = id)
  ∧ (5 ≤ ALL_IN_id K →
       get_location_id K 5 0 = SC2WOL_LOC_ID_OFFSET K + 500
       ∧ location_to_mission_objective K (SC2WOL_LOC_ID_OFFSET K + 507) = (5, 7)).
Proof using early_ids_below_hots.
  split; [exact decode_encode|]. split.
  - intros id (m & o & Ho & ->). by rewrite decode_encode.
  - intros H5. split.
    + unfold get_location_id, get_location_offset, VICTORY_MODULO.
      destruct (Z.leb_spec 5 (ALL_IN_id K)); lia.
    + replace (SC2WOL_LOC_ID_OFFSET K + 507) with (get_location_id K 5 7).
      * apply decode_encode; lia.
      * unfold get_location_id, get_location_offset, VICTORY_MODULO.
        destruct (Z.leb_spec 5 (ALL_IN_id K)); lia.
Qed.
End LocationCodecFacts.

Lemma C1_codec_round_trip_witness :
  location_to_mission_objective sample_constants (get_location_id sample_constants 30 99) = (30, 99)
  ∧ get_location_id sample_constants 5 0 = 1500
  ∧ location_to_mission_objective sample_constants 1507 = (5, 7).
Proof.
  assert (Hk : SC2WOL_LOC_ID_OFFSET sample_constants + ALL_IN_id sample_constants * 100 + 99
               < SC2HOTS_LOC_ID_OFFSET sample_constants) by (simpl; lia).
  destruct (C1_codec_round_trip sample_constants Hk) as (Hde & _ & Hsc).
  split; [apply Hde; lia|].
  apply Hsc. simpl. lia.
Defined.



(** C3 as stated fails: the optional cap bounds the levels gained from
    missions only, not the sum with the item levels. *)
Lemma C3_cap_on_sum_counterexample :
  let ctx := {| kerrigan_levels_per_mission_completed := 1;
                kerrigan_levels_per_mission_completed_cap := 2;
                kerrigan_total_level_cap := -1 |} in
  let items := {| acc_any := []; acc_terran := []; acc_zerg := [5]; acc_protoss := [] |} in
  acc_word items ZERG 0 = Some 5
  ∧ get_kerrigan_level 0 ctx items 1 = Some 6
  ∧ spec_blended_level ctx 5 1 = 2
  ∧ get_kerrigan_level 0 ctx items 1 ≠ Some (spec_blended_level ctx 5 1).
Proof. split_and!; try reflexivity. vm_compute. discriminate. Qed.

(** C3 (amended). The level is the item value plus the mission value,
    where the mission value [missions_beaten * levels_per_mission] alone is
    bounded by [kerrigan_levels_per_mission_completed_cap], and the sum is
    then bounded by [kerrigan_total_level_cap]; a cap of -1 bounds nothing. *)
Theorem C3_kerrigan_level (level_word : Z) (ctx : KerriganOptions)
    (items : Accumulators) (missions_beaten : Z) :
  get_kerrigan_level level_word ctx items missions_beaten =
  (λ item_value,
     cap_with (kerrigan_total_level_cap ctx)
       (item_value
        + cap_with (kerrigan_levels_per_mission_completed_cap ctx)
            (missions_beaten * kerrigan_levels_per_mission_completed ctx)))
  <$> acc_word items ZERG level_word.
Proof.
  unfold get_kerrigan_level, cap_with.
  destruct (acc_word items ZERG level_word); reflexivity.
Qed.

(** ** The walk over the mission order *)

Lemma foldl_invariant {A B} (P : A → Prop) (f : A → B → A) (l : list B) (a : A) :
  P a → (∀ a x, x ∈ l → P a → P (f a x)) → P (foldl f a l).
Proof.
  revert a. induction l as [|x l IH]; intros a Ha Hstep; simpl; [done|].
  apply IH.
  - apply Hstep; [left | done].
  - intros a' y Hy. apply Hstep. by right.
Qed.

Lemma enumerate_snoc {A} (l : list A) (x : A) :
  enumerate (l ++ [x]) = enumerate l ++ [(length l, x)].
Proof. unfold enumerate. rewrite imap_app. simpl. by rewrite Nat.add_0_r. Qed.

Lemma elem_of_enumerate {A} (l : list A) (i : nat) (x : A) :
  (i, x) ∈ enumerate l ↔ l !! i = Some x.
Proof.
  unfold enumerate. rewrite elem_of_lookup_imap. split.
  - intros (j & y & Heq & Hl). by simplify_eq.
  - intros Hl. eauto.
Qed.

Section WalkFacts.
Context {Rule : Type}.
Variable K : LocationConstants.
Variable is_accessible :
  Rule → gset Z → gmap Z Z → gmap Z (MissionEntryRules Rule) → gset Z → list Z → bool * gset Z.
Variable ctx : SC2Context Rule.

Local Abbreviation visit_mission := (visit_mission K is_accessible ctx).
Local Abbreviation visit_column := (visit_column K is_accessible ctx).
Local Abbreviation visit_layout := (visit_layout K is_accessible ctx).
Local Abbreviation visit_campaign := (visit_campaign K is_accessible ctx).
Local Abbreviation accessible_now := (accessible_now K is_accessible ctx).
Local Abbreviation justified := (justified K is_accessible ctx).
Local Abbreviation walk_invariant := (walk_invariant K is_accessible ctx).

(** What one slot adds. *)
Lemma visit_mission_spec st mission :
  let st' := visit_mission st mission in
  available_layouts st' = available_layouts st
  ∧ available_campaigns st' = available_campaigns st
  ∧ (∀ m, m ∈ available_missions st' →
       m ∈ available_missions st
       ∨ (m = mission_id mission ∧ m ≠ -1 ∧ accessible_now (mission_entry_rule mission)))
  ∧ (∀ m, m ∈ available_missions st → m ∈ available_missions st').
Proof.
  unfold visit_mission. case_bool_decide as Hid; simpl; [naive_solver|].
  destruct (evaluate _ _ _ _ _) as [ok cache] eqn:Hev; simpl.
  split_and!; try done; destruct ok; intros m Hm; try set_solver.
  apply elem_of_app in Hm as [Hm | Hm]; [by left | right].
  apply list_elem_of_singleton in Hm as ->.
  split_and!; [done | done |]. exists (accessible_rules st). by rewrite Hev.
Qed.

Lemma visit_column_spec column st :
  let st' := visit_column st column in
  available_layouts st' = available_layouts st
  ∧ available_campaigns st' = available_campaigns st
  ∧ (∀ m, m ∈ available_missions st' →
       m ∈ available_missions st
       ∨ ∃ mission, mission ∈ column ∧ m = mission_id mission ∧ m ≠ -1
                    ∧ accessible_now (mission_entry_rule mission))
  ∧ (∀ m, m ∈ available_missions st → m ∈ available_missions st').
Proof.
  unfold visit_column. revert st.
  induction column as [|mission column IH]; intros st; simpl; [naive_solver|].
  destruct (visit_mission_spec st mission) as (Hl & Hc & Hnew & Hold).
  destruct (IH (visit_mission st mission)) as (Hl' & Hc' & Hnew' & Hold').
  split_and!; [congruence | congruence | | by auto].
  intros m Hm. destruct (Hnew' m Hm) as [Hm' | (ms & Hin & Hrest)].
  - destruct (Hnew m Hm') as [? | Hrest]; [by left | right].
    exists mission. split; [left | done].
  - right. exists ms. split; [by right | done].
Qed.

(** All the columns of one layout. *)
Lemma visit_columns_spec columns st :
  let st' := foldl visit_column st columns in
  available_layouts st' = available_layouts st
  ∧ available_campaigns st' = available_campaigns st
  ∧ (∀ m, m ∈ available_missions st' →
       m ∈ available_missions st
       ∨ ∃ column mission, column ∈ columns ∧ mission ∈ column
                           ∧ m = mission_id mission ∧ m ≠ -1
                           ∧ accessible_now (mission_entry_rule mission))
  ∧ (∀ m, m ∈ available_missions st → m ∈ available_missions st').
Proof.
  revert st. induction columns as [|column columns IH]; intros st; simpl; [naive_solver|].
  destruct (visit_column_spec column st) as (Hl & Hc & Hnew & Hold).
  destruct (IH (visit_column st column)) as (Hl' & Hc' & Hnew' & Hold').
  split_and!; [congruence | congruence | | by auto].
  intros m Hm. destruct (Hnew' m Hm) as [Hm' | (col & ms & Hcol & Hrest)].
  - destruct (Hnew m Hm') as [? | (ms & Hin & Hrest)]; [by left | right].
    exists column, ms. split; [left | done].
  - right. exists col, ms. split; [by right | done].
Qed.

(** One layout: either it stays closed and nothing but the shared set
    changes, or its index is appended under the campaign and its columns
    are walked. *)
Lemma visit_layout_spec campaign_idx st layout_idx layout :
  let st' := visit_layout campaign_idx st (layout_idx, layout) in
  available_campaigns st' = available_campaigns st
  ∧ (∀ m, m ∈ available_missions st → m ∈ available_missions st')
  ∧ ((available_layouts st' = available_layouts st
      ∧ available_missions st' = available_missions st)
     ∨ (accessible_now (layout_entry_rule layout)
        ∧ available_layouts st' =
            alter (λ l, l ++ [layout_idx]) campaign_idx (available_layouts st)
        ∧ ∀ m, m ∈ available_missions st' →
            m ∈ available_missions st
            ∨ ∃ column mission, column ∈ missions layout ∧ mission ∈ column
                                ∧ m = mission_id mission ∧ m ≠ -1
                                ∧ accessible_now (mission_entry_rule mission))).
Proof.
  unfold visit_layout. simpl.
  destruct (evaluate _ _ _ _ _) as [ok cache] eqn:Hev; simpl.
  destruct ok; simpl; [|naive_solver].
  match goal with |- context [foldl _ ?s _] => set (st0 := s) end.
  destruct (visit_columns_spec (missions layout) st0) as (Hl & Hc & Hnew & Hold).
  split_and!; [done | by auto |]. right.
  split_and!; [|done|done].
  exists (accessible_rules st). by rewrite Hev.
Qed.

Lemma alter_present {A} (f : A → A) (m : gmap nat A) (k : nat) (x : A) :
  m !! k = Some x → alter f k m = <[k := f x]> m.
Proof.
  intros Hk. apply map_eq. intros j.
  destruct (decide (k = j)) as [->|Hne].
  - by rewrite lookup_alter_eq, lookup_insert_eq, Hk.
  - by rewrite lookup_alter_ne, lookup_insert_ne.
Qed.

(** The layouts of one campaign, given as (index, layout) entries. *)
Lemma visit_layouts_spec campaign_idx entries st ls0 :
  available_layouts st !! campaign_idx = Some ls0 →
  let st' := foldl (visit_layout campaign_idx) st entries in
  available_campaigns st' = available_campaigns st
  ∧ (∀ m, m ∈ available_missions st → m ∈ available_missions st')
  ∧ ∃ opened,
      available_layouts st' = <[campaign_idx := ls0 ++ opened]> (available_layouts st)
      ∧ (∀ layout_idx, layout_idx ∈ opened →
           ∃ layout, (layout_idx, layout) ∈ entries
                     ∧ accessible_now (layout_entry_rule layout))
      ∧ (∀ m, m ∈ available_missions st' →
           m ∈ available_missions st
           ∨ ∃ layout_idx layout column mission,
               (layout_idx, layout) ∈ entries ∧ layout_idx ∈ opened
               ∧ accessible_now (layout_entry_rule layout)
               ∧ column ∈ missions layout ∧ mission ∈ column
               ∧ m = mission_id mission ∧ m ≠ -1
               ∧ accessible_now (mission_entry_rule mission)).
Proof.
  revert st ls0. induction entries as [|[layout_idx layout] entries IH];
    intros st ls0 Hls0; simpl.
  { split_and!; try done. exists []. rewrite app_nil_r, insert_id by done.
    split_and!; [done | set_solver | by left]. }
  destruct (visit_layout_spec campaign_idx st layout_idx layout)
    as (Hc & Hold & [(Hl & Hm) | (Hacc & Hl & Hnew)]).
  - destruct (IH (visit_layout campaign_idx st (layout_idx, layout)) ls0)
      as (Hc' & Hold' & opened & Hl' & Hop & Hnew'); [by rewrite Hl|].
    split_and!; [congruence | by auto |].
    exists opened. rewrite Hl', Hl. split_and!; [done | |].
    + intros i Hi. destruct (Hop i Hi) as (ly & Hin & Ha).
      exists ly. split; [by right | done].
    + intros m Hmm. destruct (Hnew' m Hmm) as [Hin | (i & ly & col & ms & Hin & Hrest)].
      * left. by rewrite <- Hm.
      * right. exists i, ly, col, ms. split; [by right | done].
  - rewrite (alter_present _ _ _ _ Hls0) in Hl.
    destruct (IH (visit_layout campaign_idx st (layout_idx, layout)) (ls0 ++ [layout_idx]))
      as (Hc' & Hold' & opened & Hl' & Hop & Hnew');
      [by rewrite Hl, lookup_insert_eq|].
    split_and!; [congruence | by auto |].
    exists (layout_idx :: opened).
    rewrite Hl', Hl, insert_insert_eq, <- app_assoc. split_and!; [done | |].
    + intros i Hi. apply elem_of_cons in Hi as [-> | Hi].
      * exists layout. split; [left | done].
      * destruct (Hop i Hi) as (ly & Hin & Ha). exists ly. split; [by right | done].
    + intros m Hmm. destruct (Hnew' m Hmm) as [Hin | (i & ly & col & ms & Hin & Hi & Hrest)].
      * destruct (Hnew m Hin) as [? | (col & ms & Hcol & Hms & Hid & Hne & Hma)];
          [by left | right].
        exists layout_idx, layout, col, ms. split_and!; try done; left.
      * destruct Hrest as (Hly & Hcol & Hms & Hid & Hne & Hma).
        right. exists i, ly, col, ms. split_and!; try done; by right.
Qed.

Lemma justified_mono st st' m :
  justified st m →
  (∀ k, k ∈ available_campaigns st → k ∈ available_campaigns st') →
  (∀ k ls, available_layouts st !! k = Some ls →
     ∃ ls', available_layouts st' !! k = Some ls' ∧ ∀ i, i ∈ ls → i ∈ ls') →
  justified st' m.
Proof.
  intros (ci & li & cp & ly & ms & Hslot & Hid & Hne & Hm & Hl & Hc & Hci & ls & Hls & Hli) Hcs Hlay.
  destruct (Hlay ci ls Hls) as (ls' & Hls' & Hsub).
  exists ci, li, cp, ly, ms. split_and!; try done; [by auto|].
  exists ls'. split; [done | by auto].
Qed.

(** One campaign keeps the invariant. *)
Lemma visit_campaign_invariant n st campaign :
  custom_mission_order ctx !! n = Some campaign →
  walk_invariant n st →
  walk_invariant (S n) (visit_campaign st (n, campaign)).
Proof.
  intros Hn (I1 & I2 & I3 & I4).
  assert (Hfresh : available_layouts st !! n = None).
  { destruct (available_layouts st !! n) eqn:E; [|done].
    assert (n < n)%nat by (apply I1; eauto). lia. }
  unfold visit_campaign. simpl.
  destruct (evaluate _ _ _ _ _) as [ok cache] eqn:Hev; simpl.
  destruct ok; simpl.
  - match goal with |- context [foldl _ ?s _] => set (st0 := s) end.
    destruct (visit_layouts_spec n (enumerate (layouts campaign)) st0 [])
      as (Hc & Hold & opened & Hl & Hop & Hnew); [apply lookup_insert_eq|].
    simpl in Hl, Hc, Hold, Hnew. rewrite insert_insert_eq in Hl.
    assert (Hacc : accessible_now (campaign_entry_rule campaign)).
    { exists (accessible_rules st). by rewrite Hev. }
    split_and!.
    + intros k. rewrite Hl. destruct (decide (n = k)) as [->|Hne].
      * rewrite lookup_insert_eq. split; [lia | eauto].
      * rewrite lookup_insert_ne, I1 by done. lia.
    + intros k ls i Hk Hi. rewrite Hl in Hk. rewrite Hc.
      destruct (decide (n = k)) as [->|Hne].
      * rewrite lookup_insert_eq in Hk. simplify_eq.
        split; [set_solver|].
        destruct (Hop _ Hi) as (ly & Hin & Ha).
        apply elem_of_enumerate in Hin. eauto.
      * rewrite lookup_insert_ne in Hk by done.
        destruct (I2 _ _ _ Hk Hi) as [? ?]. split; [set_solver | done].
    + intros k Hk. rewrite Hc in Hk. apply elem_of_app in Hk as [Hk | Hk]; [by auto|].
      apply list_elem_of_singleton in Hk as ->. eauto.
    + intros m Hm.
      destruct (Hnew m Hm)
        as [Hin | (i & ly & col & ms & Hin & Hi & Hly & Hcol & Hms & Hid & Hne & Hma)].
      * apply (justified_mono st); [by auto | rewrite Hc; set_solver |].
        intros k ls Hk. rewrite Hl. exists ls. split; [|done].
        rewrite lookup_insert_ne; [done | congruence].
      * apply elem_of_enumerate in Hin.
        exists n, i, campaign, ly, ms. split_and!; try done.
        -- split_and!; [done | done | by exists col].
        -- rewrite Hc. set_solver.
        -- exists opened. by rewrite Hl, lookup_insert_eq.
  - split_and!; simpl.
    + intros k. destruct (decide (n = k)) as [->|Hne].
      * rewrite lookup_insert_eq. split; [lia | eauto].
      * rewrite lookup_insert_ne, I1 by done. lia.
    + intros k ls i Hk Hi. destruct (decide (n = k)) as [->|Hne].
      * rewrite lookup_insert_eq in Hk. simplify_eq. set_solver.
      * rewrite lookup_insert_ne in Hk by done. exact (I2 _ _ _ Hk Hi).
    + done.
    + intros m Hm. apply (justified_mono st); [by auto | done |].
      intros k ls Hk. exists ls. split; [|done].
      simpl. rewrite lookup_insert_ne; [done | congruence].
Qed.

(** The invariant holds after every prefix of the campaigns, so at the
    end of the walk. *)
Lemma walk_prefix_invariant (done_campaigns rest : list (CampaignSlotData Rule)) :
  custom_mission_order ctx = done_campaigns ++ rest →
  walk_invariant (length done_campaigns)
    (foldl visit_campaign
       {| available_missions := []; available_layouts := ∅;
          available_campaigns := []; accessible_rules := ∅ |}
       (enumerate done_campaigns)).
Proof.
  revert rest. induction done_campaigns as [|campaign done_campaigns IH] using rev_ind;
    intros rest Horder.
  - simpl. split_and!; simpl; try set_solver.
    intros k. rewrite lookup_empty. split; [by intros [? ?] | lia].
  - rewrite enumerate_snoc, foldl_snoc, length_app. simpl.
    rewrite Nat.add_1_r. apply visit_campaign_invariant.
    + rewrite Horder, <- app_assoc. simpl.
      by rewrite lookup_app_r, Nat.sub_diag by lia.
    + apply (IH ([campaign] ++ rest)). by rewrite Horder, <- app_assoc.
Qed.

Lemma calc_available_nodes_invariant :
  walk_invariant (length (custom_mission_order ctx))
    (calc_available_nodes K is_accessible ctx).
Proof. apply (walk_prefix_invariant _ []). by rewrite app_nil_r. Qed.

Local Abbreviation nodes := (calc_available_nodes K is_accessible ctx).

(** C10. The returned [available_layouts] has a key for every campaign
    index of the mission order; a campaign that is not available, and so
    every campaign whose entry rule is not accessible, maps to the empty
    list; a layout index is listed under a campaign only if that campaign
    is in [available_campaigns]. *)
Theorem C10_layouts_key_per_campaign (campaign_idx : nat) :
  (campaign_idx < length (custom_mission_order ctx))%nat →
  ∃ open_layouts campaign,
    available_layouts nodes !! campaign_idx = Some open_layouts
    ∧ custom_mission_order ctx !! campaign_idx = Some campaign
    ∧ (∀ layout_idx, layout_idx ∈ open_layouts →
         campaign_idx ∈ available_campaigns nodes)
    ∧ (campaign_idx ∉ available_campaigns nodes → open_layouts = [])
    ∧ (¬ (accessible_now (campaign_entry_rule campaign)) →
         (campaign_idx ∉ available_campaigns nodes) ∧ open_layouts = []).
Proof.
  intros Hlt. destruct calc_available_nodes_invariant as (I1 & I2 & I3 & _).
  destruct (proj2 (I1 campaign_idx) Hlt) as [open_layouts Hopen].
  destruct (lookup_lt_is_Some_2 _ _ Hlt) as [campaign Hcampaign].
  assert (Hin : ∀ i, i ∈ open_layouts → campaign_idx ∈ available_campaigns nodes).
  { intros i Hi. by destruct (I2 _ _ _ Hopen Hi). }
  assert (Hempty : campaign_idx ∉ available_campaigns nodes → open_layouts = []).
  { intros Hnot. destruct open_layouts as [|i rest]; [done|].
    destruct Hnot. apply (Hin i). left. }
  exists open_layouts, campaign. split_and!; try done.
  intros Hclosed.
  assert (Hnot : campaign_idx ∉ available_campaigns nodes).
  { intros Hav. destruct (I3 _ Hav) as (campaign' & Hc' & Hacc).
    apply Hclosed. congruence. }
  auto.
Qed.

(** More completed objectives than objectives is impossible, so the
    comparison of the two sizes finds an objective that is not checked. *)
Lemma fewer_completed_iff (checked objectives : gset Z) :
  (size (checked ∩ objectives) < size objectives)%nat
  ↔ ∃ loc, loc ∈ objectives ∧ loc ∉ checked.
Proof.
  split.
  - intros Hlt.
    assert (Hpos : (0 < size (objectives ∖ checked))%nat).
    { rewrite size_difference_alt.
      replace (objectives ∩ checked) with (checked ∩ objectives) by set_solver. lia. }
    apply size_pos_elem_of in Hpos as [loc Hloc]. exists loc. set_solver.
  - intros (loc & Hin & Hnot). apply subset_size. set_solver.
Qed.

Lemma mark_unfinished_spec unfinished mission objectives :
  mission_id_to_location_ids ctx !! mission = Some objectives →
  ∃ unfinished',
    mark_unfinished K ctx unfinished mission = Some unfinished'
    ∧ ∀ m, m ∈ unfinished' ↔
           m ∈ unfinished
           ∨ (m = mission
              ∧ ∃ locations loc, locations_for_mission_id K ctx m = Some locations
                                 ∧ loc ∈ locations ∧ loc ∉ checked_locations ctx).
Proof.
  intros Hobj. unfold mark_unfinished.
  assert (Hlocs : locations_for_mission_id K ctx mission
                  = Some (map (get_location_id K mission) objectives)).
  { unfold locations_for_mission_id. by rewrite Hobj. }
  rewrite Hlocs. simpl.
  set (locations := map (get_location_id K mission) objectives) in *.
  assert (Hspec : (size (checked_locations ctx ∩ list_to_set locations)
                   < size (list_to_set (C:=gset Z) locations))%nat
                  ↔ ∃ loc, loc ∈ locations ∧ loc ∉ checked_locations ctx).
  { rewrite fewer_completed_iff. set_solver. }
  case_bool_decide as Hne; [case_bool_decide as Hlt|]; eexists; (split; [done|]); intros m.
  - rewrite elem_of_union, elem_of_singleton. split.
    + intros [-> | ?]; [right | by left].
      apply Hspec in Hlt as (loc & ? & ?). split; [done|]. by exists locations, loc.
    + intros [? | [-> _]]; auto.
  - split; [by left|]. intros [? | [-> (locs & loc & Heq & Hin & Hnot)]]; [done|].
    destruct Hlt. apply Hspec. exists loc. by simplify_eq.
  - split; [by left|]. intros [? | [-> (locs & loc & Heq & Hin & Hnot)]]; [done|].
    simplify_eq. set_solver.
Qed.

Lemma mark_all_unfinished_spec available unfinished :
  (∀ m, m ∈ available → is_Some (mission_id_to_location_ids ctx !! m)) →
  ∃ unfinished',
    mark_all_unfinished K ctx unfinished available = Some unfinished'
    ∧ ∀ m, m ∈ unfinished' ↔
           m ∈ unfinished
           ∨ (m ∈ available
              ∧ ∃ locations loc, locations_for_mission_id K ctx m = Some locations
                                 ∧ loc ∈ locations ∧ loc ∉ checked_locations ctx).
Proof.
  revert unfinished. induction available as [|mission rest IH]; intros unfinished Hkeys; simpl.
  - exists unfinished. split; [done|]. intros m. split; [by left|].
    intros [? | [Hin _]]; [done | by apply elem_of_nil in Hin].
  - destruct (Hkeys mission) as [objectives Hobj]; [left|].
    destruct (mark_unfinished_spec unfinished mission objectives Hobj) as (u1 & Hu1 & Hm1).
    rewrite Hu1. simpl.
    destruct (IH u1) as (u2 & Hu2 & Hm2); [intros m Hm; apply Hkeys; by right|].
    exists u2. split; [done|]. intros m. rewrite Hm2, Hm1, elem_of_cons. naive_solver.
Qed.

(** C9. [calc_unfinished_nodes] returns the available nodes of the same
    snapshot, and a mission id is in its set of unfinished missions if and
    only if it is among the available missions and one of the locations of
    its objectives is not in the checked locations. (Every available
    mission has its entry in [mission_id_to_location_ids], which
    [build_location_to_mission_mapping] creates for each slot.) *)
Theorem C9_unfinished_missions :
  (∀ m, m ∈ available_missions nodes → is_Some (mission_id_to_location_ids ctx !! m)) →
  ∃ unfinished_missions,
    calc_unfinished_nodes K is_accessible ctx = Some (nodes, unfinished_missions)
    ∧ ∀ m, m ∈ unfinished_missions ↔
           m ∈ available_missions nodes
           ∧ ∃ locations loc, locations_for_mission_id K ctx m = Some locations
                              ∧ loc ∈ locations ∧ loc ∉ checked_locations ctx.
Proof.
  intros Hkeys. unfold calc_unfinished_nodes.
  destruct (mark_all_unfinished_spec (available_missions nodes) ∅ Hkeys) as (u & Hu & Hm).
  exists u. rewrite Hu. split; [done|].
  intros m. rewrite Hm. set_solver.
Qed.
End WalkFacts.

(** ** The calls of the walk *)

Lemma foldl_fst {A A' B} (f : A → B → A) (f' : A * A' → B → A * A') (l : list B) :
  (∀ st x, (f' st x).1 = f st.1 x) →
  ∀ st, (foldl f' st l).1 = foldl f st.1 l.
Proof.
  intros Hstep. induction l as [|x l IH]; intros st; simpl; [done|].
  by rewrite IH, Hstep.
Qed.

Lemma omap_snoc {A B} (f : A → option B) (l : list A) (x : A) :
  omap f (l ++ [x]) = omap f l ++ match f x with Some y => [y] | None => [] end.
Proof. rewrite omap_app. simpl. by destruct (f x). Qed.

Section WalkCallsFacts.
Context {Rule : Type}.
Variable K : LocationConstants.
Variable is_accessible :
  Rule → gset Z → gmap Z Z → gmap Z (MissionEntryRules Rule) → gset Z → list Z → bool * gset Z.
Variable ctx : SC2Context Rule.

Local Abbreviation call_at := (call K is_accessible ctx).
Local Abbreviation visit_mission' := (visit_mission_logged K is_accessible ctx).
Local Abbreviation visit_column' := (visit_column_logged K is_accessible ctx).
Local Abbreviation visit_layout' := (visit_layout_logged K is_accessible ctx).
Local Abbreviation visit_campaign' := (visit_campaign_logged K is_accessible ctx).
Local Abbreviation in_place := (call_in_place ctx).
Local Abbreviation invariant := (walk_log_invariant K is_accessible ctx).

(** Without the list of calls the walk is [calc_available_nodes]. *)
Lemma visit_mission_logged_fst campaign_idx layout_idx st mission :
  (visit_mission' campaign_idx layout_idx st mission).1
  = visit_mission K is_accessible ctx st.1 mission.
Proof.
  unfold visit_mission_logged, visit_mission. by case_bool_decide.
Qed.

Lemma visit_column_logged_fst campaign_idx layout_idx st column :
  (visit_column' campaign_idx layout_idx st column).1
  = visit_column K is_accessible ctx st.1 column.
Proof. apply foldl_fst. intros. apply visit_mission_logged_fst. Qed.

Lemma visit_layout_logged_fst campaign_idx st entry :
  (visit_layout' campaign_idx st entry).1
  = visit_layout K is_accessible ctx campaign_idx st.1 entry.
Proof.
  unfold visit_layout_logged, visit_layout.
  destruct (evaluate _ _ _ _ _).1; [|done].
  apply (foldl_fst (visit_column K is_accessible ctx)). intros.
  apply visit_column_logged_fst.
Qed.

Lemma visit_campaign_logged_fst st entry :
  (visit_campaign' st entry).1 = visit_campaign K is_accessible ctx st.1 entry.
Proof.
  unfold visit_campaign_logged, visit_campaign.
  destruct (evaluate _ _ _ _ _).1; [|done].
  apply (foldl_fst (visit_layout K is_accessible ctx _)). intros.
  apply visit_layout_logged_fst.
Qed.

Lemma calc_available_nodes_logged_fst :
  (calc_available_nodes_logged K is_accessible ctx).1
  = calc_available_nodes K is_accessible ctx.
Proof.
  apply (foldl_fst (visit_campaign K is_accessible ctx)). intros.
  apply visit_campaign_logged_fst.
Qed.

(** *** One more call *)

Lemma last_left_snoc (calls : list (Call Rule)) c :
  last_left (calls ++ [c]) = call_left c.
Proof. unfold last_left. by rewrite last_snoc. Qed.

Lemma passed_in_turn_snoc (calls : list (Call Rule)) c :
  passed_in_turn calls → call_passed c = last_left calls →
  passed_in_turn (calls ++ [c]).
Proof.
  intros Hturn Hpassed i c0 Hc0.
  destruct (decide (i < length calls)%nat) as [Hi|Hi].
  - rewrite lookup_app_l in Hc0 by done. rewrite (Hturn i c0 Hc0).
    destruct i as [|i']; [done|]. by rewrite lookup_app_l by lia.
  - assert (i = length calls) as ->.
    { apply lookup_lt_Some in Hc0. rewrite length_app in Hc0. simpl in Hc0. lia. }
    rewrite lookup_app_r, Nat.sub_diag in Hc0 by lia. injection Hc0 as <-.
    rewrite Hpassed. unfold last_left. rewrite last_lookup.
    destruct calls as [|c1 calls]; [done|]. simpl length. simpl Nat.pred.
    cbv iota beta. by rewrite (lookup_app_l (c1 :: calls)) by (simpl; lia).
Qed.

Lemma called_once_snoc (calls : list (Call Rule)) c :
  called_once calls →
  (is_mission_call (call_site c) = true
   ∨ ∀ c', c' ∈ calls → call_site c' ≠ call_site c) →
  called_once (calls ++ [c]).
Proof.
  intros Honce Hfresh i i' c1 c2 H1 H2 Hsite Hlevel.
  apply lookup_snoc_Some in H1 as [[Hi H1] | [-> <-]];
    apply lookup_snoc_Some in H2 as [[Hi' H2] | [-> <-]].
  - by apply (Honce i i' c1 c2).
  - destruct Hfresh as [Hmission | Hfresh]; [congruence|].
    destruct (Hfresh c1); [by eapply list_elem_of_lookup_2 | done].
  - destruct Hfresh as [Hmission | Hfresh]; [congruence|].
    destruct (Hfresh c2); [by eapply list_elem_of_lookup_2 | done].
  - done.
Qed.

Lemma call_in_place_mono (calls calls' : list (Call Rule)) c :
  in_place calls c → (∀ x, x ∈ calls → x ∈ calls') → in_place calls' c.
Proof.
  unfold call_in_place. intros H Hsub. destruct (call_site c); [done| |].
  - destruct H as (campaign & layout & ? & ? & ? & c' & ? & ? & ?).
    exists campaign, layout. split_and!; try done. exists c'. auto.
  - destruct H as (campaign & layout & ? & ? & ? & c' & ? & ? & ?).
    exists campaign, layout. split_and!; try done. exists c'. auto.
Qed.

Lemma site_before_fresh n next (calls : list (Call Rule)) site :
  (∀ c, c ∈ calls → site_before n next (call_site c)) →
  ¬ site_before n next site →
  ∀ c', c' ∈ calls → call_site c' ≠ site.
Proof. intros Hbefore Hnot c' Hc' Heq. apply Hnot. rewrite <- Heq. by apply Hbefore. Qed.

(** The walk makes the call [c] next and takes its variables to [st']. *)
Lemma invariant_one_more_call n next next' keys keys' st st' calls site rule :
  let c := call_at site rule (accessible_rules st) in
  invariant n next keys st calls →
  accessible_rules st' = call_left c →
  available_missions st'
  = available_missions st ++ match mission_of_call c with Some m => [m] | None => [] end →
  available_campaigns st'
  = available_campaigns st ++ match campaign_of_call c with Some k => [k] | None => [] end →
  (∀ k, is_Some (available_layouts st' !! k) ↔ (k < keys')%nat) →
  (∀ k open_layouts, available_layouts st' !! k = Some open_layouts →
     open_layouts = omap (layout_of_call k) (calls ++ [c])) →
  in_place (calls ++ [c]) c →
  (is_mission_call site = true ∨ ¬ site_before n next site) →
  site_before n next' site →
  (∀ site' : CallSite Rule, site_before n next site' → site_before n next' site') →
  invariant n next' keys' st' (calls ++ [c]).
Proof.
  intros c [] Hleft Hmissions Hcampaigns Hkeys Hlayouts Hplace Hfresh Hsite Hweaken.
  split.
  - intros c0 Hc0. apply elem_of_app in Hc0 as [Hc0 | Hc0]; [auto|].
    apply list_elem_of_singleton in Hc0 as ->. done.
  - apply passed_in_turn_snoc; [done|]. simpl. congruence.
  - by rewrite last_left_snoc.
  - rewrite omap_snoc. congruence.
  - rewrite omap_snoc. congruence.
  - done.
  - done.
  - intros c0 Hc0. apply elem_of_app in Hc0 as [Hc0 | Hc0].
    + apply (call_in_place_mono calls); [auto|]. intros x Hx. apply elem_of_app. by left.
    + by apply list_elem_of_singleton in Hc0 as ->.
  - apply called_once_snoc; [done|]. destruct Hfresh as [Hmission | Hfresh]; [by left|].
    right. by apply (site_before_fresh n next).
  - intros c0 Hc0. apply elem_of_app in Hc0 as [Hc0 | Hc0]; [auto|].
    by apply list_elem_of_singleton in Hc0 as ->.
Qed.

Lemma invariant_weaken n next n' next' keys st calls :
  invariant n next keys st calls →
  (∀ site : CallSite Rule, site_before n next site → site_before n' next' site) →
  invariant n' next' keys st calls.
Proof. intros [] Hweaken. split; auto. Qed.

(** *** The loops *)

Local Abbreviation campaign_open n calls :=
  (∃ c' : Call Rule, c' ∈ calls ∧ call_site c' = CampaignCall n ∧ call_answer c' = true).
Local Abbreviation layout_open n j calls :=
  (∃ c' : Call Rule, c' ∈ calls ∧ call_site c' = LayoutCall n j ∧ call_answer c' = true).
Local Abbreviation in_layout n j st :=
  (campaign_open n st.2 ∧ layout_open n j st.2 ∧ invariant n (S (S j)) (S n) st.1 st.2).
Local Abbreviation in_campaign n next st :=
  (campaign_open n st.2 ∧ invariant n next (S n) st.1 st.2).

Lemma visit_mission_logged_invariant n j campaign layout column mission st :
  custom_mission_order ctx !! n = Some campaign →
  layouts campaign !! j = Some layout →
  column ∈ missions layout → mission ∈ column →
  in_layout n j st → in_layout n j (visit_mission' n j st mission).
Proof.
  intros Hcampaign Hlayout Hcolumn Hmission (Hopen & Hlopen & Hinv).
  unfold visit_mission_logged. case_bool_decide as Hid; [done|].
  destruct st as [st calls]. simpl in *.
  destruct Hopen as (cc & Hcc & Hcsite & Hctrue).
  destruct Hlopen as (cl & Hcl & Hlsite & Hltrue).
  split_and!.
  - exists cc. split_and!; try done. apply elem_of_app. by left.
  - exists cl. split_and!; try done. apply elem_of_app. by left.
  - apply (invariant_one_more_call n (S (S j)) (S (S j)) (S n) (S n) st); try done.
    + simpl. unfold mission_of_call. simpl.
      by destruct (evaluate _ _ _ _ _).1; rewrite ?app_nil_r.
    + simpl. by rewrite app_nil_r.
    + apply Hinv.
    + intros k open_layouts Hk. rewrite omap_snoc. simpl. rewrite app_nil_r.
      by apply Hinv.
    + unfold call_in_place. simpl. exists campaign, layout. split_and!; try done.
      * split_and!; try done. by exists column.
      * exists cl. split_and!; try done. apply elem_of_app. by left.
    + by left.
    + simpl. right. lia.
Qed.

Lemma visit_column_logged_invariant n j campaign layout column st :
  custom_mission_order ctx !! n = Some campaign →
  layouts campaign !! j = Some layout →
  column ∈ missions layout →
  in_layout n j st → in_layout n j (visit_column' n j st column).
Proof.
  intros Hcampaign Hlayout Hcolumn Hst. unfold visit_column_logged.
  apply (foldl_invariant (λ st, in_layout n j st)); [done|].
  intros st' mission Hmission Hst'.
  by apply (visit_mission_logged_invariant n j campaign layout column).
Qed.

Lemma visit_layout_logged_invariant n j campaign layout st :
  custom_mission_order ctx !! n = Some campaign →
  layouts campaign !! j = Some layout →
  in_campaign n (S j) st → in_campaign n (S (S j)) (visit_layout' n st (j, layout)).
Proof.
  intros Hcampaign Hlayout (Hopen & Hinv).
  destruct st as [st calls]. simpl in *.
  destruct Hopen as (cc & Hcc & Hcsite & Hctrue).
  assert (Hopen' : campaign_open n
            (calls ++ [call_at (LayoutCall n j) (layout_entry_rule layout)
                               (accessible_rules st)])).
  { exists cc. split_and!; try done. apply elem_of_app. by left. }
  assert (Hplace : in_place
            (calls ++ [call_at (LayoutCall n j) (layout_entry_rule layout)
                               (accessible_rules st)])
            (call_at (LayoutCall n j) (layout_entry_rule layout) (accessible_rules st))).
  { unfold call_in_place. simpl. by exists campaign, layout. }
  assert (Hfresh : ¬ site_before n (S j) (LayoutCall (Rule:=Rule) n j)).
  { simpl. lia. }
  unfold visit_layout_logged. simpl.
  destruct (evaluate K is_accessible ctx (layout_entry_rule layout) (accessible_rules st)).1
    eqn:Hanswer.
  - assert (Hin : in_layout n j
             (foldl (visit_column' n j)
                ({| available_missions := available_missions st;
                    available_layouts :=
                      alter (λ l, l ++ [j]) n (available_layouts st);
                    available_campaigns := available_campaigns st;
                    accessible_rules :=
                      (evaluate K is_accessible ctx (layout_entry_rule layout)
                         (accessible_rules st)).2 |},
                 calls ++ [call_at (LayoutCall n j) (layout_entry_rule layout)
                                   (accessible_rules st)])
                (missions layout))).
    { apply (foldl_invariant (λ st, in_layout n j st)).
      - split_and!; [done | |].
        + eexists. split_and!; [apply elem_of_app; right; left | done | done].
        + simpl.
          apply (invariant_one_more_call n (S j) (S (S j)) (S n) (S n) st); try done.
          * simpl. unfold mission_of_call. simpl. by rewrite app_nil_r.
          * simpl. by rewrite app_nil_r.
          * intros k. simpl. rewrite lookup_alter_is_Some. apply Hinv.
          * intros k open_layouts. simpl. rewrite omap_snoc. unfold layout_of_call at 2.
            simpl. rewrite Hanswer, andb_true_r.
            destruct (decide (n = k)) as [<-|Hk].
            -- rewrite lookup_alter_eq, bool_decide_eq_true_2 by done.
               destruct (available_layouts st !! n) as [old|] eqn:Hold; simpl; [|done].
               intros [= <-]. f_equal. by apply Hinv.
            -- rewrite lookup_alter_ne, bool_decide_eq_false_2, app_nil_r by done.
               apply Hinv.
          * by right.
          * simpl. right. lia.
          * intros site. destruct site; simpl; lia.
      - intros st' column Hcolumn Hst'.
        by apply (visit_column_logged_invariant n j campaign layout). }
    by destruct Hin as (? & _ & ?).
  - split; [done|]. simpl.
    apply (invariant_one_more_call n (S j) (S (S j)) (S n) (S n) st); try done.
    + simpl. unfold mission_of_call. simpl. by rewrite app_nil_r.
    + simpl. by rewrite app_nil_r.
    + apply Hinv.
    + intros k open_layouts Hk. rewrite omap_snoc. unfold layout_of_call at 2. simpl.
      rewrite Hanswer, andb_false_r, app_nil_r. by apply Hinv.
    + by right.
    + simpl. right. lia.
    + intros site. destruct site; simpl; lia.
Qed.

Lemma visit_layouts_logged_invariant n campaign (done_layouts rest : list (LayoutSlotData Rule))
    st :
  custom_mission_order ctx !! n = Some campaign →
  layouts campaign = done_layouts ++ rest →
  in_campaign n 1 st →
  in_campaign n (S (length done_layouts))
    (foldl (visit_layout' n) st (enumerate done_layouts)).
Proof.
  intros Hcampaign. revert rest.
  induction done_layouts as [|layout done_layouts IH] using rev_ind; intros rest Hlayouts Hst.
  - done.
  - rewrite enumerate_snoc, foldl_snoc, length_app. simpl. rewrite Nat.add_1_r.
    apply (visit_layout_logged_invariant _ _ campaign).
    + done.
    + rewrite Hlayouts, <- app_assoc. simpl.
      by rewrite lookup_app_r, Nat.sub_diag by lia.
    + apply (IH ([layout] ++ rest)); [|done]. by rewrite Hlayouts, <- app_assoc.
Qed.

Lemma no_layout_before n (calls : list (Call Rule)) :
  (∀ c, c ∈ calls → site_before n 0 (call_site c)) →
  omap (layout_of_call n) calls = [].
Proof.
  induction calls as [|c calls IH]; intros Hbefore; [done|].
  change (c :: calls) with ([c] ++ calls). rewrite omap_app.
  rewrite IH by (intros c' Hc'; apply Hbefore; by right). rewrite app_nil_r.
  pose proof (Hbefore c ltac:(left)) as Hc. simpl. unfold layout_of_call.
  destruct (call_site c); simpl in *; try done.
  rewrite bool_decide_eq_false_2 by lia. done.
Qed.

Lemma visit_campaign_logged_invariant n campaign st :
  custom_mission_order ctx !! n = Some campaign →
  invariant n 0 n st.1 st.2 →
  invariant (S n) 0 (S n) (visit_campaign' st (n, campaign)).1
    (visit_campaign' st (n, campaign)).2.
Proof.
  intros Hcampaign Hinv. destruct st as [st calls]. simpl in *.
  assert (Hkeys : ∀ k, is_Some (<[n := []]> (available_layouts st) !! k) ↔ (k < S n)%nat).
  { intros k. rewrite lookup_insert_is_Some.
    rewrite (inv_keys _ _ _ _ _ _ _ _ Hinv k). lia. }
  assert (Hlayouts : ∀ k open_layouts,
            <[n := []]> (available_layouts st) !! k = Some open_layouts →
            open_layouts
            = omap (layout_of_call k)
                (calls ++ [call_at (CampaignCall n) (campaign_entry_rule campaign)
                                   (accessible_rules st)])).
  { intros k open_layouts. rewrite omap_snoc. simpl. rewrite app_nil_r.
    destruct (decide (n = k)) as [<-|Hk].
    - rewrite lookup_insert_eq. intros [= <-]. symmetry. apply no_layout_before.
      apply Hinv.
    - rewrite lookup_insert_ne by done. apply Hinv. }
  assert (Hplace : in_place
            (calls ++ [call_at (CampaignCall n) (campaign_entry_rule campaign)
                               (accessible_rules st)])
            (call_at (CampaignCall n) (campaign_entry_rule campaign) (accessible_rules st))).
  { unfold call_in_place. simpl. by exists campaign. }
  assert (Hfresh : ¬ site_before n 0 (CampaignCall (Rule:=Rule) n)).
  { simpl. lia. }
  unfold visit_campaign_logged. simpl.
  destruct (evaluate K is_accessible ctx (campaign_entry_rule campaign)
              (accessible_rules st)).1 eqn:Hanswer.
  - assert (Hin : in_campaign n (S (length (layouts campaign)))
             (foldl (visit_layout' n)
                ({| available_missions := available_missions st;
                    available_layouts := <[n := []]> (available_layouts st);
                    available_campaigns := available_campaigns st ++ [n];
                    accessible_rules :=
                      (evaluate K is_accessible ctx (campaign_entry_rule campaign)
                         (accessible_rules st)).2 |},
                 calls ++ [call_at (CampaignCall n) (campaign_entry_rule campaign)
                                   (accessible_rules st)])
                (enumerate (layouts campaign)))).
    { apply (visit_layouts_logged_invariant n campaign _ []);
        [done | by rewrite app_nil_r |].
      split.
      - eexists. split_and!; [apply elem_of_app; right; left | done | done].
      - simpl. apply (invariant_one_more_call n 0 1 n (S n) st); try done.
        + simpl. unfold mission_of_call. simpl. by rewrite app_nil_r.
        + simpl. unfold campaign_of_call. simpl. by rewrite Hanswer.
        + by right.
        + simpl. right. lia.
        + intros site. destruct site; simpl; lia. }
    destruct Hin as [_ Hin]. apply (invariant_weaken n (S (length (layouts campaign)))); [done|].
    intros site. destruct site; simpl; lia.
  - simpl. apply (invariant_weaken n 1).
    + apply (invariant_one_more_call n 0 1 n (S n) st); try done.
      * simpl. unfold mission_of_call. simpl. by rewrite app_nil_r.
      * simpl. unfold campaign_of_call. simpl. by rewrite Hanswer, app_nil_r.
      * by right.
      * simpl. right. lia.
      * intros site. destruct site; simpl; lia.
    + intros site. destruct site; simpl; lia.
Qed.

Lemma walk_prefix_log_invariant (done_campaigns rest : list (CampaignSlotData Rule)) :
  custom_mission_order ctx = done_campaigns ++ rest →
  let st := foldl visit_campaign'
              ({| available_missions := []; available_layouts := ∅;
                  available_campaigns := []; accessible_rules := ∅ |}, [])
              (enumerate done_campaigns) in
  invariant (length done_campaigns) 0 (length done_campaigns) st.1 st.2.
Proof.
  revert rest. induction done_campaigns as [|campaign done_campaigns IH] using rev_ind;
    intros rest Horder.
  - simpl. split; simpl; try done.
    + intros c Hc. by apply elem_of_nil in Hc.
    + intros k. rewrite lookup_empty. split; [by intros [? ?] | lia].
    + intros c Hc. by apply elem_of_nil in Hc.
    + intros c Hc. by apply elem_of_nil in Hc.
  - rewrite enumerate_snoc, foldl_snoc, length_app. simpl. rewrite Nat.add_1_r.
    apply visit_campaign_logged_invariant.
    + rewrite Horder, <- app_assoc. simpl.
      by rewrite lookup_app_r, Nat.sub_diag by lia.
    + apply (IH ([campaign] ++ rest)). by rewrite Horder, <- app_assoc.
Qed.

Lemma walk_log_invariant_holds :
  invariant (length (custom_mission_order ctx)) 0 (length (custom_mission_order ctx))
    (calc_available_nodes K is_accessible ctx) (walk_calls K is_accessible ctx).
Proof.
  rewrite <- calc_available_nodes_logged_fst.
  apply (walk_prefix_log_invariant _ []). by rewrite app_nil_r.
Qed.

Lemma called_once_same (calls : list (Call Rule)) c c' :
  called_once calls → c ∈ calls → c' ∈ calls →
  call_site c = call_site c' → is_mission_call (call_site c) = false → c = c'.
Proof.
  intros Honce Hc Hc' Hsite Hlevel.
  apply list_elem_of_lookup_1 in Hc as [i Hi]. apply list_elem_of_lookup_1 in Hc' as [i' Hi'].
  assert (i = i') as -> by (by eapply Honce). congruence.
Qed.

Local Abbreviation nodes := (calc_available_nodes K is_accessible ctx).
Local Abbreviation calls := (walk_calls K is_accessible ctx).

(** C7. The walk, written with the list of the calls of [is_accessible]
    that it makes, returns what [calc_available_nodes] returns. Every call
    is an evaluation against the one snapshot (the beaten missions and the
    item counts computed once from [ctx]) with an empty in-progress list
    and with the shared set as the call before it has left it. A call on
    the rule of a layout is made only after the call on the rule of its
    campaign has answered [True], and a call on the rule of a slot only
    after the call on the rule of its layout has; a campaign and a layout
    are each called at most once, so the layouts of a campaign whose rule
    answered [False] are never called and no slot of a layout whose rule
    answered [False] is. The three results are read off the calls that
    answered [True]; so a mission id is in the available missions only if
    some slot holds it for which the call on its own rule, the call on the
    rule of its layout and the call on the rule of its campaign all
    answered [True], the campaign being among the available campaigns and
    the layout among the available layouts of it. *)
Theorem C7_available_mission_levels :
  (calc_available_nodes_logged K is_accessible ctx).1 = nodes
  ∧ (∀ c, c ∈ calls →
       call_answer c
       = (is_accessible (call_rule c) (beaten_missions_of K ctx) (received_items_of ctx)
            (mission_id_to_entry_rules ctx) (call_passed c) []).1
       ∧ call_left c
         = (is_accessible (call_rule c) (beaten_missions_of K ctx) (received_items_of ctx)
              (mission_id_to_entry_rules ctx) (call_passed c) []).2)
  ∧ passed_in_turn calls
  ∧ accessible_rules nodes = last_left calls
  ∧ (∀ c, c ∈ calls → call_in_place ctx calls c)
  ∧ called_once calls
  ∧ (∀ c c', c ∈ calls → c' ∈ calls → call_answer c = false →
       match call_site c, call_site c' with
       | CampaignCall k, LayoutCall k' _ => k' ≠ k
       | CampaignCall k, MissionCall k' _ _ => k' ≠ k
       | LayoutCall k j, MissionCall k' j' _ => ¬ (k' = k ∧ j' = j)
       | _, _ => True
       end)
  ∧ available_missions nodes = omap mission_of_call calls
  ∧ available_campaigns nodes = omap campaign_of_call calls
  ∧ (∀ k, available_layouts nodes !! k
          = if decide (k < length (custom_mission_order ctx))%nat
            then Some (omap (layout_of_call k) calls) else None)
  ∧ ∀ m, m ∈ available_missions nodes →
      ∃ campaign_idx layout_idx campaign layout mission c_mission c_layout c_campaign,
        slot_at ctx campaign_idx layout_idx campaign layout mission
        ∧ mission_id mission = m ∧ m ≠ -1
        ∧ (c_mission ∈ calls
           ∧ call_site c_mission = MissionCall campaign_idx layout_idx mission
           ∧ call_rule c_mission = mission_entry_rule mission
           ∧ call_answer c_mission = true)
        ∧ (c_layout ∈ calls
           ∧ call_site c_layout = LayoutCall campaign_idx layout_idx
           ∧ call_rule c_layout = layout_entry_rule layout
           ∧ call_answer c_layout = true)
        ∧ (c_campaign ∈ calls
           ∧ call_site c_campaign = CampaignCall campaign_idx
           ∧ call_rule c_campaign = campaign_entry_rule campaign
           ∧ call_answer c_campaign = true)
        ∧ campaign_idx ∈ available_campaigns nodes
        ∧ ∃ open_layouts, available_layouts nodes !! campaign_idx = Some open_layouts
                          ∧ layout_idx ∈ open_layouts.
Proof.
  pose proof walk_log_invariant_holds as Hinv.
  pose proof (inv_in_place _ _ _ _ _ _ _ _ Hinv) as Hplace.
  pose proof (inv_once _ _ _ _ _ _ _ _ Hinv) as Honce.
  assert (Hlayouts : ∀ k, available_layouts nodes !! k
            = if decide (k < length (custom_mission_order ctx))%nat
              then Some (omap (layout_of_call k) calls) else None).
  { intros k. pose proof (inv_keys _ _ _ _ _ _ _ _ Hinv k) as Hkey.
    case_decide as Hk.
    - destruct (proj2 Hkey Hk) as [open_layouts Hopen]. rewrite Hopen. f_equal.
      by apply (inv_layouts _ _ _ _ _ _ _ _ Hinv).
    - destruct (available_layouts nodes !! k) eqn:Hopen; [|done].
      destruct Hk. apply Hkey. by eexists. }
  assert (Hup_layout : ∀ c k j, c ∈ calls → call_site c = LayoutCall k j →
            ∃ campaign layout c_campaign,
              custom_mission_order ctx !! k = Some campaign
              ∧ layouts campaign !! j = Some layout
              ∧ call_rule c = layout_entry_rule layout
              ∧ c_campaign ∈ calls ∧ call_site c_campaign = CampaignCall k
              ∧ call_rule c_campaign = campaign_entry_rule campaign
              ∧ call_answer c_campaign = true).
  { intros c k j Hc Hsite. pose proof (Hplace c Hc) as Hc_place.
    unfold call_in_place in Hc_place. rewrite Hsite in Hc_place.
    destruct Hc_place as (campaign & layout & Hcampaign & Hlayout & Hrule
                          & cc & Hcc & Hccsite & Hcctrue).
    pose proof (Hplace cc Hcc) as Hcc_place.
    unfold call_in_place in Hcc_place. rewrite Hccsite in Hcc_place.
    destruct Hcc_place as (campaign' & Hcampaign' & Hccrule).
    exists campaign, layout, cc. split_and!; try done. congruence. }
  assert (Hup_mission : ∀ c k j mission, c ∈ calls → call_site c = MissionCall k j mission →
            ∃ campaign layout c_layout,
              slot_at ctx k j campaign layout mission
              ∧ mission_id mission ≠ -1
              ∧ call_rule c = mission_entry_rule mission
              ∧ c_layout ∈ calls ∧ call_site c_layout = LayoutCall k j
              ∧ call_rule c_layout = layout_entry_rule layout
              ∧ call_answer c_layout = true).
  { intros c k j mission Hc Hsite. pose proof (Hplace c Hc) as Hc_place.
    unfold call_in_place in Hc_place. rewrite Hsite in Hc_place.
    destruct Hc_place as (campaign & layout & Hslot & Hid & Hrule
                          & cl & Hcl & Hclsite & Hcltrue).
    destruct (Hup_layout cl k j Hcl Hclsite)
      as (campaign' & layout' & _ & Hcampaign' & Hlayout' & Hclrule & _).
    exists campaign, layout, cl. split_and!; try done.
    destruct Hslot as (Hcampaign & Hlayout & _). congruence. }
  split_and!.
  - apply calc_available_nodes_logged_fst.
  - intros c Hc. pose proof (inv_evaluated _ _ _ _ _ _ _ _ Hinv c Hc) as Hcall.
    split; [exact (f_equal call_answer Hcall) | exact (f_equal call_left Hcall)].
  - apply Hinv.
  - apply Hinv.
  - done.
  - done.
  - intros c c' Hc Hc' Hfalse.
    destruct (call_site c) as [k | k j | k j mission] eqn:Hsite;
      destruct (call_site c') as [k' | k' j' | k' j' mission'] eqn:Hsite'; try done.
    + intros ->. destruct (Hup_layout c' k j' Hc' Hsite')
        as (_ & _ & cc & _ & _ & _ & Hcc & Hccsite & _ & Hcctrue).
      assert (c = cc) as ->; [|congruence].
      apply (called_once_same calls); try done; [congruence | by rewrite Hsite].
    + intros ->. destruct (Hup_mission c' k j' mission' Hc' Hsite')
        as (_ & _ & cl & _ & _ & _ & Hcl & Hclsite & _ & _).
      destruct (Hup_layout cl k j' Hcl Hclsite)
        as (_ & _ & cc & _ & _ & _ & Hcc & Hccsite & _ & Hcctrue).
      assert (c = cc) as ->; [|congruence].
      apply (called_once_same calls); try done; [congruence | by rewrite Hsite].
    + intros [-> ->]. destruct (Hup_mission c' k j mission' Hc' Hsite')
        as (_ & _ & cl & _ & _ & _ & Hcl & Hclsite & _ & Hcltrue).
      assert (c = cl) as ->; [|congruence].
      apply (called_once_same calls); try done; [congruence | by rewrite Hsite].
  - apply Hinv.
  - apply Hinv.
  - done.
  - intros m Hm. rewrite (inv_missions _ _ _ _ _ _ _ _ Hinv) in Hm.
    apply list_elem_of_omap in Hm as (c & Hc & Hmission).
    unfold mission_of_call in Hmission.
    destruct (call_site c) as [k | k j | k j mission] eqn:Hsite; try done.
    destruct (call_answer c) eqn:Hanswer; [|done]. injection Hmission as Hid.
    destruct (Hup_mission c k j mission Hc Hsite)
      as (campaign & layout & cl & Hslot & Hne & Hrule & Hcl & Hclsite & Hclrule & Hcltrue).
    destruct (Hup_layout cl k j Hcl Hclsite)
      as (campaign' & layout' & cc & Hcampaign' & _ & _ & Hcc & Hccsite & Hccrule & Hcctrue).
    assert (campaign' = campaign) as ->.
    { destruct Hslot as (Hcampaign & _). congruence. }
    exists k, j, campaign, layout, mission, c, cl, cc.
    split_and!; try done; try congruence.
    + rewrite (inv_campaigns _ _ _ _ _ _ _ _ Hinv). apply list_elem_of_omap.
      exists cc. split; [done|]. unfold campaign_of_call. by rewrite Hccsite, Hcctrue.
    + exists (omap (layout_of_call k) calls). split.
      * rewrite Hlayouts. rewrite decide_True; [done|].
        by eapply lookup_lt_Some.
      * apply list_elem_of_omap. exists cl. split; [done|].
        unfold layout_of_call. rewrite Hclsite, Hcltrue.
        by rewrite bool_decide_eq_true_2.
Qed.
End WalkCallsFacts.

(** ** Entry rules: the evaluation always returns *)

Lemma foldl_ext_in {A B} (f g : A → B → A) (l : list B) (a : A) :
  (∀ a x, f a x = g a x) → foldl f a l = foldl g a l.
Proof.
  intros Hfg. revert a. induction l as [|x l IH]; intros a; simpl; [done|].
  by rewrite Hfg, IH.
Qed.

Section EntryRulesFacts.
Variable rules : gmap nat RuleData.
Variable completed_missions : gset Z.
Variable received_counts : gmap Z Z.

Local Abbreviation eval_rule := (eval_rule rules completed_missions received_counts).

Lemma leave_entered (rule_id : Z) (in_progress : list Z) :
  rule_id ∉ in_progress → leave rule_id (rule_id :: in_progress) = in_progress.
Proof.
  intros Hnot. unfold leave. rewrite filter_cons_False by (intros ?; done).
  induction in_progress as [|id l IH]; [done|].
  apply not_elem_of_cons in Hnot as [Hne Hnot].
  rewrite filter_cons_True by done. by rewrite IH.
Qed.

(** If every child returns and restores the in-progress ids, so does the
    loop over the children. *)
Lemma eval_children_returns ev amount children satisfied in_progress :
  (∀ child, child ∈ children → ∃ ok, ev child in_progress = Returned (ok, in_progress)) →
  ∃ ok, eval_children ev amount children satisfied in_progress = Returned (ok, in_progress).
Proof.
  revert satisfied. induction children as [|child rest IH]; intros satisfied Hev; simpl.
  - destruct (amount <=? satisfied); eauto.
  - destruct (amount <=? satisfied); [eauto|].
    destruct (Hev child) as [ok Hok]; [left|]. rewrite Hok.
    apply IH. intros c Hc. apply Hev. by right.
Qed.

Lemma eval_children_mono ev1 ev2 amount children satisfied in_progress r :
  (∀ child s r', ev1 child s = Returned r' → ev2 child s = Returned r') →
  eval_children ev1 amount children satisfied in_progress = Returned r →
  eval_children ev2 amount children satisfied in_progress = Returned r.
Proof.
  intros Hev. revert satisfied in_progress.
  induction children as [|child rest IH]; intros satisfied in_progress; simpl; [done|].
  destruct (amount <=? satisfied); [done|].
  destruct (ev1 child in_progress) as [[ok s]| |] eqn:E1; [|done|done].
  rewrite (Hev _ _ _ E1). apply IH.
Qed.

(** More fuel does not change an answer. *)
Lemma eval_rule_fuel_mono fuel fuel' rule in_progress r :
  (fuel ≤ fuel')%nat →
  eval_rule fuel rule in_progress = Returned r →
  eval_rule fuel' rule in_progress = Returned r.
Proof.
  revert fuel' rule in_progress r.
  induction fuel as [|fuel IH]; intros fuel' rule in_progress r Hle; simpl; [done|].
  destruct fuel' as [|fuel']; [lia|]. simpl.
  destruct (rules !! rule) as [[rule_id sub_rules amount | kind targets amount label]|];
    [|done|done].
  case_bool_decide; [done|].
  destruct (eval_children _ amount sub_rules 0 (rule_id :: in_progress))
    as [[ok s]| |] eqn:E; [|done|done].
  intros Hr.
  rewrite (eval_children_mono (eval_rule fuel) (eval_rule fuel') _ _ _ _ (ok, s)); [done| |done].
  intros child s' r'. apply IH. lia.
Qed.

Lemma sub_rule_id_known rule rule_id sub_rules amount :
  rules !! rule = Some (SubRule rule_id sub_rules amount) → rule_id ∈ rule_ids rules.
Proof.
  intros Hrule. unfold rule_ids. apply elem_of_map_img. exists rule.
  by rewrite lookup_omap, Hrule.
Qed.

Hypothesis rules_closed : closed_rules rules.

Lemma closed_rules_child rule rule_id sub_rules amount child :
  rules !! rule = Some (SubRule rule_id sub_rules amount) →
  child ∈ sub_rules → is_Some (rules !! child).
Proof using rules_closed.
  intros Hrule Hchild.
  pose proof (map_Forall_lookup_1 _ _ _ _ rules_closed Hrule) as Hch. simpl in Hch.
  rewrite Forall_forall in Hch. by apply Hch.
Qed.

(** The budget that remains: the SubRule ids that are not in progress. *)
Lemma eval_rule_returns fuel rule in_progress :
  (size (rule_ids rules ∖ list_to_set in_progress) < fuel)%nat →
  is_Some (rules !! rule) →
  ∃ ok, eval_rule fuel rule in_progress = Returned (ok, in_progress).
Proof using rules_closed.
  revert rule in_progress.
  induction fuel as [|fuel IH]; intros rule in_progress Hfuel [node Hnode]; [lia|].
  simpl. rewrite Hnode.
  destruct node as [rule_id sub_rules amount | kind targets amount label]; [|eauto].
  case_bool_decide as Hseen; [eauto|].
  pose proof (sub_rule_id_known _ _ _ _ Hnode) as Hid.
  destruct (eval_children_returns (eval_rule fuel) amount sub_rules 0 (rule_id :: in_progress))
    as [ok Hok].
  - intros child Hchild. apply IH.
    + rewrite list_to_set_cons.
      assert (Hlt : (size (rule_ids rules ∖ ({[rule_id]} ∪ list_to_set in_progress))
                     < size (rule_ids rules ∖ list_to_set in_progress))%nat).
      { apply subset_size. set_solver. }
      lia.
    + by apply (closed_rules_child _ _ _ _ _ Hnode).
  - rewrite Hok. exists ok. by rewrite leave_entered.
Qed.

Lemma eval_rule_terminates rule in_progress :
  is_Some (rules !! rule) →
  ∃ ok, ∀ fuel, (enough_fuel rules ≤ fuel)%nat →
                eval_rule fuel rule in_progress = Returned (ok, in_progress).
Proof using rules_closed.
  intros Hrule.
  destruct (eval_rule_returns (enough_fuel rules) rule in_progress) as [ok Hok]; [|done|].
  - unfold enough_fuel.
    assert (size (rule_ids rules ∖ list_to_set in_progress) ≤ size (rule_ids rules))%nat
      by (apply subseteq_size; set_solver).
    lia.
  - exists ok. intros fuel Hfuel. by apply (eval_rule_fuel_mono (enough_fuel rules)).
Qed.
End EntryRulesFacts.

Example sample_mission_11_locked :
  available_missions (sample_nodes ∅) = [10].
Proof. vm_compute. reflexivity. Qed.

Example sample_mission_11_open :
  available_missions (sample_nodes {[ 2000 ]}) = [10; 11].
Proof. vm_compute. reflexivity. Qed.

Example sample_A_B_not_accessible :
  eval_rule rules_A_B ∅ ∅ (enough_fuel rules_A_B) 0 [] = Returned (false, []).
Proof. vm_compute. reflexivity. Qed.

Lemma eval_rule_sub rules completed received fuel rule rule_id sub_rules amount in_progress :
  rules !! rule = Some (SubRule rule_id sub_rules amount) →
  eval_rule rules completed received (S fuel) rule in_progress =
  if bool_decide (rule_id ∈ in_progress) then Returned (false, in_progress)
  else match eval_children (eval_rule rules completed received fuel) amount sub_rules 0
                           (rule_id :: in_progress) with
       | Returned (ok, in_progress') => Returned (ok, leave rule_id in_progress')
       | OutOfFuel => OutOfFuel
       | Dangling => Dangling
       end.
Proof. intros Hrule. simpl. by rewrite Hrule. Qed.

Lemma eval_rule_in_progress rules completed received fuel rule rule_id sub_rules amount in_progress :
  rules !! rule = Some (SubRule rule_id sub_rules amount) →
  rule_id ∈ in_progress →
  eval_rule rules completed received (S fuel) rule in_progress = Returned (false, in_progress).
Proof.
  intros Hrule Hin. rewrite (eval_rule_sub _ _ _ _ _ _ _ _ _ Hrule).
  by rewrite bool_decide_eq_true_2.
Qed.

Lemma eval_children_only_child_fails ev amount child in_progress in_progress' :
  0 < amount →
  ev child in_progress = Returned (false, in_progress') →
  eval_children ev amount [child] 0 in_progress = Returned (false, in_progress').
Proof.
  intros Hpos Hev. simpl.
  assert (E : (amount <=? 0) = false) by (apply Z.leb_gt; lia).
  by rewrite E, Hev, E.
Qed.

(** The rule A -> B -> A with three steps of fuel. *)
Lemma eval_two_cycle rules completed received a b id_a id_b amount_a amount_b :
  rules !! a = Some (SubRule id_a [b] amount_a) →
  rules !! b = Some (SubRule id_b [a] amount_b) →
  0 < amount_a → 0 < amount_b →
  eval_rule rules completed received 3 a [] = Returned (false, []).
Proof.
  intros Ha Hb Hpa Hpb.
  assert (HB : eval_rule rules completed received 2 b [id_a] = Returned (false, [id_a])).
  { destruct (decide (id_b = id_a)) as [->|Hne].
    - apply (eval_rule_in_progress _ _ _ _ _ _ _ _ _ Hb). set_solver.
    - rewrite (eval_rule_sub _ _ _ _ _ _ _ _ _ Hb).
      rewrite bool_decide_eq_false_2 by set_solver.
      rewrite (eval_children_only_child_fails _ _ _ _ [id_b; id_a]); [|done|].
      + by rewrite leave_entered by set_solver.
      + apply (eval_rule_in_progress _ _ _ _ _ _ _ _ _ Ha). set_solver. }
  rewrite (eval_rule_sub _ _ _ _ _ _ _ _ _ Ha).
  rewrite bool_decide_eq_false_2 by set_solver.
  rewrite (eval_children_only_child_fails _ _ _ _ [id_a]); [|done|done].
  by rewrite leave_entered by set_solver.
Qed.

(** C2. On a rule graph in which a rule is reachable from itself the
    evaluation terminates: from every rule of a closed arena and with any
    ids in progress it returns one boolean, the same for every budget of at
    least [enough_fuel], and leaves the in-progress ids as it found them. A
    SubRule whose id is in progress is not accessible; so a rule A whose
    only child is B whose only child is A is not accessible. And
    [calc_available_nodes] hands an empty in-progress list to every
    evaluation: its result depends on the evaluator only through what it
    answers for the empty list. *)
Theorem C2_cycle_safe (rules : gmap nat RuleData) (completed : gset Z) (received : gmap Z Z) :
  closed_rules rules →
  (∀ rule in_progress,
     is_Some (rules !! rule) →
     ∃ ok, ∀ fuel, (enough_fuel rules ≤ fuel)%nat →
       eval_rule rules completed received fuel rule in_progress = Returned (ok, in_progress))
  ∧ (∀ fuel rule rule_id sub_rules amount in_progress,
       rules !! rule = Some (SubRule rule_id sub_rules amount) →
       rule_id ∈ in_progress →
       eval_rule rules completed received (S fuel) rule in_progress
       = Returned (false, in_progress))
  ∧ (∀ a b id_a id_b amount_a amount_b,
       rules !! a = Some (SubRule id_a [b] amount_a) →
       rules !! b = Some (SubRule id_b [a] amount_b) →
       0 < amount_a → 0 < amount_b →
       ∀ fuel, (enough_fuel rules ≤ fuel)%nat →
         eval_rule rules completed received fuel a [] = Returned (false, []))
  ∧ (∀ (Rule : Type) (K : LocationConstants) (ctx : SC2Context Rule)
       (ev1 ev2 : Rule → gset Z → gmap Z Z → gmap Z (MissionEntryRules Rule)
                  → gset Z → list Z → bool * gset Z),
       (∀ rule beaten items entry_rules cache,
          ev1 rule beaten items entry_rules cache [] = ev2 rule beaten items entry_rules cache []) →
       calc_available_nodes K ev1 ctx = calc_available_nodes K ev2 ctx).
Proof.
  intros Hclosed. split_and!.
  - intros rule in_progress Hrule. by apply eval_rule_terminates.
  - intros fuel rule rule_id sub_rules amount in_progress Hrule Hin.
    by apply (eval_rule_in_progress _ _ _ _ _ _ _ _ _ Hrule).
  - intros a b id_a id_b amount_a amount_b Ha Hb Hpa Hpb fuel Hfuel.
    destruct (eval_rule_terminates rules completed received Hclosed a []) as [ok Hok]; [eauto|].
    rewrite (Hok fuel Hfuel).
    pose proof (eval_two_cycle rules completed received _ _ _ _ _ _ Ha Hb Hpa Hpb) as H3.
    apply (eval_rule_fuel_mono _ _ _ 3 (3 `max` enough_fuel rules)%nat) in H3; [|lia].
    rewrite (Hok (3 `max` enough_fuel rules)%nat) in H3 by lia. done.
  - intros Rule K ctx ev1 ev2 Hev. unfold calc_available_nodes.
    assert (Hevaluate : ∀ rule cache, evaluate K ev1 ctx rule cache = evaluate K ev2 ctx rule cache).
    { intros rule cache. unfold evaluate. apply Hev. }
    assert (Hmission : ∀ st mission,
               visit_mission K ev1 ctx st mission = visit_mission K ev2 ctx st mission).
    { intros st mission. unfold visit_mission. by rewrite Hevaluate. }
    assert (Hcolumn : ∀ st column,
               visit_column K ev1 ctx st column = visit_column K ev2 ctx st column).
    { intros st column. unfold visit_column. by apply foldl_ext_in. }
    assert (Hlayout : ∀ idx st entry,
               visit_layout K ev1 ctx idx st entry = visit_layout K ev2 ctx idx st entry).
    { intros idx st entry. unfold visit_layout. rewrite Hevaluate.
      destruct (evaluate K ev2 ctx _ _) as [[] cache]; simpl; [|done].
      by apply foldl_ext_in. }
    apply foldl_ext_in. intros st entry. unfold visit_campaign. rewrite Hevaluate.
    destruct (evaluate K ev2 ctx _ _) as [[] cache]; simpl; [|done].
    by apply foldl_ext_in.
Qed.

Lemma C2_cycle_safe_witness :
  closed_rules rules_A_B
  ∧ eval_rule rules_A_B ∅ ∅ (enough_fuel rules_A_B) 0 [] = Returned (false, []).
Proof.
  assert (Hclosed : closed_rules rules_A_B).
  { apply (bool_decide_unpack _). vm_compute. exact I. }
  split; [exact Hclosed|].
  destruct (C2_cycle_safe rules_A_B ∅ ∅ Hclosed) as (_ & _ & Hcycle & _).
  apply (Hcycle 0%nat 1%nat 100 101 1 1); [reflexivity | reflexivity | lia | lia | lia].
Defined.

(** ** The walk on the sample mission order *)

Lemma C7_available_mission_levels_witness :
  11 ∈ available_missions (sample_nodes {[ 2000 ]})
  ∧ justified_by_calls (sample_ctx {[ 2000 ]}) (sample_nodes {[ 2000 ]})
      (walk_calls sample_constants (spec_is_accessible sample_rules) (sample_ctx {[ 2000 ]}))
      11.
Proof.
  assert (Hin : 11 ∈ available_missions (sample_nodes {[ 2000 ]})).
  { rewrite sample_mission_11_open. right. left. }
  split; [exact Hin|].
  destruct (C7_available_mission_levels sample_constants (spec_is_accessible sample_rules)
              (sample_ctx {[ 2000 ]})) as (_ & _ & _ & _ & _ & _ & _ & _ & _ & _ & Hwhy).
  exact (Hwhy 11 Hin).
Defined.

(** A layout whose rule answers [False]: the walk calls the rule of the
    campaign and the rule of the layout and stops there. With an evaluator
    that adds the rule of each call to the shared set, the set that
    [calc_available_nodes] ends with holds these two rules and not the
    rules 2 and 3 of the two slots. *)
Example closed_layout_not_descended :
  call_site <$> walk_calls sample_constants (recording_is_accessible sample_rules)
                  closed_layout_ctx
  = [CampaignCall 0; LayoutCall 0 0]
  ∧ call_answer <$> walk_calls sample_constants (recording_is_accessible sample_rules)
                      closed_layout_ctx
    = [true; false]
  ∧ calc_available_nodes sample_constants (recording_is_accessible sample_rules)
      closed_layout_ctx
    = {| available_missions := [];
         available_layouts := {[ 0%nat := [] ]};
         available_campaigns := [0%nat];
         accessible_rules := {[ 0; 3 ]} |}.
Proof. split_and!; vm_compute; reflexivity. Qed.

(** The same walk when mission 10 is completed: the layout opens and
    both slots are called, each with the set as the call before left it. *)
Example open_layout_descended :
  call_rule <$> walk_calls sample_constants (recording_is_accessible sample_rules)
                  (sample_ctx {[ 2000 ]})
  = [0; 1; 2; 3]%nat
  ∧ call_passed <$> walk_calls sample_constants (recording_is_accessible sample_rules)
                      (sample_ctx {[ 2000 ]})
    = [∅; {[ 0 ]}; {[ 0; 1 ]}; {[ 0; 1; 2 ]}]
  ∧ accessible_rules (calc_available_nodes sample_constants
                        (recording_is_accessible sample_rules) (sample_ctx {[ 2000 ]}))
    = {[ 0; 1; 2; 3 ]}.
Proof. split_and!; vm_compute; reflexivity. Qed.

Lemma C10_layouts_key_per_campaign_witness :
  (0 < length (custom_mission_order (sample_ctx ∅)))%nat
  ∧ ∃ open_layouts,
      available_layouts (sample_nodes ∅) !! 0%nat = Some open_layouts
      ∧ ∀ layout_idx, layout_idx ∈ open_layouts →
                      0%nat ∈ available_campaigns (sample_nodes ∅).
Proof.
  assert (Hlt : (0 < length (custom_mission_order (sample_ctx ∅)))%nat) by (simpl; lia).
  split; [exact Hlt|].
  destruct (C10_layouts_key_per_campaign sample_constants (spec_is_accessible sample_rules)
              (sample_ctx ∅) 0%nat Hlt) as (open_layouts & campaign & Hopen & _ & Hin & _).
  exists open_layouts. split; [exact Hopen | exact Hin].
Defined.

Lemma C9_unfinished_missions_witness :
  ∃ unfinished_missions,
    calc_unfinished_nodes sample_constants (spec_is_accessible sample_rules)
      (sample_ctx {[ 2000; 2001 ]})
    = Some (sample_nodes {[ 2000; 2001 ]}, unfinished_missions)
    ∧ 11 ∈ unfinished_missions ∧ 10 ∉ unfinished_missions.
Proof.
  assert (Hav : available_missions (sample_nodes {[ 2000; 2001 ]}) = [10; 11])
    by (vm_compute; reflexivity).
  assert (Hkeys : ∀ m, m ∈ available_missions (sample_nodes {[ 2000; 2001 ]}) →
                       is_Some (mission_id_to_location_ids (sample_ctx {[ 2000; 2001 ]}) !! m)).
  { rewrite Hav. intros m Hm.
    apply elem_of_cons in Hm as [-> | Hm]; [vm_compute; eauto|].
    apply list_elem_of_singleton in Hm as ->. vm_compute; eauto. }
  destruct (C9_unfinished_missions sample_constants (spec_is_accessible sample_rules)
              (sample_ctx {[ 2000; 2001 ]}) Hkeys) as (unfinished & Hcalc & Hiff).
  exists unfinished. split; [exact Hcalc|]. split.
  - apply Hiff. split; [fold (sample_nodes {[ 2000; 2001 ]}); rewrite Hav; right; left|].
    exists [2100], 2100. split; [vm_compute; reflexivity|]. split; [left|].
    simpl. intros Hin. apply elem_of_union in Hin as [Hin | Hin];
      apply elem_of_singleton in Hin; discriminate.
  - intros Hin. apply Hiff in Hin as (_ & locations & loc & Hlocs & Hloc & Hnot).
    vm_compute in Hlocs. injection Hlocs as <-.
    apply Hnot. apply elem_of_cons in Hloc as [-> | Hloc]; [set_solver|].
    apply list_elem_of_singleton in Hloc as ->. set_solver.
Defined.

(** ** Item accumulation *)

Lemma extend_with_compat_expand T (items : list NetworkItem) (compat : list CompatItemHolder) :
  extend_with_compat T items compat = (λ more, items ++ more) <$> expand_compat T compat.
Proof.
  unfold expand_compat. revert items.
  induction compat as [|compat_item rest IH]; intros items; simpl.
  - by rewrite app_nil_r.
  - destruct (compat_item_to_network_items T compat_item) as [more|]; simpl; [|done].
    rewrite IH. destruct (mapM _ rest) as [parts|]; simpl; [|done].
    by rewrite app_assoc.
Qed.

Lemma fold_items_app N T version minerals vespene supply st (l1 l2 : list NetworkItem) :
  fold_items N T version minerals vespene supply st (l1 ++ l2)
  = fold_items N T version minerals vespene supply st l1
    ≫= λ st', fold_items N T version minerals vespene supply st' l2.
Proof.
  revert st. induction l1 as [|network_item l1 IH]; intros st; simpl; [done|].
  destruct (fold_item _ _ _ _ _ _ st network_item) as [st'|]; simpl; [apply IH | done].
Qed.



Lemma py_in_network_item_in_ints (network_item : NetworkItem) (ids : list Z) :
  py_in (PyNetworkItem network_item) (PyInt <$> ids) = false.
Proof. induction ids as [|id ids IH]; simpl; [done | exact IH]. Qed.

Lemma replacements_never_present (items : list NetworkItem) (ids : list Z) :
  replacements_present items ids = false.
Proof.
  unfold replacements_present.
  assert (Hnone : filter (λ item_id, py_in (PyNetworkItem item_id) (PyInt <$> ids) = true) items = []).
  { induction items as [|network_item items IH]; [done|].
    rewrite filter_cons_False; [done|].
    by rewrite py_in_network_item_in_ints. }
  by rewrite Hnone.
Qed.

(** C5 fails on the code. The test for a replacement among the received
    items compares each [NetworkItem] with the item codes, which never
    match, so the substitution is never skipped and nothing is logged. With
    the old Orbital Command and Scanner Sweep both received, the word of
    the replacements, 1 for Scanner Sweep alone, becomes 1 + 1 + 2 = 4: the
    Scanner Sweep and MULE bits are clear and the Extra Supplies bit is
    set. Without the Scanner Sweep the substitution gives 3, and 11 for two
    copies. *)
Theorem C5_orbital_command_guard_dead :
  (∀ items ids, replacements_present items ids = false)
  ∧ sample_calculate_items 3 [received 2]
    = Some ({| acc_any := [0; 0; 0]; acc_terran := [0; 1];
               acc_zerg := [0]; acc_protoss := [0; 0] |}, [])
  ∧ sample_calculate_items 3 [received 1]
    = Some ({| acc_any := [0; 0; 0]; acc_terran := [0; 3];
               acc_zerg := [0]; acc_protoss := [0; 0] |}, [])
  ∧ sample_calculate_items 3 [received 1; received 1]
    = Some ({| acc_any := [0; 0; 0]; acc_terran := [0; 11];
               acc_zerg := [0]; acc_protoss := [0; 0] |}, [])
  ∧ sample_calculate_items 3 [received 1; received 2]
    = Some ({| acc_any := [0; 0; 0]; acc_terran := [0; 4];
               acc_zerg := [0]; acc_protoss := [0; 0] |}, []).
Proof.
  split; [exact replacements_never_present|].
  split_and!; vm_compute; reflexivity.
Qed.

(** *** The shields of the Protoss ground and air bundles *)

(** One step of a computation in the option monad that is known to
    succeed: name the value of its first action, or close the goal when the
    action fails. *)
Ltac bind_step H :=
  match type of H with
  | (?action ≫= _) = Some _ =>
      let E := fresh "E" in
      destruct action eqn:E; simpl in H; [|discriminate H]
  end.

Lemma acc_get_set a r l : acc_get (acc_set a r l) r = l.
Proof. by destruct r. Qed.

Lemma acc_set_set a r l1 l2 : acc_set (acc_set a r l1) r l2 = acc_set a r l2.
Proof. by destruct r. Qed.




Section ShieldFacts.
Variable N : ItemNames.
Variable T : ItemTables.
Variable version : Z.
Variables minerals vespene supply : Z.

Local Abbreviation step := (fold_item N T version minerals vespene supply).
Local Abbreviation run := (fold_items N T version minerals vespene supply).
Local Abbreviation GROUND := (PROGRESSIVE_PROTOSS_GROUND_UPGRADE N).
Local Abbreviation AIR := (PROGRESSIVE_PROTOSS_AIR_UPGRADE N).
Local Abbreviation SHIELDS := (PROGRESSIVE_PROTOSS_SHIELDS N).














End ShieldFacts.


Example sample_shields_tier_3_alone :
  sample_calculate_items 4 [received 15; received 15; received 16; received 16; received 16]
  = Some ({| acc_any := [0; 0; 0]; acc_terran := [0; 0];
             acc_zerg := [0]; acc_protoss := [2 + 2 * 16 + 3 * 256 + 3 * 4096 + 3 * 65536; 0] |}, [])
  ∧ sample_calculate_items 4 [received 16; received 16; received 16]
    = Some ({| acc_any := [0; 0; 0]; acc_terran := [0; 0];
               acc_zerg := [0]; acc_protoss := [3 * 256 + 3 * 4096 + 3 * 65536; 0] |}, []).
Proof. split; vm_compute; reflexivity. Qed.

(** Upgrades from completed missions on the sample: with 50 percent of
    the two missions one completed mission is one level of every member
    of the global bundle, and none completed is no level. *)
Example sample_upgrades_from_missions :
  sample_mission_upgrades 50 {[ 2000 ]}
  = Some ({| acc_any := [0; 0; 0]; acc_terran := [0; 0]; acc_zerg := [0];
             acc_protoss := [2 ^ 0 + 2 ^ 4 + 2 ^ 8 + 2 ^ 12 + 2 ^ 16; 0] |}, [])
  ∧ sample_mission_upgrades 50 ∅
    = Some ({| acc_any := [0; 0; 0]; acc_terran := [0; 0]; acc_zerg := [0];
               acc_protoss := [0; 0] |}, []).
Proof. split; vm_compute; reflexivity. Qed.

(* ===================================================================== *)
(** * Further properties of the code *)
(* ===================================================================== *)

(** ** Location ids: which ids decode faithfully *)

Section LocationImage.
Variable K : LocationConstants.

Hypothesis early_ids_below_hots :
  SC2WOL_LOC_ID_OFFSET K + ALL_IN_id K * 100 + 99 < SC2HOTS_LOC_ID_OFFSET K.

Lemma decoded_objective_in_range (loc : Z) :
  0 ≤ (location_to_mission_objective K loc).2 ≤ 99.
Proof.
  unfold location_to_mission_objective, VICTORY_MODULO. simpl.
  pose proof (Z.mod_pos_bound (loc - location_offset_of_id K loc) 100). lia.
Qed.

(** X1. The decoder always gives an objective in [0,99], but it inverts the
    encoder only on the ids the encoder produces: encoding the decoded pair
    gives the id back exactly when the id lies below the end of the early
    block or at least 100 above the offset of the later expansion. The ids
    in between decode to a pair that is encoded elsewhere. *)
Theorem X_decode_faithful_iff (loc : Z) :
  0 ≤ (location_to_mission_objective K loc).2 ≤ 99
  ∧ (get_location_id K (location_to_mission_objective K loc).1
                       (location_to_mission_objective K loc).2 = loc
     ↔ loc < SC2WOL_LOC_ID_OFFSET K + (ALL_IN_id K + 1) * 100
       ∨ SC2HOTS_LOC_ID_OFFSET K + 100 ≤ loc).
Proof using early_ids_below_hots.
  split; [apply decoded_objective_in_range|].
  unfold location_to_mission_objective, get_location_id, get_location_offset,
    location_offset_of_id, VICTORY_MODULO. simpl.
  destruct (Z.ltb_spec loc (SC2HOTS_LOC_ID_OFFSET K)) as [Hlt|Hge].
  - set (d := loc - SC2WOL_LOC_ID_OFFSET K).
    pose proof (Z.div_mod d 100 ltac:(lia)) as Hdm.
    pose proof (Z.mod_pos_bound d 100 ltac:(lia)) as Hm.
    destruct (Z.leb_spec (d `div` 100) (ALL_IN_id K)); split; intros; lia.
  - set (d := loc - (SC2HOTS_LOC_ID_OFFSET K - ALL_IN_id K * 100)).
    pose proof (Z.div_mod d 100 ltac:(lia)) as Hdm.
    pose proof (Z.mod_pos_bound d 100 ltac:(lia)) as Hm.
    destruct (Z.leb_spec (d `div` 100) (ALL_IN_id K)); split; intros; lia.
Qed.

(** X2. Two valid pairs never share a location id, and the ids are ordered
    like the pairs: a smaller mission id gives a smaller location id,
    whatever the two objectives, also from the early to the later block. *)
Theorem X_location_ids_ordered (m1 o1 m2 o2 : Z) :
  0 ≤ o1 ≤ 99 → 0 ≤ o2 ≤ 99 →
  (get_location_id K m1 o1 = get_location_id K m2 o2 → m1 = m2 ∧ o1 = o2)
  ∧ (m1 < m2 → get_location_id K m1 o1 < get_location_id K m2 o2).
Proof using early_ids_below_hots.
  intros Ho1 Ho2.
  unfold get_location_id, get_location_offset, VICTORY_MODULO.
  destruct (Z.leb_spec m1 (ALL_IN_id K)); destruct (Z.leb_spec m2 (ALL_IN_id K));
    split; intros; lia.
Qed.
End LocationImage.

Lemma X_decode_faithful_iff_witness :
  get_location_id sample_constants (location_to_mission_objective sample_constants 20000105).1
                                   (location_to_mission_objective sample_constants 20000105).2
  = 20000105
  ∧ (get_location_id sample_constants (location_to_mission_objective sample_constants 4005).1
                                      (location_to_mission_objective sample_constants 4005).2
     = 4005 → False).
Proof.
  assert (Hk : SC2WOL_LOC_ID_OFFSET sample_constants + ALL_IN_id sample_constants * 100 + 99
               < SC2HOTS_LOC_ID_OFFSET sample_constants) by (simpl; lia).
  split.
  - apply (X_decode_faithful_iff sample_constants Hk 20000105). simpl. lia.
  - intros Heq. apply (X_decode_faithful_iff sample_constants Hk 4005) in Heq.
    simpl in Heq. lia.
Defined.

Lemma X_location_ids_ordered_witness :
  get_location_id sample_constants 29 99 < get_location_id sample_constants 30 0.
Proof.
  assert (Hk : SC2WOL_LOC_ID_OFFSET sample_constants + ALL_IN_id sample_constants * 100 + 99
               < SC2HOTS_LOC_ID_OFFSET sample_constants) by (simpl; lia).
  apply (X_location_ids_ordered sample_constants Hk 29 99 30 0); lia.
Defined.

(** ** The mapping from missions to objectives *)

Section MappingFacts.
Context {Rule : Type}.
Variable K : LocationConstants.

Local Abbreviation decode := (location_to_mission_objective K).

Lemma add_server_location_keys mapping loc mapping' m :
  add_server_location K mapping loc = Some mapping' →
  mapping' !! m = None ↔ mapping !! m = None.
Proof.
  unfold add_server_location. intros H.
  destruct (mapping !! (decode loc).1) as [objectives|] eqn:E; simpl in H; [|done].
  injection H as <-. destruct (decide ((decode loc).1 = m)) as [<-|Hne].
  - rewrite lookup_insert_eq, E. done.
  - by rewrite lookup_insert_ne.
Qed.

(** A location whose mission is not a key stops the loop with a KeyError. *)
Lemma add_server_locations_fails locs mapping loc :
  loc ∈ locs → mapping !! (decode loc).1 = None →
  add_server_locations K mapping locs = None.
Proof.
  revert mapping. induction locs as [|loc0 locs IH]; intros mapping Hin Hnone.
  { by apply elem_of_nil in Hin. }
  simpl. destruct (add_server_location K mapping loc0) as [mapping1|] eqn:E1; simpl; [|done].
  apply elem_of_cons in Hin as [-> | Hin].
  - unfold add_server_location in E1. by rewrite Hnone in E1.
  - apply IH; [done|]. by apply (add_server_location_keys _ _ _ _ E1).
Qed.

(** Otherwise every key keeps its objectives and gains those of the
    locations that decode to it. *)
Lemma add_server_locations_spec locs mapping :
  (∀ loc, loc ∈ locs → is_Some (mapping !! (decode loc).1)) →
  ∃ mapping',
    add_server_locations K mapping locs = Some mapping'
    ∧ (∀ m, mapping !! m = None → mapping' !! m = None)
    ∧ (∀ m objectives, mapping !! m = Some objectives →
         ∃ objectives',
           mapping' !! m = Some objectives'
           ∧ ∀ o, o ∈ objectives' ↔
                  o ∈ objectives ∨ ∃ loc, loc ∈ locs ∧ decode loc = (m, o)).
Proof.
  revert mapping. induction locs as [|loc0 locs IH]; intros mapping Hkeys; simpl.
  { exists mapping. split_and!; [done | done |].
    intros m objectives Hm. exists objectives. split; [done|].
    intros o. split; [by left|]. intros [? | (loc & Hin & _)]; [done|].
    by apply elem_of_nil in Hin. }
  destruct (Hkeys loc0) as [objectives0 H0]; [left|].
  assert (E1 : add_server_location K mapping loc0
               = Some (<[(decode loc0).1 := {[(decode loc0).2]} ∪ objectives0]> mapping)).
  { unfold add_server_location. by rewrite H0. }
  rewrite E1. simpl.
  destruct (IH (<[(decode loc0).1 := {[(decode loc0).2]} ∪ objectives0]> mapping))
    as (mapping' & Hrun & Hnone & Hsome).
  { intros loc Hin. destruct (decide ((decode loc0).1 = (decode loc).1)) as [<-|Hne].
    - rewrite lookup_insert_eq. eauto.
    - rewrite lookup_insert_ne by done. apply Hkeys. by right. }
  exists mapping'. split_and!; [done | |].
  - intros m Hm. apply Hnone. rewrite lookup_insert_ne; [done|]. congruence.
  - intros m objectives Hm.
    destruct (decide ((decode loc0).1 = m)) as [Heq|Hne].
    + subst m. assert (objectives = objectives0) as -> by congruence.
      destruct (Hsome (decode loc0).1 ({[(decode loc0).2]} ∪ objectives0))
        as (objectives' & Hlook & Hiff); [apply lookup_insert_eq|].
      exists objectives'. split; [done|]. intros o. rewrite Hiff, elem_of_union, elem_of_singleton.
      split.
      * intros [[-> | ?] | (loc & Hin & Hdec)]; [right | by left | right].
        -- exists loc0. split; [left | by destruct (decode loc0)].
        -- exists loc. split; [by right | done].
      * intros [? | (loc & Hin & Hdec)]; [by left; right|].
        apply elem_of_cons in Hin as [-> | Hin].
        -- left; left. by rewrite Hdec.
        -- right. by exists loc.
    + destruct (Hsome m objectives) as (objectives' & Hlook & Hiff);
        [by rewrite lookup_insert_ne|].
      exists objectives'. split; [done|]. intros o. rewrite Hiff. split.
      * intros [? | (loc & Hin & Hdec)]; [by left | right].
        exists loc. split; [by right | done].
      * intros [? | (loc & Hin & Hdec)]; [by left | right].
        apply elem_of_cons in Hin as [-> | Hin]; [|by exists loc].
        rewrite Hdec in Hne. done.
Qed.

Lemma empty_location_mapping_lookup (order : list (CampaignSlotData Rule)) m :
  empty_location_mapping order !! m
  = if bool_decide (m ∈ order_mission_ids order) then Some ∅ else None.
Proof.
  unfold empty_location_mapping. case_bool_decide as Hin.
  - apply lookup_gset_to_gmap_Some. split; [|done]. by apply elem_of_list_to_set.
  - apply lookup_gset_to_gmap_None. by rewrite elem_of_list_to_set.
Qed.

Lemma sorted_elements_spec (objectives : gset Z) :
  Sorted Z.le (merge_sort Z.le (elements objectives))
  ∧ NoDup (merge_sort Z.le (elements objectives))
  ∧ ∀ o, o ∈ merge_sort Z.le (elements objectives) ↔ o ∈ objectives.
Proof.
  split_and!.
  - apply Sorted_merge_sort. apply _.
  - rewrite merge_sort_Permutation. apply NoDup_elements.
  - intros o. rewrite merge_sort_Permutation. apply elem_of_elements.
Qed.

Lemma build_location_mapping_returns (order : list (CampaignSlotData Rule))
    (server_locations : gset Z) :
  is_Some (build_location_to_mission_mapping K order server_locations)
  ↔ ∀ loc, loc ∈ server_locations → (decode loc).1 ∈ order_mission_ids order.
Proof.
  unfold build_location_to_mission_mapping.
  destruct (decide (Forall (λ loc, (decode loc).1 ∈ order_mission_ids order)
                           (elements server_locations))) as [Hall|Hnot].
  - rewrite Forall_forall in Hall.
    destruct (add_server_locations_spec (elements server_locations)
                (empty_location_mapping order)) as (sets & Hrun & _).
    { intros loc Hin. rewrite empty_location_mapping_lookup.
      rewrite bool_decide_eq_true_2 by auto. eauto. }
    rewrite Hrun. split; [|eauto]. intros _ loc Hin. apply Hall. by apply elem_of_elements.
  - apply not_Forall_Exists in Hnot; [|apply _].
    apply Exists_exists in Hnot as (loc & Hin & Hout).
    rewrite (add_server_locations_fails _ _ loc Hin).
    + split; [by intros [? ?]|].
      intros Hall. destruct Hout. apply Hall. by apply elem_of_elements.
    + rewrite empty_location_mapping_lookup. by rewrite bool_decide_eq_false_2.
Qed.

Lemma build_location_mapping_entries (order : list (CampaignSlotData Rule))
    (server_locations : gset Z) mapping :
  build_location_to_mission_mapping K order server_locations = Some mapping →
  (∀ m, is_Some (mapping !! m) ↔ m ∈ order_mission_ids order)
  ∧ ∀ m objectives,
      mapping !! m = Some objectives →
      Sorted Z.le objectives ∧ NoDup objectives
      ∧ ∀ o, o ∈ objectives ↔
             ∃ loc, loc ∈ server_locations ∧ decode loc = (m, o).
Proof.
  intros Hbuild.
  pose proof (proj1 (build_location_mapping_returns order server_locations)
                (mk_is_Some _ _ Hbuild)) as Hall.
  unfold build_location_to_mission_mapping in Hbuild.
  destruct (add_server_locations_spec (elements server_locations)
              (empty_location_mapping order)) as (sets & Hrun & Hnone & Hsome).
  { intros loc Hin. rewrite empty_location_mapping_lookup.
    rewrite bool_decide_eq_true_2; [eauto|]. apply Hall. by apply elem_of_elements. }
  rewrite Hrun in Hbuild. injection Hbuild as <-. split.
  - intros m. rewrite lookup_fmap, fmap_is_Some.
    pose proof (empty_location_mapping_lookup order m) as He.
    case_bool_decide as Hin.
    + destruct (Hsome m ∅ He) as (objectives' & Hl & _). rewrite Hl. split; eauto.
    + rewrite (Hnone m He). split; [by intros [? ?] | done].
  - intros m objectives. rewrite lookup_fmap. intros Hm.
    destruct (sets !! m) as [objs|] eqn:Eobjs; simpl in Hm; [|done].
    injection Hm as <-.
    destruct (sorted_elements_spec objs) as (Hs & Hn & He).
    split_and!; [done | done |]. intros o. rewrite He.
    pose proof (empty_location_mapping_lookup order m) as Hinit.
    case_bool_decide as Hin.
    + destruct (Hsome m ∅ Hinit) as (objectives' & Hl & Hiff).
      assert (objectives' = objs) as -> by congruence.
      rewrite Hiff. split.
      * intros [? | (loc & Hloc & Hdec)]; [set_solver|].
        exists loc. split; [by apply elem_of_elements | done].
      * intros (loc & Hloc & Hdec). right. exists loc.
        split; [by apply elem_of_elements | done].
    + rewrite (Hnone m Hinit) in Eobjs. done.
Qed.

(** X3. [build_location_to_mission_mapping] raises a KeyError exactly when a
    server location decodes to a mission that has no slot in the mission
    order. When it returns, the keys of the mapping are the mission ids of
    the slots, and each mission has, in ascending order and without
    repetition, the objectives of the server locations that decode to it. *)
Theorem X_build_location_mapping (order : list (CampaignSlotData Rule))
    (server_locations : gset Z) :
  (is_Some (build_location_to_mission_mapping K order server_locations)
   ↔ ∀ loc, loc ∈ server_locations → (decode loc).1 ∈ order_mission_ids order)
  ∧ ∀ mapping,
      build_location_to_mission_mapping K order server_locations = Some mapping →
      (∀ m, is_Some (mapping !! m) ↔ m ∈ order_mission_ids order)
      ∧ ∀ m objectives,
          mapping !! m = Some objectives →
          Sorted Z.le objectives ∧ NoDup objectives
          ∧ ∀ o, o ∈ objectives ↔
                 ∃ loc, loc ∈ server_locations ∧ decode loc = (m, o).
Proof.
  split; [apply build_location_mapping_returns|].
  intros mapping. apply build_location_mapping_entries.
Qed.
End MappingFacts.

Section MappingRoundTrip.
Context {Rule : Type}.
Variable K : LocationConstants.

Local Abbreviation decode := (location_to_mission_objective K).

(** X4. The mapping gives the server's location ids back: when every server
    location is an id that the encoder produces, [locations_for_mission_id]
    over the mapping built from them yields, for each mission of the order,
    exactly the server locations that decode to that mission, each once. *)
Theorem X_locations_for_mission_round_trip (ctx : SC2Context Rule)
    (server_locations : gset Z) (m : Z) :
  build_location_to_mission_mapping K (custom_mission_order ctx) server_locations
  = Some (mission_id_to_location_ids ctx) →
  (∀ loc, loc ∈ server_locations → get_location_id K (decode loc).1 (decode loc).2 = loc) →
  m ∈ order_mission_ids (custom_mission_order ctx) →
  ∃ locations,
    locations_for_mission_id K ctx m = Some locations
    ∧ NoDup locations
    ∧ ∀ loc, loc ∈ locations ↔ loc ∈ server_locations ∧ (decode loc).1 = m.
Proof.
  intros Hbuild Hfaithful Hm.
  destruct (build_location_mapping_entries K _ _ _ Hbuild) as [Hkeys Hobjs].
  destruct (proj2 (Hkeys m) Hm) as [objectives Hlook].
  destruct (Hobjs m objectives Hlook) as (_ & Hnodup & Hiff).
  exists (map (get_location_id K m) objectives).
  split; [unfold locations_for_mission_id; by rewrite Hlook|]. split.
  - apply NoDup_fmap_2_strong; [|done].
    intros o1 o2 _ _. unfold get_location_id. lia.
  - intros loc. rewrite list_elem_of_fmap. split.
    + intros (o & -> & Ho). apply Hiff in Ho as (loc & Hloc & Hdec).
      pose proof (Hfaithful loc Hloc) as Hf. rewrite Hdec in Hf. simpl in Hf.
      rewrite Hf. by rewrite Hdec.
    + intros [Hloc <-]. exists (decode loc).2. split; [by rewrite Hfaithful|].
      apply Hiff. exists loc. split; [done | by destruct (decode loc)].
Qed.
End MappingRoundTrip.

Lemma X_locations_for_mission_round_trip_witness :
  ∃ locations,
    locations_for_mission_id sample_constants (sample_ctx ∅) 10 = Some locations
    ∧ NoDup locations
    ∧ ∀ loc, loc ∈ locations ↔
             loc ∈ ({[ 2000; 2001; 2100 ]} : gset Z)
             ∧ (location_to_mission_objective sample_constants loc).1 = 10.
Proof.
  apply (X_locations_for_mission_round_trip sample_constants (sample_ctx ∅)
           {[ 2000; 2001; 2100 ]} 10).
  - vm_compute. reflexivity.
  - intros loc Hloc.
    apply elem_of_union in Hloc as [Hloc | Hloc];
      [apply elem_of_union in Hloc as [Hloc | Hloc]|];
      apply elem_of_singleton in Hloc; subst loc; vm_compute; reflexivity.
  - vm_compute. left.
Defined.

(** ** Victory locations and beaten missions *)

Section VictoryFacts.
Context {Rule : Type}.
Variable K : LocationConstants.

Hypothesis early_ids_below_hots :
  SC2WOL_LOC_ID_OFFSET K + ALL_IN_id K * 100 + 99 < SC2HOTS_LOC_ID_OFFSET K.
Hypothesis wol_offset_aligned : SC2WOL_LOC_ID_OFFSET K `mod` 100 = 0.
Hypothesis hots_offset_aligned : SC2HOTS_LOC_ID_OFFSET K `mod` 100 = 0.

(** With offsets that are multiples of 100, the remainder of a location id
    is its objective. *)
Lemma location_id_mod (m o : Z) :
  0 ≤ o ≤ 99 → get_location_id K m o `mod` VICTORY_MODULO = o.
Proof using wol_offset_aligned hots_offset_aligned.
  intros Ho. unfold get_location_id, get_location_offset, VICTORY_MODULO.
  apply Z.mod_divide in wol_offset_aligned as [a Ha]; [|lia].
  apply Z.mod_divide in hots_offset_aligned as [b Hb]; [|lia].
  destruct (Z.leb_spec m (ALL_IN_id K)).
  - replace (SC2WOL_LOC_ID_OFFSET K + m * 100 + o) with (o + (a + m) * 100) by lia.
    rewrite Z.mod_add by lia. apply Z.mod_small. lia.
  - replace (SC2HOTS_LOC_ID_OFFSET K - ALL_IN_id K * 100 + m * 100 + o)
      with (o + (b - ALL_IN_id K + m) * 100) by lia.
    rewrite Z.mod_add by lia. apply Z.mod_small. lia.
Qed.

Lemma victory_id_inj (m1 m2 : Z) :
  get_location_id K m1 0 = get_location_id K m2 0 → m1 = m2.
Proof using early_ids_below_hots.
  unfold get_location_id, get_location_offset, VICTORY_MODULO.
  destruct (Z.leb_spec m1 (ALL_IN_id K)); destruct (Z.leb_spec m2 (ALL_IN_id K)); lia.
Qed.

(** X5. The count that the bot sends to the game agrees with the set that the
    walk uses: when every checked location that is a multiple of 100 is the
    victory location of a mission of the session, [missions_beaten_count] is
    the number of beaten missions of [calc_available_nodes]. *)
Theorem X_missions_beaten_count (ctx : SC2Context Rule) :
  (∀ loc, loc ∈ checked_locations ctx → loc `mod` VICTORY_MODULO = 0 →
          ∃ m, is_Some (mission_id_to_entry_rules ctx !! m) ∧ loc = get_location_id K m 0) →
  missions_beaten_count (checked_locations ctx)
  = Z.of_nat (size (beaten_missions_of K ctx)).
Proof using early_ids_below_hots wol_offset_aligned hots_offset_aligned.
  intros Hvictory. unfold missions_beaten_count. f_equal.
  change (size (beaten_missions_of K ctx)) with (length (elements (beaten_missions_of K ctx))).
  rewrite <- (length_fmap (λ m, get_location_id K m 0) (elements (beaten_missions_of K ctx))).
  apply Permutation_length. apply NoDup_Permutation.
  - apply NoDup_filter, NoDup_elements.
  - apply NoDup_fmap_2_strong; [|apply NoDup_elements].
    intros m1 m2 _ _. apply victory_id_inj.
  - intros loc. rewrite list_elem_of_filter, elem_of_elements, list_elem_of_fmap.
    split.
    + intros [Hmod Hin]. destruct (Hvictory loc Hin Hmod) as (m & Hkey & ->).
      exists m. split; [done|]. apply elem_of_elements.
      unfold beaten_missions_of. apply elem_of_filter. split.
      * unfold is_mission_completed. by apply bool_decide_eq_true_2.
      * by apply elem_of_dom.
    + intros (m & -> & Hm). apply elem_of_elements in Hm.
      unfold beaten_missions_of in Hm. apply elem_of_filter in Hm as [Hdone _].
      unfold is_mission_completed in Hdone. apply bool_decide_eq_true_1 in Hdone.
      split; [|done]. apply location_id_mod. lia.
Qed.

(** X6. The objectives that the bot reports as uncollected: for a mission whose
    objectives are in [0,99], exactly those whose location is still missing,
    and, while the game is not finished, always the victory of a final
    mission, so that the goal can be sent even when its location is
    collected. *)
Theorem X_uncollected_objectives (lookup_id_to_mission : gmap Z SC2Mission)
    (ctx : SC2Context Rule) (missing_locations : gset Z) (final_mission_ids : list Z)
    (finished_game : bool) (mission_id : Z) (objectives : list Z) :
  lookup_id_to_mission !! mission_id = Some {| SC2Mission_id := mission_id |} →
  mission_id_to_location_ids ctx !! mission_id = Some objectives →
  (∀ o, o ∈ objectives → 0 ≤ o ≤ 99) →
  ∃ result,
    get_uncollected_objectives K lookup_id_to_mission ctx missing_locations
      final_mission_ids finished_game mission_id = Some result
    ∧ ∀ o, o ∈ result ↔
           (o ∈ objectives ∧ get_location_id K mission_id o ∈ missing_locations)
           ∨ (o = 0 ∧ mission_id ∈ final_mission_ids ∧ finished_game = false).
Proof using wol_offset_aligned hots_offset_aligned.
  intros Hmission Hobjectives Hrange.
  unfold get_uncollected_objectives, uncollected_locations_in_mission, locations_for_mission.
  rewrite Hmission. simpl. rewrite Hobjectives. simpl.
  set (result := map _ (filter _ _)).
  assert (Hresult : ∀ o, o ∈ result ↔
            o ∈ objectives ∧ get_location_id K mission_id o ∈ missing_locations).
  { intros o. unfold result. rewrite list_elem_of_fmap. split.
    - intros (loc & -> & Hloc). apply list_elem_of_filter in Hloc as [Hmissing Hloc].
      apply list_elem_of_fmap in Hloc as (o & -> & Ho).
      rewrite location_id_mod by auto. done.
    - intros [Ho Hmissing]. exists (get_location_id K mission_id o).
      split; [by rewrite location_id_mod by auto|].
      apply list_elem_of_filter. split; [done|]. apply list_elem_of_fmap. eauto. }
  clearbody result.
  case_bool_decide as Hfinal; destruct finished_game; simpl;
    try case_bool_decide as Hzero; simpl;
    eexists; (split; [reflexivity|]); intros o;
    rewrite ?elem_of_app, ?list_elem_of_singleton, Hresult; try naive_solver.
Qed.
End VictoryFacts.

Lemma X_missions_beaten_count_witness :
  missions_beaten_count (checked_locations (sample_ctx {[ 2000; 2001 ]}))
  = Z.of_nat (size (beaten_missions_of sample_constants (sample_ctx {[ 2000; 2001 ]}))).
Proof.
  apply X_missions_beaten_count; try (simpl; lia); try reflexivity.
  intros loc Hloc Hmod. simpl in Hloc.
  apply elem_of_union in Hloc as [Hloc | Hloc]; apply elem_of_singleton in Hloc; subst loc.
  - exists 10. split; [vm_compute; eauto | reflexivity].
  - vm_compute in Hmod. discriminate.
Defined.

Lemma X_uncollected_objectives_witness :
  ∃ result,
    get_uncollected_objectives sample_constants {[ 10 := {| SC2Mission_id := 10 |} ]}
      (sample_ctx ∅) {[ 2001 ]} [10] false 10 = Some result
    ∧ ∀ o, o ∈ result ↔
           (o ∈ [0; 1] ∧ get_location_id sample_constants 10 o ∈ ({[ 2001 ]} : gset Z))
           ∨ (o = 0 ∧ 10 ∈ [10] ∧ false = false).
Proof.
  apply (X_uncollected_objectives sample_constants); try reflexivity.
  intros o Ho. apply elem_of_cons in Ho as [-> | Ho]; [lia|].
  apply list_elem_of_singleton in Ho as ->. lia.
Defined.

(** ** The counts of the received items *)

Lemma count_items_lookup (items : list NetworkItem) (received : gmap Z Z) (i : Z) :
  foldl count_item received items !! i
  = if decide (filter (λ network_item, item network_item = i) items = [])
    then received !! i
    else Some (default 0 (received !! i)
               + Z.of_nat (length (filter (λ network_item, item network_item = i) items))).
Proof.
  revert received. induction items as [|network_item items IH]; intros received; [done|].
  simpl foldl. rewrite IH. unfold count_item.
  destruct (decide (item network_item = i)) as [Heq|Hne].
  - rewrite filter_cons_True by done. rewrite Heq, lookup_insert_eq. simpl default.
    rewrite (decide_False (P := _ :: _ = [])) by done.
    destruct (decide (filter _ items = [])) as [->|_]; f_equal; simpl length; lia.
  - rewrite filter_cons_False by done. by rewrite lookup_insert_ne.
Qed.

(** X7. The dictionary [received_items] of [calc_available_nodes] holds, for
    each item id that was received, the number of times it was received,
    and has no entry for any other id. *)
Theorem X_received_items_count {Rule : Type} (ctx : SC2Context Rule) (i : Z) :
  received_items_of ctx !! i
  = if decide (filter (λ network_item, item network_item = i) (items_received ctx) = [])
    then None
    else Some (Z.of_nat (length (filter (λ network_item, item network_item = i)
                                        (items_received ctx)))).
Proof.
  unfold received_items_of. rewrite count_items_lookup, lookup_empty. simpl.
  by destruct (decide _).
Qed.

(** ** The walk as three comprehensions *)

Lemma insert_enumerate_lookup {A B} (f : A → B) (l : list A) (i : nat) :
  foldl (λ (m : gmap nat B) (entry : nat * A), <[entry.1 := f entry.2]> m) ∅ (enumerate l) !! i
  = f <$> l !! i.
Proof.
  induction l as [|x l IH] using rev_ind; [apply lookup_empty|].
  rewrite enumerate_snoc, foldl_snoc. simpl.
  destruct (decide (length l = i)) as [<-|Hne].
  - rewrite lookup_insert_eq. by rewrite list_lookup_middle.
  - rewrite lookup_insert_ne, IH by done.
    destruct (decide (i < length l)%nat).
    + by rewrite lookup_app_l.
    + rewrite !(proj2 (lookup_ge_None _ _)); [done | | lia].
      rewrite length_app. simpl. lia.
Qed.

Section WalkComprehension.
Context {Rule : Type}.
Variable K : LocationConstants.
Variable is_accessible :
  Rule → gset Z → gmap Z Z → gmap Z (MissionEntryRules Rule) → gset Z → list Z → bool * gset Z.
Variable ctx : SC2Context Rule.

Local Abbreviation opened := (open_rule K is_accessible ctx).

(** The answer of an evaluation does not depend on the set
    [accessible_rules] that it is handed. *)
Hypothesis answer_ignores_cache :
  ∀ rule cache, (evaluate K is_accessible ctx rule cache).1 = opened rule.

Lemma visit_mission_adds st mission :
  let st' := visit_mission K is_accessible ctx st mission in
  available_missions st'
  = available_missions st
    ++ (if bool_decide (mission_id mission ≠ -1) && opened (mission_entry_rule mission)
        then [mission_id mission] else [])
  ∧ available_layouts st' = available_layouts st
  ∧ available_campaigns st' = available_campaigns st.
Proof using answer_ignores_cache.
  unfold visit_mission. case_bool_decide as Hid.
  - rewrite bool_decide_eq_false_2 by (intros ?; done). simpl. by rewrite app_nil_r.
  - rewrite bool_decide_eq_true_2 by done. simpl.
    rewrite answer_ignores_cache. destruct (opened _); simpl; by rewrite ?app_nil_r.
Qed.

Lemma visit_column_adds column st :
  let st' := visit_column K is_accessible ctx st column in
  available_missions st' = available_missions st ++ open_missions_of_column opened column
  ∧ available_layouts st' = available_layouts st
  ∧ available_campaigns st' = available_campaigns st.
Proof using answer_ignores_cache.
  unfold visit_column. revert st.
  induction column as [|mission column IH]; intros st; simpl.
  - by rewrite app_nil_r.
  - destruct (visit_mission_adds st mission) as (Hm & Hl & Hc).
    destruct (IH (visit_mission K is_accessible ctx st mission)) as (Hm' & Hl' & Hc').
    split_and!; [|congruence|congruence].
    rewrite Hm', Hm, <- app_assoc. done.
Qed.

Lemma visit_columns_adds columns st :
  let st' := foldl (visit_column K is_accessible ctx) st columns in
  available_missions st'
  = available_missions st ++ (column ← columns; open_missions_of_column opened column)
  ∧ available_layouts st' = available_layouts st
  ∧ available_campaigns st' = available_campaigns st.
Proof using answer_ignores_cache.
  revert st. induction columns as [|column columns IH]; intros st; simpl.
  - by rewrite app_nil_r.
  - destruct (visit_column_adds column st) as (Hm & Hl & Hc).
    destruct (IH (visit_column K is_accessible ctx st column)) as (Hm' & Hl' & Hc').
    split_and!; [|congruence|congruence].
    rewrite Hm', Hm, <- app_assoc. done.
Qed.

Lemma visit_layouts_adds campaign_idx entries st :
  let st' := foldl (visit_layout K is_accessible ctx campaign_idx) st entries in
  available_missions st' = available_missions st ++ open_missions_of_layouts opened entries
  ∧ available_layouts st'
    = alter (λ l, l ++ open_layout_indices opened entries) campaign_idx (available_layouts st)
  ∧ available_campaigns st' = available_campaigns st.
Proof using answer_ignores_cache.
  revert st. induction entries as [|entry entries IH]; intros st; simpl.
  - rewrite app_nil_r. split_and!; [done | | done].
    apply map_eq. intros k. destruct (decide (campaign_idx = k)) as [<-|Hne].
    + rewrite lookup_alter_eq. destruct (available_layouts st !! campaign_idx); simpl; [|done].
      by rewrite app_nil_r.
    + by rewrite lookup_alter_ne.
  - destruct (IH (visit_layout K is_accessible ctx campaign_idx st entry)) as (Hm' & Hl' & Hc').
    rewrite Hm', Hl', Hc'. clear Hm' Hl' Hc' IH.
    unfold visit_layout. rewrite answer_ignores_cache.
    destruct (opened (layout_entry_rule entry.2)); simpl.
    + match goal with |- context [foldl _ ?s _] => set (st0 := s) end.
      destruct (visit_columns_adds (missions entry.2) st0) as (Hm & Hl & Hc).
      rewrite Hm, Hl, Hc. simpl. split_and!; [by rewrite <- app_assoc | | done].
      apply map_eq. intros k. destruct (decide (campaign_idx = k)) as [<-|Hne].
      * rewrite !lookup_alter_eq.
        destruct (available_layouts st !! campaign_idx); simpl; [|done].
        by rewrite <- app_assoc.
      * by rewrite !lookup_alter_ne.
    + done.
Qed.

Lemma visit_campaign_adds st entry :
  let st' := visit_campaign K is_accessible ctx st entry in
  available_missions st'
  = available_missions st
    ++ (if opened (campaign_entry_rule entry.2)
        then open_missions_of_layouts opened (enumerate (layouts entry.2)) else [])
  ∧ available_layouts st'
    = <[entry.1 := open_layouts_of_campaign opened entry.2]> (available_layouts st)
  ∧ available_campaigns st'
    = available_campaigns st ++ (if opened (campaign_entry_rule entry.2) then [entry.1] else []).
Proof using answer_ignores_cache.
  unfold visit_campaign, open_layouts_of_campaign. rewrite answer_ignores_cache.
  destruct (opened (campaign_entry_rule entry.2)); simpl.
  - match goal with |- context [foldl _ ?s _] => set (st0 := s) end.
    destruct (visit_layouts_adds entry.1 (enumerate (layouts entry.2)) st0) as (Hm & Hl & Hc).
    rewrite Hm, Hl, Hc. simpl. split_and!; [done | | done].
    apply map_eq. intros k. destruct (decide (entry.1 = k)) as [<-|Hne].
    + by rewrite lookup_alter_eq, !lookup_insert_eq.
    + by rewrite lookup_alter_ne, !lookup_insert_ne.
  - by rewrite !app_nil_r.
Qed.

Lemma visit_campaigns_adds entries st :
  let st' := foldl (visit_campaign K is_accessible ctx) st entries in
  available_missions st' = available_missions st ++ open_missions_of_campaigns opened entries
  ∧ available_layouts st'
    = foldl (λ m entry, <[entry.1 := open_layouts_of_campaign opened entry.2]> m)
            (available_layouts st) entries
  ∧ available_campaigns st' = available_campaigns st ++ open_campaign_indices opened entries.
Proof using answer_ignores_cache.
  revert st. induction entries as [|entry entries IH]; intros st; simpl.
  - by rewrite !app_nil_r.
  - destruct (visit_campaign_adds st entry) as (Hm & Hl & Hc).
    destruct (IH (visit_campaign K is_accessible ctx st entry)) as (Hm' & Hl' & Hc').
    rewrite Hm', Hl', Hc', Hm, Hl, Hc, <- !app_assoc. done.
Qed.

(** X8. When the answers of the evaluator do not depend on the shared set,
    [calc_available_nodes] is three comprehensions over the mission order:
    the available campaigns are the indices of the open campaigns in
    ascending order, every campaign index is mapped to the ascending indices
    of its open layouts (to none when the campaign is closed), and the
    available missions are, in the order of the walk and once per slot, the
    missions with an open rule in the open layouts of the open campaigns. *)
Theorem X_available_nodes_as_comprehensions :
  let nodes := calc_available_nodes K is_accessible ctx in
  available_missions nodes
  = open_missions_of_campaigns opened (enumerate (custom_mission_order ctx))
  ∧ available_campaigns nodes
    = open_campaign_indices opened (enumerate (custom_mission_order ctx))
  ∧ ∀ campaign_idx,
      available_layouts nodes !! campaign_idx
      = open_layouts_of_campaign opened <$> custom_mission_order ctx !! campaign_idx.
Proof using answer_ignores_cache.
  unfold calc_available_nodes.
  match goal with |- context [foldl _ ?s _] => set (st0 := s) end.
  destruct (visit_campaigns_adds (enumerate (custom_mission_order ctx)) st0) as (Hm & Hl & Hc).
  simpl. rewrite Hm, Hl, Hc. split_and!; [done | done |].
  intros campaign_idx. apply insert_enumerate_lookup.
Qed.
End WalkComprehension.

Lemma spec_is_accessible_ignores_cache rules rule beaten received entry_rules cache cache' seen :
  (spec_is_accessible rules rule beaten received entry_rules cache seen).1
  = (spec_is_accessible rules rule beaten received entry_rules cache' seen).1.
Proof.
  unfold spec_is_accessible.
  by destruct (eval_rule rules beaten received (enough_fuel rules) rule seen) as [[ok s]| |].
Qed.

Lemma X_available_nodes_as_comprehensions_witness :
  available_missions (sample_nodes {[ 2000 ]})
  = open_missions_of_campaigns
      (open_rule sample_constants (spec_is_accessible sample_rules) (sample_ctx {[ 2000 ]}))
      (enumerate (custom_mission_order (sample_ctx {[ 2000 ]}))).
Proof.
  apply (X_available_nodes_as_comprehensions sample_constants
           (spec_is_accessible sample_rules) (sample_ctx {[ 2000 ]})).
  intros rule cache. apply spec_is_accessible_ignores_cache.
Defined.

(** ** When [calc_unfinished_nodes] fails *)

Section UnfinishedFacts.
Context {Rule : Type}.
Variable K : LocationConstants.
Variable is_accessible :
  Rule → gset Z → gmap Z Z → gmap Z (MissionEntryRules Rule) → gset Z → list Z → bool * gset Z.
Variable ctx : SC2Context Rule.

Lemma mark_all_unfinished_fails available unfinished mission :
  mission ∈ available →
  mission_id_to_location_ids ctx !! mission = None →
  mark_all_unfinished K ctx unfinished available = None.
Proof.
  revert unfinished. induction available as [|m rest IH]; intros unfinished Hin Hnone.
  { by apply elem_of_nil in Hin. }
  simpl. destruct (mark_unfinished K ctx unfinished m) as [unfinished'|] eqn:E; simpl; [|done].
  apply elem_of_cons in Hin as [-> | Hin]; [|by apply IH].
  unfold mark_unfinished, locations_for_mission_id in E. by rewrite Hnone in E.
Qed.

(** X9. [calc_unfinished_nodes] raises a KeyError exactly when some available
    mission has no entry in [mission_id_to_location_ids]; a mission that is
    not available may lack one. *)
Theorem X_unfinished_nodes_key_error :
  calc_unfinished_nodes K is_accessible ctx = None
  ↔ ∃ mission, mission ∈ available_missions (calc_available_nodes K is_accessible ctx)
               ∧ mission_id_to_location_ids ctx !! mission = None.
Proof.
  unfold calc_unfinished_nodes. split.
  - intros Hnone.
    destruct (decide (Forall (λ m, is_Some (mission_id_to_location_ids ctx !! m))
                (available_missions (calc_available_nodes K is_accessible ctx)))) as [Hall|Hnot].
    + rewrite Forall_forall in Hall.
      destruct (mark_all_unfinished_spec K ctx _ ∅ Hall) as (u & Hu & _).
      rewrite Hu in Hnone. done.
    + apply not_Forall_Exists in Hnot; [|apply _].
      apply Exists_exists in Hnot as (m & Hin & Hm). exists m. split; [done|].
      by apply eq_None_not_Some.
  - intros (m & Hin & Hm). by rewrite (mark_all_unfinished_fails _ _ m Hin Hm).
Qed.
End UnfinishedFacts.

(** ** Item accumulation: shape and failures *)

Lemma same_shape_refl a : same_shape a a.
Proof. by intros r. Qed.

Lemma same_shape_trans a b c : same_shape a b → same_shape b c → same_shape a c.
Proof. intros Hab Hbc r. by rewrite Hbc, Hab. Qed.

Lemma acc_update_shape a r word f a' :
  acc_update a r word f = Some a' → same_shape a a'.
Proof.
  unfold acc_update. intros H.
  destruct (py_index _ _) as [pos|]; simpl in H; [|done].
  destruct (acc_get a r !! pos) as [old|]; simpl in H; [|done].
  injection H as <-. intros r'. destruct r, r'; simpl; by rewrite ?length_insert.
Qed.

Lemma add_shifted_shape numbers a r word value a' :
  add_shifted a r word value numbers = Some a' → same_shape a a'.
Proof.
  revert a. induction numbers as [|n numbers IH]; intros a H; simpl in H.
  - injection H as <-. apply same_shape_refl.
  - destruct (py_shl value n); simpl in H; [|done].
    destruct (acc_add a r word z) as [a1|] eqn:E1; simpl in H; [|done].
    eapply same_shape_trans; [by eapply acc_update_shape | by apply IH].
Qed.

Lemma add_times_shape n a r word v a' :
  add_times n a r word v = Some a' → same_shape a a'.
Proof.
  revert a. induction n as [|n IH]; intros a H; simpl in H.
  - injection H as <-. apply same_shape_refl.
  - destruct (acc_add a r word v) as [a1|] eqn:E1; simpl in H; [|done].
    eapply same_shape_trans; [by eapply acc_update_shape | by apply IH].
Qed.

Section ShapeFacts.
Context {Rule : Type}.
Variable N : ItemNames.
Variable T : ItemTables.
Variables api2_to_api3 api3_to_api4 : list CompatItemHolder.
Variable K : LocationConstants.
Variable mission_share : Z → Z → Z.

Lemma fold_item_shape version minerals vespene supply st network_item st' :
  fold_item N T version minerals vespene supply st network_item = Some st' →
  same_shape (accumulators st) (accumulators st').
Proof.
  unfold fold_item. intros H.
  destruct (lookup_id_to_name T !! item network_item) as [name|]; simpl in H; [|done].
  destruct (full_item_list T !! name) as [item_data|]; simpl in H; [|done].
  destruct (flag_word item_data <? 0); [injection H as <-; apply same_shape_refl|].
  destruct (quantity item_data =? 1).
  { bind_step H. bind_step H. injection H as <-. simpl. by eapply acc_update_shape. }
  destruct (1 <? quantity item_data).
  - unfold fold_progressive in H.
    match type of H with (?first ≫= _) = _ => destruct first as [st1|] eqn:E1 end;
      simpl in H; [|done].
    assert (H1 : same_shape (accumulators st) (accumulators st1)).
    { destruct (0 <=? number item_data).
      - bind_step E1. bind_step E1. injection E1 as <-. simpl. by eapply acc_update_shape.
      - bind_step E1. bind_step E1. injection E1 as <-. simpl. by eapply add_shifted_shape. }
    destruct (_ && _); [|by injection H as <-].
    bind_step H. bind_step H. destruct (_ =? 2); [|by injection H as <-].
    bind_step H. bind_step H. injection H as <-. simpl.
    eapply same_shape_trans; [done | by eapply acc_update_shape].
  - unfold fold_sum in H. case_bool_decide; [injection H as <-; apply same_shape_refl|].
    bind_step H. injection H as <-. simpl. by eapply acc_update_shape.
Qed.

Lemma fold_items_shape version minerals vespene supply items st st' :
  fold_items N T version minerals vespene supply st items = Some st' →
  same_shape (accumulators st) (accumulators st').
Proof.
  revert st. induction items as [|network_item items IH]; intros st H; simpl in H.
  - injection H as <-. apply same_shape_refl.
  - bind_step H. eapply same_shape_trans; [by eapply fold_item_shape | by apply IH].
Qed.

Lemma fix_shields_shape st a' :
  fix_shields N T st = Some a' → same_shape (accumulators st) a'.
Proof.
  unfold fix_shields. intros H. destruct (_ || _); [|injection H as <-; apply same_shape_refl].
  bind_step H. bind_step H. by eapply add_times_shape.
Qed.

Lemma handle_orbital_command_shape count items a a' warnings :
  handle_orbital_command N T count items a = Some (a', warnings) → same_shape a a'.
Proof.
  unfold handle_orbital_command. intros H.
  destruct (0 <? count); [|injection H as <- _; apply same_shape_refl].
  bind_step H. destruct (replacements_present _ _);
    [injection H as <- _; apply same_shape_refl|].
  bind_step H. bind_step H. bind_step H. bind_step H. bind_step H. bind_step H.
  assert (H2 : same_shape a a1).
  { eapply same_shape_trans; by eapply acc_update_shape. }
  destruct (2 <=? count); [|by injection H as <- _].
  bind_step H. bind_step H. bind_step H. injection H as <- _.
  eapply same_shape_trans; [done | by eapply acc_update_shape].
Qed.

Lemma add_global_upgrades_shape upgrades a upgrade_count a' :
  add_global_upgrades N T a upgrade_count upgrades = Some a' → same_shape a a'.
Proof.
  revert a. induction upgrades as [|upgrade upgrades IH]; intros a H; simpl in H.
  - injection H as <-. apply same_shape_refl.
  - bind_step H. bind_step H. bind_step H. bind_step H.
    eapply same_shape_trans; [by eapply add_shifted_shape | by apply IH].
Qed.

(** X10. The accumulators that [calculate_items] returns have, for every race,
    as many words as [race_to_item_type] has item types with a flag word:
    no step of the accumulation adds or drops a word. *)
Theorem X_calculate_items_shape (ctx : SC2Context Rule) a warnings :
  calculate_items N T api2_to_api3 api3_to_api4 K mission_share ctx = Some (a, warnings) →
  ∀ r, length (acc_get a r) = word_count T r.
Proof.
  unfold calculate_items. intros H.
  bind_step H. bind_step H. bind_step H.
  match type of H with (?action ≫= _) = _ => destruct action as [[a1 w1]|] eqn:E2 end;
    simpl in H; [|done].
  bind_step H. injection H as <- _.
  assert (Hshape : same_shape (accumulators (initial_state T)) a2).
  { eapply same_shape_trans; [by eapply fold_items_shape|].
    eapply same_shape_trans; [by eapply fix_shields_shape|].
    eapply same_shape_trans; [by eapply handle_orbital_command_shape|].
    unfold add_mission_upgrades in E3.
    destruct (0 <? generic_upgrade_missions ctx);
      [by eapply add_global_upgrades_shape | injection E3 as <-; apply same_shape_refl]. }
  intros r. rewrite Hshape. destruct r; simpl; apply length_replicate.
Qed.
End ShapeFacts.

Lemma X_calculate_items_shape_witness :
  ∃ a warnings,
    sample_calculate_items 3 [received 1; received 2] = Some (a, warnings)
    ∧ ∀ r, length (acc_get a r) = word_count sample_tables r.
Proof.
  destruct (sample_calculate_items 3 [received 1; received 2]) as [[a warnings]|] eqn:H;
    [|vm_compute in H; discriminate].
  exists a, warnings. split; [reflexivity|].
  exact (X_calculate_items_shape _ _ _ _ _ _ _ a warnings H).
Defined.

Section UnknownItems.
Context {Rule : Type}.
Variable N : ItemNames.
Variable T : ItemTables.
Variables api2_to_api3 api3_to_api4 : list CompatItemHolder.
Variable K : LocationConstants.
Variable mission_share : Z → Z → Z.

Lemma fold_item_unknown version minerals vespene supply st network_item :
  ¬ item_known T network_item →
  fold_item N T version minerals vespene supply st network_item = None.
Proof.
  intros Hunknown. unfold fold_item.
  destruct (lookup_id_to_name T !! item network_item) as [name|] eqn:Ename; simpl; [|done].
  destruct (full_item_list T !! name) as [item_data|] eqn:Edata; simpl; [|done].
  destruct Hunknown. by exists name, item_data.
Qed.

Lemma fold_items_unknown version minerals vespene supply items st network_item :
  network_item ∈ items → ¬ item_known T network_item →
  fold_items N T version minerals vespene supply st items = None.
Proof.
  revert st. induction items as [|it items IH]; intros st Hin Hunknown.
  { by apply elem_of_nil in Hin. }
  simpl. apply elem_of_cons in Hin as [<- | Hin].
  - by rewrite fold_item_unknown.
  - destruct (fold_item _ _ _ _ _ _ st it); simpl; [by apply IH | done].
Qed.

Lemma items_with_compat_appends items_received version items :
  items_with_compat T api2_to_api3 api3_to_api4 version items_received = Some items →
  ∃ more, items = items_received ++ more.
Proof.
  unfold items_with_compat. rewrite !extend_with_compat_expand. intros H.
  destruct (version <? 3); destruct (version <? 4); simpl in H.
  - destruct (expand_compat T api2_to_api3) as [shim2|]; simpl in H; [|done].
    rewrite extend_with_compat_expand in H.
    destruct (expand_compat T api3_to_api4) as [shim3|]; simpl in H; [|done].
    injection H as <-. exists (shim2 ++ shim3). by rewrite app_assoc.
  - destruct (expand_compat T api2_to_api3) as [shim2|]; simpl in H; [|done].
    injection H as <-. by exists shim2.
  - rewrite extend_with_compat_expand in H.
    destruct (expand_compat T api3_to_api4) as [shim3|]; simpl in H; [|done].
    injection H as <-. by exists shim3.
  - injection H as <-. exists []. by rewrite app_nil_r.
Qed.

(** *** The loop with its exceptions named *)

Lemma erase_or_raise {A} e (x : option A) : erase (or_raise e x) = x.
Proof. by destruct x. Qed.

Lemma erase_and_then {A B} (x : PyError + A) (f : A → PyError + B) :
  erase (and_then x f) = erase x ≫= λ v, erase (f v).
Proof. by destruct x. Qed.

Lemma acc_word_fails_update a r word f :
  acc_word a r word = None → acc_update a r word f = None.
Proof.
  unfold acc_word, acc_update.
  destruct (py_index (length (acc_get a r)) word) as [pos|]; simpl; [|done].
  by intros ->.
Qed.

Lemma erase_aug_assign a r word rhs op :
  erase (aug_assign a r word rhs op)
  = erase rhs ≫= λ v, acc_update a r word (λ old, op old v).
Proof.
  unfold aug_assign.
  destruct (acc_word a r word) as [old|] eqn:Eword; simpl.
  - destruct rhs as [e|v]; simpl; [done|]. apply erase_or_raise.
  - destruct rhs as [e|v]; simpl; [done|]. by rewrite acc_word_fails_update.
Qed.

Lemma erase_add_shifted numbers a r word value :
  erase (add_shifted_exn a r word value numbers) = add_shifted a r word value numbers.
Proof.
  revert a. induction numbers as [|n numbers IH]; intros a; simpl; [done|].
  rewrite erase_and_then, erase_aug_assign, erase_or_raise.
  destruct (py_shl value n) as [v|]; simpl; [|done].
  unfold acc_add. destruct (acc_update a r word _) as [a'|]; simpl; [apply IH | done].
Qed.

(** Read without the names of the exceptions, the loop is the loop of
    the embedding of [calculate_items]. *)
Lemma erase_assign_flag (st : FoldState) r word n (op : Z → Z → Z) :
  erase (a ⇐ aug_assign (accumulators st) r word (or_raise ValueError (py_shl 1 n)) op;
         inr (with_accumulators st a))
  = (bit ← py_shl 1 n;
     a ← acc_update (accumulators st) r word (λ old, op old bit);
     Some (with_accumulators st a)).
Proof.
  rewrite erase_and_then, erase_aug_assign, erase_or_raise.
  destruct (py_shl 1 n) as [bit|]; simpl; [|done].
  by destruct (acc_update _ _ _ _).
Qed.

Lemma erase_fold_progressive version st name item_data :
  erase (fold_progressive_exn N T version st name item_data)
  = fold_progressive N T version st name item_data.
Proof.
  unfold fold_progressive_exn, fold_progressive. rewrite erase_and_then.
  assert (Hfirst :
    erase (if 0 <=? number item_data then
             a ⇐ aug_assign (accumulators st) (race item_data) (flag_word item_data)
                   (or_raise ValueError (py_shl 1 (number item_data))) Z.add;
             inr (with_accumulators st a)
           else
             numbers ⇐ or_raise KeyError (get_bundle_upgrade_member_numbers N T name);
             a ⇐ add_shifted_exn (accumulators st) (race item_data) (flag_word item_data)
                   1 numbers;
             inr {| accumulators := a;
                    orbital_command_count := orbital_command_count st;
                    shields_from_ground_upgrade :=
                      if bool_decide (name = PROGRESSIVE_PROTOSS_GROUND_UPGRADE N)
                      then shields_from_ground_upgrade st + 1
                      else shields_from_ground_upgrade st;
                    shields_from_air_upgrade :=
                      if bool_decide (name = PROGRESSIVE_PROTOSS_AIR_UPGRADE N)
                      then shields_from_air_upgrade st + 1
                      else shields_from_air_upgrade st |})
    = (if 0 <=? number item_data then
         bit ← py_shl 1 (number item_data);
         a ← acc_add (accumulators st) (race item_data) (flag_word item_data) bit;
         Some (with_accumulators st a)
       else
         numbers ← get_bundle_upgrade_member_numbers N T name;
         a ← add_shifted (accumulators st) (race item_data) (flag_word item_data) 1 numbers;
         Some {| accumulators := a;
                 orbital_command_count := orbital_command_count st;
                 shields_from_ground_upgrade :=
                   if bool_decide (name = PROGRESSIVE_PROTOSS_GROUND_UPGRADE N)
                   then shields_from_ground_upgrade st + 1
                   else shields_from_ground_upgrade st;
                 shields_from_air_upgrade :=
                   if bool_decide (name = PROGRESSIVE_PROTOSS_AIR_UPGRADE N)
                   then shields_from_air_upgrade st + 1
                   else shields_from_air_upgrade st |})).
  { destruct (0 <=? number item_data); [apply erase_assign_flag|].
    rewrite erase_and_then, erase_or_raise.
    destruct (get_bundle_upgrade_member_numbers N T name) as [numbers|]; simpl; [|done].
    rewrite erase_and_then, erase_add_shifted.
    by destruct (add_shifted _ _ _ _ _). }
  cbv zeta. rewrite Hfirst. clear Hfirst.
  match goal with |- ?x ≫= _ = ?y ≫= _ => destruct x as [st1|] end; simpl; [|done].
  destruct ((version <? 3) && bool_decide (name = PROGRESSIVE_REGENERATIVE_BIO_STEEL N));
    [|done].
  rewrite erase_and_then, erase_or_raise.
  destruct (acc_word (accumulators st1) (race item_data) (flag_word item_data)) as [word|];
    simpl; [|done].
  rewrite erase_and_then, erase_or_raise.
  destruct (py_shr word (number item_data)) as [shifted|]; simpl; [|done].
  destruct (shifted `mod` 4 =? 2); [|done].
  apply erase_assign_flag.
Qed.

Lemma erase_fold_sum minerals vespene supply st name item_data :
  erase (fold_sum_exn N minerals vespene supply st name item_data)
  = fold_sum N minerals vespene supply st name item_data.
Proof.
  unfold fold_sum_exn, fold_sum. case_bool_decide; [done|].
  rewrite erase_and_then, erase_aug_assign. simpl.
  unfold acc_add. by destruct (acc_update _ _ _ _).
Qed.

Lemma erase_fold_item version minerals vespene supply st network_item :
  erase (fold_item_exn N T version minerals vespene supply st network_item)
  = fold_item N T version minerals vespene supply st network_item.
Proof.
  unfold fold_item_exn, fold_item. rewrite erase_and_then, erase_or_raise.
  destruct (lookup_id_to_name T !! item network_item) as [name|]; simpl; [|done].
  rewrite erase_and_then, erase_or_raise.
  destruct (full_item_list T !! name) as [item_data|]; simpl; [|done].
  destruct (flag_word item_data <? 0); [done|].
  destruct (quantity item_data =? 1); [apply erase_assign_flag|].
  destruct (1 <? quantity item_data); [apply erase_fold_progressive | apply erase_fold_sum].
Qed.

Lemma erase_fold_items version minerals vespene supply items st :
  erase (fold_items_exn N T version minerals vespene supply st items)
  = fold_items N T version minerals vespene supply st items.
Proof.
  revert st. induction items as [|network_item items IH]; intros st; simpl; [done|].
  rewrite erase_and_then, erase_fold_item.
  destruct (fold_item _ _ _ _ _ _ st network_item) as [st1|]; simpl; [apply IH | done].
Qed.

Lemma fold_items_exn_app version minerals vespene supply l1 l2 st :
  fold_items_exn N T version minerals vespene supply st (l1 ++ l2)
  = (st1 ⇐ fold_items_exn N T version minerals vespene supply st l1;
     fold_items_exn N T version minerals vespene supply st1 l2).
Proof.
  revert st. induction l1 as [|network_item l1 IH]; intros st; simpl; [done|].
  destruct (fold_item_exn _ _ _ _ _ _ st network_item) as [e|st1]; simpl; [done | apply IH].
Qed.

Lemma fold_item_exn_unknown version minerals vespene supply st network_item :
  ¬ item_known T network_item →
  fold_item_exn N T version minerals vespene supply st network_item = inl KeyError.
Proof.
  intros Hunknown. unfold fold_item_exn.
  destruct (lookup_id_to_name T !! item network_item) as [name|] eqn:Ename; simpl; [|done].
  destruct (full_item_list T !! name) as [item_data|] eqn:Edata; simpl; [|done].
  destruct Hunknown. by exists name, item_data.
Qed.

Local Abbreviation loop_exn ctx :=
  (calculate_items_loop_exn N T api2_to_api3 api3_to_api4 (slot_data_version ctx)
     (minerals_per_item ctx) (vespene_per_item ctx) (starting_supply_per_item ctx)
     (items_received ctx)).

(** X11. A received item whose id is not in [lookup_id_to_name], or whose name
    is not in the item list, makes [calculate_items] raise, whatever else
    was received: there is no fallback for an unknown item. The exception
    comes from the start of the function or from its loop, and it is a
    KeyError unless one of the items received before the unknown one has
    already raised in the loop, in which case it is that item's exception
    (an IndexError or a ValueError of a malformed table entry). *)
Theorem X_calculate_items_unknown_item (ctx : SC2Context Rule) (network_item : NetworkItem) :
  network_item ∈ items_received ctx →
  ¬ item_known T network_item →
  calculate_items N T api2_to_api3 api3_to_api4 K mission_share ctx = None
  ∧ erase (loop_exn ctx)
    = (items ← items_with_compat T api2_to_api3 api3_to_api4 (slot_data_version ctx)
                 (items_received ctx);
       fold_items N T (slot_data_version ctx) (minerals_per_item ctx) (vespene_per_item ctx)
         (starting_supply_per_item ctx) (initial_state T) items)
  ∧ ∀ before after,
      items_received ctx = before ++ network_item :: after →
      loop_exn ctx
      = match items_with_compat T api2_to_api3 api3_to_api4 (slot_data_version ctx)
                (items_received ctx) with
        | None => inl KeyError
        | Some _ =>
            match fold_items_exn N T (slot_data_version ctx) (minerals_per_item ctx)
                    (vespene_per_item ctx) (starting_supply_per_item ctx)
                    (initial_state T) before with
            | inl e => inl e
            | inr _ => inl KeyError
            end
        end.
Proof.
  intros Hin Hunknown. split_and!.
  - unfold calculate_items.
    destruct (items_with_compat T api2_to_api3 api3_to_api4 (slot_data_version ctx)
                (items_received ctx)) as [items|] eqn:Eitems; simpl; [|done].
    destruct (items_with_compat_appends _ _ _ Eitems) as [more ->].
    rewrite (fold_items_unknown _ _ _ _ _ _ network_item); [done | | done].
    apply elem_of_app. by left.
  - unfold calculate_items_loop_exn. rewrite erase_and_then, erase_or_raise.
    destruct (items_with_compat _ _ _ _ _) as [items|]; simpl; [|done].
    apply erase_fold_items.
  - intros before after Hsplit. unfold calculate_items_loop_exn.
    destruct (items_with_compat T api2_to_api3 api3_to_api4 (slot_data_version ctx)
                (items_received ctx)) as [items|] eqn:Eitems; simpl; [|done].
    destruct (items_with_compat_appends _ _ _ Eitems) as [more ->].
    rewrite Hsplit, <- app_assoc, fold_items_exn_app.
    destruct (fold_items_exn _ _ _ _ _ _ (initial_state T) before) as [e|st]; simpl; [done|].
    by rewrite fold_item_exn_unknown.
Qed.
End UnknownItems.

Lemma X_calculate_items_unknown_item_witness :
  sample_calculate_items 4 [received 2; received 999] = None
  ∧ calculate_items_loop_exn sample_names sample_tables
      (API2_TO_API3_COMPAT_ITEMS sample_names) [] 4 0 0 0 [received 2; received 999]
    = inl KeyError.
Proof.
  destruct (X_calculate_items_unknown_item sample_names sample_tables
              (API2_TO_API3_COMPAT_ITEMS sample_names) [] sample_constants
              (λ percent total, (percent * total) `div` 100)
              (sample_session 4 [received 2; received 999]) (received 999))
    as (Hfails & _ & Hraises).
  - right. left.
  - intros (name & item_data & Hname & _). vm_compute in Hname. discriminate.
  - split; [exact Hfails|].
    exact (Hraises [received 2] [] eq_refl).
Defined.

(** An earlier item with a negative bit number raises first: the
    exception is then its ValueError, not the KeyError of the unknown id. *)
Example sample_unknown_item_after_broken_flag :
  calculate_items_loop_exn sample_names negative_number_tables [] [] 4 0 0 0
    [received 40; received 999] = inl ValueError
  ∧ calculate_items_loop_exn sample_names negative_number_tables [] [] 4 0 0 0
      [received 999; received 40] = inl KeyError.
Proof. split; vm_compute; reflexivity. Qed.

(** ** Item accumulation: the items that exist once *)

Lemma py_index_lt len i pos : py_index len i = Some pos → (pos < len)%nat.
Proof.
  unfold py_index. intros H.
  destruct (Z.leb_spec 0 i); [destruct (Z.ltb_spec i (Z.of_nat len))|
                              destruct (Z.leb_spec (- Z.of_nat len) i)];
    simplify_eq; lia.
Qed.

Lemma acc_get_set_ne a r r' l : r ≠ r' → acc_get (acc_set a r l) r' = acc_get a r'.
Proof. by destruct r, r'. Qed.

Lemma acc_set_comm a r r' l l' :
  r ≠ r' → acc_set (acc_set a r l) r' l' = acc_set (acc_set a r' l') r l.
Proof. by destruct r, r'. Qed.

Lemma acc_update_None a r word f :
  acc_update a r word f = None ↔ py_index (length (acc_get a r)) word = None.
Proof.
  unfold acc_update. destruct (py_index _ _) as [pos|] eqn:Epos; simpl; [|done].
  destruct (lookup_lt_is_Some_2 (acc_get a r) pos) as [old Hold];
    [by eapply py_index_lt|].
  rewrite Hold. simpl. done.
Qed.

(** Two updates whose functions commute can be done in either order. *)
Lemma acc_update_comm a r1 w1 f r2 w2 g :
  (∀ x, f (g x) = g (f x)) →
  (acc_update a r1 w1 f ≫= λ a1, acc_update a1 r2 w2 g)
  = (acc_update a r2 w2 g ≫= λ a2, acc_update a2 r1 w1 f).
Proof.
  intros Hfg.
  destruct (acc_update a r1 w1 f) as [a1|] eqn:E1; simpl.
  - destruct (acc_update a r2 w2 g) as [a2|] eqn:E2; simpl.
    + unfold acc_update in *.
      destruct (py_index (length (acc_get a r1)) w1) as [p1|] eqn:Ep1; simpl in E1; [|done].
      destruct (acc_get a r1 !! p1) as [o1|] eqn:Eo1; simpl in E1; [|done].
      destruct (py_index (length (acc_get a r2)) w2) as [p2|] eqn:Ep2; simpl in E2; [|done].
      destruct (acc_get a r2 !! p2) as [o2|] eqn:Eo2; simpl in E2; [|done].
      injection E1 as <-. injection E2 as <-.
      destruct (decide (r1 = r2)) as [<-|Hr].
      * rewrite !acc_get_set, !length_insert, Ep1, Ep2. simpl.
        destruct (decide (p1 = p2)) as [<-|Hp].
        -- assert (o2 = o1) as -> by congruence.
           rewrite !list_lookup_insert_eq by (by eapply lookup_lt_Some). simpl.
           by rewrite !acc_set_set, !list_insert_insert_eq, Hfg.
        -- rewrite !list_lookup_insert_ne by done. rewrite Eo1, Eo2. simpl.
           by rewrite !acc_set_set, list_insert_insert_ne.
      * rewrite !acc_get_set_ne by done. rewrite Ep1, Ep2. simpl. rewrite Eo1, Eo2. simpl.
        by rewrite acc_set_comm.
    + apply acc_update_None in E2. apply acc_update_None.
      pose proof (acc_update_shape _ _ _ _ _ E1 r2) as Hlen. by rewrite Hlen.
  - destruct (acc_update a r2 w2 g) as [a2|] eqn:E2; simpl; [|done].
    symmetry. apply acc_update_None in E1. apply acc_update_None.
    pose proof (acc_update_shape _ _ _ _ _ E2 r1) as Hlen. by rewrite Hlen.
Qed.

(** Doing an idempotent update twice is doing it once. *)
Lemma acc_update_idem a r word f a' :
  (∀ x, f (f x) = f x) →
  acc_update a r word f = Some a' → acc_update a' r word f = Some a'.
Proof.
  intros Hf. unfold acc_update. intros H.
  destruct (py_index (length (acc_get a r)) word) as [pos|] eqn:Epos; simpl in H; [|done].
  destruct (acc_get a r !! pos) as [old|] eqn:Eold; simpl in H; [|done].
  injection H as <-.
  rewrite acc_get_set, length_insert, Epos. simpl.
  rewrite list_lookup_insert_eq by (by eapply lookup_lt_Some). simpl.
  by rewrite acc_set_set, list_insert_insert_eq, Hf.
Qed.

Section FlagFacts.
Variable N : ItemNames.
Variable T : ItemTables.
Variable version : Z.
Variables minerals vespene supply : Z.

Local Abbreviation step := (fold_item N T version minerals vespene supply).
Local Abbreviation run := (fold_items N T version minerals vespene supply).

(** What the loop does for an item that exists once. *)
Lemma flag_step network_item :
  is_flag T network_item →
  ∃ r w n, ∀ st,
    step st network_item
    = (py_shl 1 n ≫= λ bit,
       acc_update (accumulators st) r w (λ old, Z.lor old bit) ≫= λ a,
       Some (with_accumulators st a)).
Proof.
  intros (name & item_data & Hname & Hdata & Hw & Hq).
  exists (race item_data), (flag_word item_data), (number item_data). intros st.
  unfold fold_item. rewrite Hname. simpl. rewrite Hdata. simpl.
  rewrite (proj2 (Z.ltb_ge (flag_word item_data) 0)) by lia.
  by rewrite (proj2 (Z.eqb_eq (quantity item_data) 1)) by lia.
Qed.

Lemma flag_steps_commute x y st :
  is_flag T x → is_flag T y →
  (step st x ≫= λ st1, step st1 y) = (step st y ≫= λ st1, step st1 x).
Proof.
  intros Hx Hy.
  destruct (flag_step x Hx) as (r1 & w1 & n1 & Hsx).
  destruct (flag_step y Hy) as (r2 & w2 & n2 & Hsy).
  rewrite (Hsx st), (Hsy st).
  destruct (py_shl 1 n1) as [b1|] eqn:Eb1; destruct (py_shl 1 n2) as [b2|] eqn:Eb2; simpl.
  - assert (Hc := acc_update_comm (accumulators st) r1 w1 (λ old, Z.lor old b1)
                  r2 w2 (λ old, Z.lor old b2)).
    specialize (Hc ltac:(intros x0; cbv beta; rewrite <- !Z.lor_assoc; f_equal; apply Z.lor_comm)).
    destruct (acc_update (accumulators st) r1 w1 _) as [a1|] eqn:E1;
      destruct (acc_update (accumulators st) r2 w2 _) as [a2|] eqn:E2; simpl in *;
      rewrite ?Hsx, ?Hsy; simpl.
    + rewrite Hc. by destruct (acc_update a2 r1 w1 _).
    + by rewrite Hc.
    + by rewrite <- Hc.
    + done.
  - destruct (acc_update (accumulators st) r1 w1 _); simpl; [|done].
    by rewrite Hsy.
  - destruct (acc_update (accumulators st) r2 w2 _); simpl; [|done].
    by rewrite Hsx.
  - done.
Qed.
Lemma flag_step_idem x st st1 :
  is_flag T x → step st x = Some st1 → step st1 x = Some st1.
Proof.
  intros Hx Hstep. destruct (flag_step x Hx) as (r & w & n & Hs).
  rewrite Hs in *. destruct (py_shl 1 n) as [bit|]; simpl in *; [|done].
  destruct (acc_update (accumulators st) r w _) as [a|] eqn:Ea; simpl in *; [|done].
  injection Hstep as <-. simpl.
  apply acc_update_idem in Ea as ->; [done|].
  intros x0. by rewrite <- Z.lor_assoc, Z.lor_diag.
Qed.

Lemma flag_absorbed_step x y st st1 :
  is_flag T x → is_flag T y →
  step st x = Some st → step st y = Some st1 → step st1 x = Some st1.
Proof.
  intros Hx Hy Habs Hstep.
  pose proof (flag_steps_commute x y st Hx Hy) as Hc.
  rewrite Habs, Hstep in Hc. simpl in Hc. by rewrite Hstep in Hc.
Qed.

Lemma flag_absorbed_run x items : ∀ st st1,
  is_flag T x → Forall (is_flag T) items →
  step st x = Some st → run st items = Some st1 → step st1 x = Some st1.
Proof.
  induction items as [|y items IH]; intros st st1 Hx Hall Habs Hrun; simpl in Hrun.
  - by injection Hrun as <-.
  - apply Forall_cons in Hall as [Hy Hall].
    destruct (step st y) as [st2|] eqn:Hstep; simpl in Hrun; [|done].
    apply (IH st2 st1 Hx Hall); [|done].
    by apply (flag_absorbed_step x y st st2).
Qed.

(** X12 (calculate_items): the items that exist once are collected with
    a bitwise or, so the accumulators do not depend on the order in which
    such items were received: two received lists that are permutations of
    one another give the same result (or both fail). *)
Theorem X_flag_items_order_independent items items' :
  Forall (is_flag T) items → items ≡ₚ items' →
  ∀ st, run st items = run st items'.
Proof.
  intros Hall Hperm. induction Hperm as [|x l l' Hperm IH|x y l|l l' l'' H1 IH1 H2 IH2];
    intros st.
  - done.
  - apply Forall_cons in Hall as [Hx Hall]. simpl.
    destruct (step st x); simpl; [by apply IH|done].
  - apply Forall_cons in Hall as [Hy Hall]. apply Forall_cons in Hall as [Hx Hall].
    simpl. pose proof (flag_steps_commute x y st Hx Hy) as Hc.
    destruct (step st x) as [sx|] eqn:Ex; destruct (step st y) as [sy|] eqn:Ey;
      simpl in *.
    + by rewrite Hc.
    + by rewrite Hc.
    + by rewrite <- Hc.
    + done.
  - rewrite IH1 by done. apply IH2. by rewrite <- H1.
Qed.

(** X13 (calculate_items): replaying items that exist once changes
    nothing. After the loop has run over such a list, running it again
    over the same list from the state it reached gives that state back,
    so a received list with every item doubled gives the same
    accumulators. *)
Theorem X_flag_items_replay items st st1 :
  Forall (is_flag T) items → run st items = Some st1 →
  run st1 items = Some st1 ∧ run st (items ++ items) = Some st1.
Proof.
  intros Hall Hrun.
  assert (Hagain : run st1 items = Some st1).
  { revert st Hrun. induction Hall as [|x items Hx Hall IH]; intros st Hrun; [done|].
    simpl in Hrun. destruct (step st x) as [st2|] eqn:Hstep; simpl in Hrun; [|done].
    simpl. rewrite (flag_absorbed_run x items st2 st1 Hx Hall
                      (flag_step_idem x st st2 Hx Hstep) Hrun). simpl.
    by eapply IH. }
  split; [done|].
  by rewrite fold_items_app, Hrun.
Qed.
End FlagFacts.

Lemma sample_flag_items :
  Forall (is_flag sample_tables) [received 3; received 20; received 2].
Proof.
  repeat apply Forall_cons_2; [| | |apply Forall_nil_2].
  - exists "MULE", (sample_item 3 1 1 TERRAN 1). by vm_compute.
  - exists "Photon Cannon", (sample_item 20 1 0 PROTOSS 1). by vm_compute.
  - exists "Scanner Sweep", (sample_item 2 1 0 TERRAN 1). by vm_compute.
Defined.

Lemma X_flag_items_order_independent_witness :
  Forall (is_flag sample_tables) [received 3; received 20; received 2]
  ∧ [received 3; received 20; received 2] ≡ₚ [received 20; received 3; received 2]
  ∧ fold_items sample_names sample_tables 4 0 0 0 (initial_state sample_tables)
      [received 3; received 20; received 2]
    = fold_items sample_names sample_tables 4 0 0 0 (initial_state sample_tables)
        [received 20; received 3; received 2].
Proof.
  split_and!; [apply sample_flag_items | apply perm_swap |].
  apply (X_flag_items_order_independent sample_names sample_tables 4 0 0 0);
    [apply sample_flag_items | apply perm_swap].
Defined.

Lemma X_flag_items_replay_witness :
  Forall (is_flag sample_tables) [received 3; received 20; received 2]
  ∧ ∃ st1,
      fold_items sample_names sample_tables 4 0 0 0 (initial_state sample_tables)
        [received 3; received 20; received 2] = Some st1
      ∧ fold_items sample_names sample_tables 4 0 0 0 st1
          [received 3; received 20; received 2] = Some st1
      ∧ fold_items sample_names sample_tables 4 0 0 0 (initial_state sample_tables)
          ([received 3; received 20; received 2]
           ++ [received 3; received 20; received 2]) = Some st1.
Proof.
  split; [apply sample_flag_items|].
  destruct (fold_items sample_names sample_tables 4 0 0 0 (initial_state sample_tables)
              [received 3; received 20; received 2]) as [st1|] eqn:Hrun;
    [|by vm_compute in Hrun].
  exists st1. split; [done|].
  apply (X_flag_items_replay sample_names sample_tables 4 0 0 0
           [received 3; received 20; received 2] (initial_state sample_tables) st1
           sample_flag_items Hrun).
Defined.

(** ** The regenerative bio-steel in older games *)

Lemma acc_update_word a r word f a' :
  acc_update a r word f = Some a' →
  ∃ old, acc_word a r word = Some old ∧ acc_word a' r word = Some (f old).
Proof.
  unfold acc_update, acc_word. intros H.
  destruct (py_index (length (acc_get a r)) word) as [pos|] eqn:Epos; simpl in *; [|done].
  destruct (acc_get a r !! pos) as [old|] eqn:Eold; simpl in *; [|done].
  injection H as <-. exists old. split; [done|].
  rewrite acc_get_set, length_insert, Epos. simpl.
  apply list_lookup_insert_eq. by eapply py_index_lt.
Qed.

Lemma shiftr_add_bit (word n : Z) :
  0 ≤ n → Z.shiftr (word + Z.shiftl 1 n) n = Z.shiftr word n + 1.
Proof.
  intros Hn. rewrite !Z.shiftr_div_pow2, Z.shiftl_1_l by done.
  replace (word + 2 ^ n) with (word + 1 * 2 ^ n) by lia.
  apply Z.div_add. lia.
Qed.

Section BioSteel.
Variable N : ItemNames.
Variable T : ItemTables.
Variables version minerals vespene supply : Z.

(** X14 (calculate_items): in a game generated before schema version 3
    a received regenerative bio-steel raises its two-bit level by one and
    then skips the level 2: the level field after the item is never 2, it
    is 3 where the plain count would give 2. *)
Theorem X_bio_steel_skips_level_2 (st st' : FoldState) (network_item : NetworkItem)
    (item_data : ItemData) :
  version < 3 →
  lookup_id_to_name T !! item network_item = Some (PROGRESSIVE_REGENERATIVE_BIO_STEEL N) →
  full_item_list T !! PROGRESSIVE_REGENERATIVE_BIO_STEEL N = Some item_data →
  0 ≤ flag_word item_data → 1 < quantity item_data → 0 ≤ number item_data →
  fold_item N T version minerals vespene supply st network_item = Some st' →
  ∃ old new,
    acc_word (accumulators st) (race item_data) (flag_word item_data) = Some old
    ∧ acc_word (accumulators st') (race item_data) (flag_word item_data) = Some new
    ∧ Z.shiftr new (number item_data) `mod` 4
      = (if decide ((Z.shiftr old (number item_data) + 1) `mod` 4 = 2) then 3
         else (Z.shiftr old (number item_data) + 1) `mod` 4)
    ∧ Z.shiftr new (number item_data) `mod` 4 ≠ 2.
Proof.
  intros Hversion Hname Hdata Hword Hquantity Hnumber Hstep.
  unfold fold_item in Hstep. rewrite Hname in Hstep. simpl in Hstep.
  rewrite Hdata in Hstep. simpl in Hstep.
  rewrite (proj2 (Z.ltb_ge (flag_word item_data) 0)) in Hstep by lia.
  rewrite (proj2 (Z.eqb_neq (quantity item_data) 1)) in Hstep by lia.
  rewrite (proj2 (Z.ltb_lt 1 (quantity item_data))) in Hstep by lia.
  unfold fold_progressive in Hstep.
  rewrite (proj2 (Z.leb_le 0 (number item_data))) in Hstep by lia.
  rewrite (proj2 (Z.ltb_lt version 3)) in Hstep by lia.
  rewrite bool_decide_eq_true_2 in Hstep by done. simpl in Hstep.
  unfold py_shl, py_shr in Hstep.
  rewrite (proj2 (Z.ltb_ge (number item_data) 0)) in Hstep by lia. simpl in Hstep.
  destruct (acc_add (accumulators st) _ _ _) as [a1|] eqn:E1; simpl in Hstep; [|done].
  apply acc_update_word in E1 as (old & Hold & Hmid).
  rewrite Hmid in Hstep. simpl in Hstep.
  rewrite shiftr_add_bit in Hstep by done.
  exists old. destruct (Z.eqb_spec ((Z.shiftr old (number item_data) + 1) `mod` 4) 2)
    as [Hlevel|Hlevel].
  - destruct (acc_add a1 _ _ _) as [a2|] eqn:E2; simpl in Hstep; [|done].
    injection Hstep as <-. simpl.
    apply acc_update_word in E2 as (mid & Hmid' & Hnew).
    rewrite Hmid in Hmid'. injection Hmid' as <-.
    eexists. split_and!; [done | exact Hnew | |];
      rewrite !shiftr_add_bit by done; rewrite ?decide_True by done;
      revert Hlevel; generalize (Z.shiftr old (number item_data)); intros s Hs;
      Z.to_euclidean_division_equations; lia.
  - injection Hstep as <-.
    eexists. split_and!; [done | exact Hmid | |];
      rewrite !shiftr_add_bit by done; rewrite ?decide_False by done; done.
Qed.
End BioSteel.

Lemma X_bio_steel_skips_level_2_witness :
  fold_item sample_names bio_steel_tables 2 0 0 0 (initial_state bio_steel_tables)
    (received 30) = Some (bio_steel_state 16)
  ∧ fold_item sample_names bio_steel_tables 2 0 0 0 (bio_steel_state 16) (received 30)
    = Some (bio_steel_state 48)
  ∧ ∃ old new,
      acc_word (accumulators (bio_steel_state 16)) TERRAN 0 = Some old
      ∧ acc_word (accumulators (bio_steel_state 48)) TERRAN 0 = Some new
      ∧ Z.shiftr new 4 `mod` 4
        = (if decide ((Z.shiftr old 4 + 1) `mod` 4 = 2) then 3
           else (Z.shiftr old 4 + 1) `mod` 4)
      ∧ Z.shiftr new 4 `mod` 4 ≠ 2.
Proof.
  split_and!; [by vm_compute | by vm_compute |].
  apply (X_bio_steel_skips_level_2 sample_names bio_steel_tables 2 0 0 0
           (bio_steel_state 16) (bio_steel_state 48)
           (received 30) (sample_item 30 0 4 TERRAN 3));
    [lia | by vm_compute | by vm_compute | simpl; lia | simpl; lia | simpl; lia
    | by vm_compute].
Defined.

(** ** The option words *)

Lemma presence_value_range choice value :
  presence_value choice value ∈ [0; 1; 2; 3].
Proof. unfold presence_value. repeat case_bool_decide; set_solver. Qed.

(** X15 (caclulate_soa_options): the four fields of the option word do
    not overlap, so each can be read back from the result: bits 0-1 hold
    the calldown presence, bit 2 the no-build switch, bits 3-4 the autocast
    presence and bit 5 its no-build switch, and nothing above bit 5 is
    set. For a game generated before schema version 4 bit 4 is always set,
    whatever the option says. *)
Theorem X_soa_options_fields (O : SoAOptionValues) (ctx : SoAOptions) :
  Z.land (caclulate_soa_options O ctx) 3
  = presence_value (SpearOfAdunPresence O) (spear_of_adun_presence ctx)
  ∧ Z.testbit (caclulate_soa_options O ctx) 2
    = bool_decide (spear_of_adun_present_in_no_build ctx
                   = SpearOfAdunPresentInNoBuild_option_true O)
  ∧ Z.land (Z.shiftr (caclulate_soa_options O ctx) 3) 3
    = soa_autocasts_presence_value O ctx
  ∧ Z.testbit (caclulate_soa_options O ctx) 5
    = bool_decide (spear_of_adun_autonomously_cast_present_in_no_build ctx
                   = SpearOfAdunAutonomouslyCastPresentInNoBuild_option_true O)
  ∧ 0 ≤ caclulate_soa_options O ctx < 64
  ∧ (soa_slot_data_version ctx < 4 → Z.testbit (caclulate_soa_options O ctx) 4 = true).
Proof.
  unfold caclulate_soa_options, soa_autocasts_presence_value.
  pose proof (presence_value_range (SpearOfAdunPresence O) (spear_of_adun_presence ctx))
    as Hpresence.
  pose proof (presence_value_range (SpearOfAdunAutonomouslyCastAbilityPresence O)
                (spear_of_adun_autonomously_cast_ability_presence ctx)) as Hautocast.
  destruct (Z.ltb_spec (soa_slot_data_version ctx) 4) as [Hversion|Hversion];
    repeat (apply elem_of_cons in Hpresence as [->|Hpresence]);
    try (by apply elem_of_nil in Hpresence);
    repeat (apply elem_of_cons in Hautocast as [->|Hautocast]);
    try (by apply elem_of_nil in Hautocast);
    repeat case_bool_decide; simpl; split_and!; try reflexivity; try lia; try done.
Qed.

(** X16 (get_kerrigan_level): with a level rate that is not negative,
    beating more missions never lowers Kerrigan's level, and a total cap
    other than -1 is never exceeded; the function fails only on the lookup
    of the level word, whatever the number of missions. *)
Theorem X_kerrigan_level_monotone (level_word : Z) (ctx : KerriganOptions)
    (items : Accumulators) (missions_beaten missions_beaten' level : Z) :
  0 ≤ kerrigan_levels_per_mission_completed ctx →
  missions_beaten ≤ missions_beaten' →
  get_kerrigan_level level_word ctx items missions_beaten = Some level →
  ∃ level',
    get_kerrigan_level level_word ctx items missions_beaten' = Some level'
    ∧ level ≤ level'
    ∧ (kerrigan_total_level_cap ctx ≠ -1 → level' ≤ kerrigan_total_level_cap ctx).
Proof.
  intros Hrate Hmore. unfold get_kerrigan_level.
  destruct (acc_word items ZERG level_word) as [item_value|]; simpl; [|done].
  intros [= <-]. eexists. split; [done|].
  repeat case_bool_decide; split; nia.
Qed.

Lemma X_kerrigan_level_monotone_witness :
  let ctx := {| kerrigan_levels_per_mission_completed := 2;
                kerrigan_levels_per_mission_completed_cap := 7;
                kerrigan_total_level_cap := 12 |} in
  let items := {| acc_any := []; acc_terran := []; acc_zerg := [5]; acc_protoss := [] |} in
  get_kerrigan_level 0 ctx items 1 = Some 7
  ∧ ∃ level',
      get_kerrigan_level 0 ctx items 4 = Some level'
      ∧ 7 ≤ level'
      ∧ (kerrigan_total_level_cap ctx ≠ -1 → level' ≤ kerrigan_total_level_cap ctx).
Proof.
  intros ctx items. split; [reflexivity|].
  apply (X_kerrigan_level_monotone 0 ctx items 1 4 7); [simpl; lia | lia | reflexivity].
Defined.
